(** * keymap-drawer: physical layouts and the SVG drawing engine

    A shallow embedding of [keymap_drawer/physical_layout.py] and
    [keymap_drawer/draw.py], followed by the properties of the
    specification that concern them.

    Conventions of the embedding.
    - A Python [int] is a [Z]; a Python [float] is a real number [R]
      (the rounding of IEEE doubles is not modelled: every arithmetic
      operation is the exact one).
    - A Python [str] is a [string]; each character stands for the code point
      of the same number.
    - A Python exception is a value of [exn]; a function that may raise
      returns a sum [exn + A].
    - [self.out.write(...)] appends one element to the list of written
      chunks; a chunk keeps the values interpolated into the f-string
      instead of their decimal rendering. *)

From Stdlib Require Import ZArith List String Ascii Bool Reals Lra Lia.
From Stdlib Require Import Sorted Permutation.
Import ListNotations.

Set Implicit Arguments.

(** Python exceptions raised by the modelled code. *)
Inductive exn : Type :=
| KeyError (key : string)
| IndexError
| ValueError (msg : string)
| ZeroDivisionError
| AssertionError (msg : string)
| ValidationError (msg : string).

(** ** physical_layout.py *)

Module Layout.

Local Open Scope R_scope.

Definition KEY_W : Z := 59.
Definition KEY_H : Z := 54.
(** [SPLIT_GAP = KEY_W / 2] (true division: a float). *)
Definition SPLIT_GAP : R := IZR KEY_W / 2.

(** [class PhysicalKey(BaseModel)] *)
Record PhysicalKey : Type := mkPhysicalKey {
  x_pos : R;
  y_pos : R;
  width : R;
  height : R;
  rotation : R
}.

(** [PhysicalKey(x_pos=x, y_pos=y)]: the other fields take their defaults. *)
Definition PhysicalKey_at (x y : R) : PhysicalKey :=
  mkPhysicalKey x y (IZR KEY_W) (IZR KEY_H) 0.

(** [class PhysicalLayout]: the ordered keys. *)
Record PhysicalLayout : Type := mkPhysicalLayout {
  keys : list PhysicalKey
}.

(** [max(...)] of a generator of floats; [ValueError] on an empty one. *)
Definition py_max (l : list R) : exn + R :=
  match l with
  | [] => inl (ValueError "max() arg is an empty sequence")
  | a :: l' => inr (fold_left Rmax l' a)
  end.

Definition py_min (l : list R) : exn + R :=
  match l with
  | [] => inl (ValueError "min() arg is an empty sequence")
  | a :: l' => inr (fold_left Rmin l' a)
  end.

(** [PhysicalLayout.width] and [PhysicalLayout.height]: a cached property
    is a function of the (immutable) keys. *)
Definition layout_width (l : PhysicalLayout) : exn + R :=
  py_max (map (fun k => x_pos k + width k / 2) (keys l)).

Definition layout_height (l : PhysicalLayout) : exn + R :=
  py_max (map (fun k => y_pos k + height k / 2) (keys l)).

(** The keyword arguments of [OrthoLayout(...)] as the caller passes them:
    [thumbs] has a default and may be left out. *)
Record OrthoArgs : Type := mkOrthoArgs {
  arg_split : bool;
  arg_rows : Z;
  arg_columns : Z;
  arg_thumbs : option Z
}.

(** [class OrthoLayout(PhysicalLayout)]: the validated fields. *)
Record OrthoLayout : Type := mkOrthoLayout {
  ortho_keys : list PhysicalKey;
  split : bool;
  rows : Z;
  columns : Z;
  thumbs : Z
}.

Definition to_layout (l : OrthoLayout) : PhysicalLayout :=
  mkPhysicalLayout (ortho_keys l).

(** The local function [create_row] of [create_ortho_layout]: it appends
    to the list [keys] of the enclosing call, which is threaded here.
    [for _ in range(ncols)] runs [Z.to_nat ncols] times. *)
Fixpoint create_row_loop (n : nat) (x y : R) (keys : list PhysicalKey)
  : list PhysicalKey :=
  match n with
  | O => keys
  | S n' =>
      create_row_loop n' (x + IZR KEY_W) y
        (keys ++ [PhysicalKey_at (x + IZR KEY_W / 2) (y + IZR KEY_H / 2)])
  end.

Definition create_row (keys : list PhysicalKey) (x y : R) (ncols : Z)
  : list PhysicalKey :=
  create_row_loop (Z.to_nat ncols) x y keys.

(** [for _ in range(nrows): ...; y += KEY_H] *)
Fixpoint rows_loop (n : nat) (split : bool) (ncols : Z) (x y : R)
  (keys : list PhysicalKey) : list PhysicalKey :=
  match n with
  | O => keys
  | S n' =>
      let keys := create_row keys x y ncols in
      let keys :=
        if split
        then create_row keys (x + IZR (ncols * KEY_W) + SPLIT_GAP) y ncols
        else keys in
      rows_loop n' split ncols x (y + IZR KEY_H) keys
  end.

(** [OrthoLayout.create_ortho_layout], a [pre] root validator: it reads the
    raw arguments (reading [thumbs] raises [KeyError] when it was not
    passed) and returns them with the generated [keys]. *)
Definition create_ortho_layout (vals : OrthoArgs)
  : exn + (OrthoArgs * list PhysicalKey) :=
  let nrows := arg_rows vals in
  let ncols := arg_columns vals in
  match arg_thumbs vals with
  | None => inl (KeyError "thumbs")
  | Some nthumbs =>
      let keys := rows_loop (Z.to_nat nrows) (arg_split vals) ncols 0 0 [] in
      let keys :=
        if (nthumbs =? 0)%Z then keys
        else
          let keys :=
            create_row keys (IZR ((ncols - nthumbs) * KEY_W))
              (IZR (nrows * KEY_H)) nthumbs in
          create_row keys (IZR (ncols * KEY_W) + SPLIT_GAP)
            (IZR (nrows * KEY_H)) nthumbs in
      inr (vals, keys)
  end.

(** Field validation: the fields are read from the arguments, [thumbs]
    defaulting to [0]. *)
Definition validate_fields (vals : OrthoArgs * list PhysicalKey)
  : OrthoLayout :=
  let (args, keys) := vals in
  mkOrthoLayout keys (arg_split args) (arg_rows args) (arg_columns args)
    (match arg_thumbs args with Some t => t | None => 0%Z end).

(** [OrthoLayout.check_thumbs], a (post) root validator. *)
Definition check_thumbs (vals : OrthoLayout) : exn + OrthoLayout :=
  if (thumbs vals =? 0)%Z then inr vals
  else if negb (thumbs vals <=? columns vals)%Z
  then inl (AssertionError "Number of thumbs should not be greater than columns")
  else if negb (split vals)
  then inl (AssertionError "Cannot process non-split keyboard with thumb keys")
  else inr vals.

(** An [AssertionError] (a [ValueError], a [TypeError]) raised by a root
    validator is reported as a [ValidationError]; any other exception
    propagates as it is. *)
Definition validation_failure (e : exn) : exn :=
  match e with
  | AssertionError msg => ValidationError msg
  | ValueError msg => ValidationError msg
  | e => e
  end.

(** [OrthoLayout] called with keyword arguments. The validation of the
    model runs the [pre] root validators on the raw arguments, then the
    field validators, then the other root validators:
    [create_ortho_layout] is declared with [pre=True] and [check_thumbs]
    without it. *)
Definition new_OrthoLayout (kwargs : OrthoArgs) : exn + OrthoLayout :=
  match create_ortho_layout kwargs with
  | inl e => inl (validation_failure e)
  | inr vals =>
      match check_thumbs (validate_fields vals) with
      | inl e => inl (validation_failure e)
      | inr values => inr values
      end
  end.

(** The validation rule in the words of the specification: if thumbs > 0,
    split must be true and thumbs <= columns. *)
Definition spec_validation_rule (split : bool) (ncols nthumbs : Z) : bool :=
  if (0 <? nthumbs)%Z then split && (nthumbs <=? ncols)%Z else true.

Definition left_edge (k : PhysicalKey) : R := x_pos k - width k / 2.
Definition right_edge (k : PhysicalKey) : R := x_pos k + width k / 2.

(** The keys of a split layout by their place in the order the builder
    emits them: row after row, in a row the left half before the right
    half, and the two thumb rows after the main rows. *)
Definition key_at (l : OrthoLayout) (i : nat) : PhysicalKey :=
  nth i (ortho_keys l) (PhysicalKey_at 0 0).

Definition main_key (l : OrthoLayout) (row col : nat) : PhysicalKey :=
  key_at l (row * (2 * Z.to_nat (columns l)) + col).

Definition left_thumb (l : OrthoLayout) (i : nat) : PhysicalKey :=
  key_at l (Z.to_nat (rows l) * (2 * Z.to_nat (columns l)) + i).

Definition right_thumb (l : OrthoLayout) (i : nat) : PhysicalKey :=
  key_at l (Z.to_nat (rows l) * (2 * Z.to_nat (columns l))
            + Z.to_nat (thumbs l) + i).

End Layout.

(** ** draw.py: strings *)

Module Text.

Local Open Scope string_scope.

(** The characters the script names. *)
Definition NUL : ascii := ascii_of_nat 0.
Definition SPACE : ascii := " "%char.
Definition DOLLAR : ascii := "$"%char.
Definition NEWLINE : ascii := ascii_of_nat 10.

Definition is_empty (s : string) : bool :=
  match s with
  | EmptyString => true
  | String _ _ => false
  end.

(** [s.replace(old, new)] for a non-empty [old]: the occurrences of [old]
    are replaced from left to right and do not overlap. [skip] counts the
    characters of an occurrence that remain to be dropped. *)
Fixpoint replace_from (old new : string) (skip : nat) (s : string) : string :=
  match s with
  | EmptyString => EmptyString
  | String c s' =>
      match skip with
      | S k => replace_from old new k s'
      | O =>
          if prefix old s
          then new ++ replace_from old new (length old - 1) s'
          else String c (replace_from old new O s')
      end
  end.

Definition str_replace (old new s : string) : string :=
  replace_from old new 0 s.

(** The characters [str.split()] splits on, among the code points below
    256: tab to carriage return, the four separators 28 to 31, the space,
    the next-line control and the no-break space. *)
Definition isspace (c : ascii) : bool :=
  let n := nat_of_ascii c in
  (((9 <=? n) && (n <=? 13)) || ((28 <=? n) && (n <=? 32))
   || (n =? 133) || (n =? 160))%nat.

(** [s.split()]: the maximal runs of characters that are not white space.
    [word] is the run being read. *)
Fixpoint split_from (word : string) (s : string) : list string :=
  match s with
  | EmptyString => if is_empty word then [] else [word]
  | String c s' =>
      if isspace c
      then (if is_empty word then split_from "" s'
            else word :: split_from "" s')
      else split_from (word ++ String c "") s'
  end.

Definition str_split (s : string) : list string := split_from "" s.

(** [KeymapDrawer._split_text]: the double spaces of [text] are replaced
    by the character NUL, the result is split, and NUL is replaced by a
    space in every word. *)
Definition _split_text (text : string) : list string :=
  map (str_replace (String NUL "") " ")
      (str_split (str_replace "  " (String NUL "") text)).

(** [_glyph_name_re]: two dollars, the group [glyph] (any characters,
    greedy), two dollars.

    [glyph_group s] matches the rest of the pattern once the opening
    dollars are read: the greedy [.*] takes as many characters as it can,
    none of them a newline, and gives them back one by one until two
    dollars follow. The result is the text of the group. *)
Fixpoint glyph_group (s : string) : option string :=
  match s with
  | EmptyString => None
  | String c s' =>
      let longer :=
        if Ascii.eqb c NEWLINE then None
        else option_map (String c) (glyph_group s') in
      match longer with
      | Some g => Some g
      | None => if prefix "$$" s then Some "" else None
      end
  end.

(** [_glyph_name_re.search(s)]: the match at the leftmost position that
    has one; the result is the text of the group [glyph]. *)
Fixpoint glyph_name_search (s : string) : option string :=
  match s with
  | EmptyString => None
  | String c s' =>
      let here :=
        match s with
        | String "$" (String "$" rest) => glyph_group rest
        | _ => None
        end in
      match here with
      | Some g => Some g
      | None => glyph_name_search s'
      end
  end.

(** [KeymapDrawer._is_glyph] *)
Definition _is_glyph (words : list string) : option string :=
  match words with
  | [w] => glyph_name_search w
  | _ => None
  end.

(** [html.escape(s)] with its default [quote=True]. *)
Definition escape (s : string) : string :=
  let quot := String (ascii_of_nat 34) "" in
  let s := str_replace "&" "&amp;" s in
  let s := str_replace "<" "&lt;" s in
  let s := str_replace ">" "&gt;" s in
  let s := str_replace quot "&quot;" s in
  str_replace "'" "&#x27;" s.

(** *** Notions used to state the properties of the splitter *)

Fixpoint string_map (f : ascii -> ascii) (s : string) : string :=
  match s with
  | EmptyString => EmptyString
  | String c s' => String (f c) (string_map f s')
  end.

Fixpoint string_filter (p : ascii -> bool) (s : string) : string :=
  match s with
  | EmptyString => EmptyString
  | String c s' =>
      if p c then String c (string_filter p s') else string_filter p s'
  end.

Fixpoint string_forall (p : ascii -> bool) (s : string) : bool :=
  match s with
  | EmptyString => true
  | String c s' => p c && string_forall p s'
  end.

Fixpoint count_char (a : ascii) (s : string) : nat :=
  match s with
  | EmptyString => O
  | String c s' =>
      if Ascii.eqb c a then S (count_char a s') else count_char a s'
  end.

(** The tokens of a split, one after the other. *)
Definition join_tokens (l : list string) : string :=
  fold_right append "" l.

(** The characters of a text that are not white space, in their order. *)
Definition visible (s : string) : string :=
  string_filter (fun c => negb (isspace c)) s.

Definition nul_to_space (c : ascii) : ascii :=
  if Ascii.eqb c NUL then SPACE else c.

(** A character of a word: neither white space nor NUL. *)
Definition plain (c : ascii) : bool :=
  negb (isspace c) && negb (Ascii.eqb c NUL).

End Text.

(** ** draw.py: the drawing engine *)

Module Draw.

Import Layout Text.
Local Open Scope R_scope.

(** *** Values the script imports *)

(** Modelled from the spec: the class [Point], which draw.py imports from
    physical_layout and which is missing there. A point of the plane with
    addition, subtraction, multiplication by a number on the left, and the
    Euclidean length as [abs]. *)
Record Point : Type := mkPoint { pt_x : R; pt_y : R }.

Definition padd (p q : Point) : Point :=
  mkPoint (pt_x p + pt_x q) (pt_y p + pt_y q).
Definition psub (p q : Point) : Point :=
  mkPoint (pt_x p - pt_x q) (pt_y p - pt_y q).
Definition pscale (a : R) (p : Point) : Point :=
  mkPoint (a * pt_x p) (a * pt_y p).
Definition pabs (p : Point) : R :=
  sqrt (pt_x p * pt_x p + pt_y p * pt_y p).

(** Modelled from the spec: the property [pos] of a key, its position
    as a point. *)
Definition pos (k : PhysicalKey) : Point := mkPoint (x_pos k) (y_pos k).

(** Modelled from the spec: the properties [min_width] and [min_height] of
    a layout, its minimum key dimensions. *)
Definition min_width (l : PhysicalLayout) : exn + R :=
  py_min (map width (keys l)).
Definition min_height (l : PhysicalLayout) : exn + R :=
  py_min (map height (keys l)).

(** Comparisons of floats as booleans. *)
Definition Rltb (a b : R) : bool := if Rlt_dec a b then true else false.
Definition Rleb (a b : R) : bool := if Rle_dec a b then true else false.
Definition Reqb (a b : R) : bool := if Req_dec_T a b then true else false.

(** [math.copysign(a, b)]; a zero [b] counts as positive. *)
Definition copysign (a b : R) : R :=
  if Rltb b 0 then - Rabs a else Rabs a.

(** [LegendType]: one of the three legends of a key. *)
Inductive LegendType : Type := tap_legend | hold_legend | shifted_legend.

Definition legend_name (t : LegendType) : string :=
  match t with
  | tap_legend => "tap"
  | hold_legend => "hold"
  | shifted_legend => "shifted"
  end.

(** [LayoutKey] of keymap.py: the three legends of a key and its type. *)
Record LayoutKey : Type := mkLayoutKey {
  tap : string;
  hold : string;
  shifted : string;
  key_type : string
}.

(** [LayoutKey()] *)
Definition empty_LayoutKey : LayoutKey := mkLayoutKey "" "" "" "".

Inductive Alignment : Type :=
  align_mid | align_top | align_bottom | align_left | align_right.

(** [ComboSpec] of keymap.py. [dendron] is [True] (always), [False]
    (never) or [None] (decided by the distance); [slide] is a number or
    [None]. *)
Record ComboSpec : Type := mkComboSpec {
  key_positions : list Z;
  combo_key : LayoutKey;
  combo_layers : list string;
  align : Alignment;
  offset : R;
  dendron : option bool;
  slide : option R;
  combo_type : string
}.

(** [DrawConfig] of config.py: the fields the drawer reads. [glyphs] is a
    dictionary (its names are pairwise different), kept in its order. *)
Record DrawConfig : Type := mkDrawConfig {
  key_rx : R;
  key_ry : R;
  inner_pad_w : R;
  inner_pad_h : R;
  outer_pad_w : R;
  outer_pad_h : R;
  small_pad : R;
  line_spacing : R;
  arc_radius : R;
  arc_scale : R;
  combo_w : R;
  combo_h : R;
  glyph_tap_size : R;
  glyph_hold_size : R;
  glyph_shifted_size : R;
  svg_style : string;
  append_colon_to_layer_header : bool;
  glyphs : list (string * string)
}.

Definition Layers : Type := list (string * list LayoutKey).

(** [KeymapData] of keymap.py: the layers in their order, the layout and
    the configuration (either may be [None]), and the method
    [get_combos_per_layer], taken as it is. *)
Record KeymapData : Type := mkKeymapData {
  layers : Layers;
  keymap_layout : option PhysicalLayout;
  keymap_config : option DrawConfig;
  get_combos_per_layer : Layers -> list (string * list ComboSpec)
}.

(** [d.get(key)] and [d[key]] of a dictionary kept as a list. *)
Fixpoint dict_get (A : Type) (key : string) (d : list (string * A))
  : option A :=
  match d with
  | [] => None
  | (k, v) :: d' => if String.eqb k key then Some v else dict_get key d'
  end.

Definition dict_item (A : Type) (key : string) (d : list (string * A))
  : exn + A :=
  match dict_get key d with
  | Some v => inr v
  | None => inl (KeyError key)
  end.

(** [key in d] and [s in names]. *)
Definition has_key (A : Type) (key : string) (d : list (string * A))
  : bool :=
  existsb (fun kv => String.eqb (fst kv) key) d.

Definition in_names (s : string) (names : list string) : bool :=
  existsb (String.eqb s) names.

(** [keys[p]] with Python's indexing: a negative index counts from the
    end. *)
Definition py_index (A : Type) (l : list A) (p : Z) : exn + A :=
  let n := Z.of_nat (List.length l) in
  let i := if (p <? 0)%Z then (p + n)%Z else p in
  if ((0 <=? i) && (i <? n))%Z
  then match nth_error l (Z.to_nat i) with
       | Some a => inr a
       | None => inl IndexError
       end
  else inl IndexError.

(** *** The written document *)

(** A segment of an arc dendron: [h] or [v] with its length. *)
Inductive Segment : Type :=
| seg_h (d : R)
| seg_v (d : R).

(** One value per call of [self.out.write]. [classes] is what
    [_to_class_str] renders. *)
Inductive Chunk : Type :=
| Rect (rx ry x y w h : R) (classes : option (list string))
| TextElem (x y : R) (classes : option (list string)) (word : string)
| TextOpen (x y : R) (classes : option (list string))
| TSpanFirst (x dy_0 : R) (word : string)
| TSpan (x dy : R) (word : string)
| TextClose
| Use (href : string) (x y height width : R)
      (classes : option (list string))
| ArcPath (start : Point) (line_1 : Segment) (radius : R)
          (clockwise : bool) (arc_x arc_y : R) (line_2 : Segment)
| LinePath (start : Point) (line : Point)
| RotateOpen (r x y : R)
| GroupClose
| SvgOpen (board_w board_h : R)
| DefsOpen
| GlyphOpen (name : string)
| GlyphBlock (block : string)
| GlyphClose
| DefsClose
| Style (css : string)
| LayerOpen (name : string)
| SvgClose.

(** A computation that writes to [self.out] and may raise: its result,
    and the chunks it wrote (in order) before it returned or raised. *)
Definition M (A : Type) : Type := ((exn + A) * list Chunk)%type.

Definition ret (A : Type) (a : A) : M A := (inr a, []).
Definition raise (A : Type) (e : exn) : M A := (inl e, []).
Definition write (c : Chunk) : M unit := (inr tt, [c]).
Definition lift (A : Type) (r : exn + A) : M A := (r, []).

Definition bind (A B : Type) (m : M A) (f : A -> M B) : M B :=
  match m with
  | (inl e, w) => (inl e, w)
  | (inr a, w) => let (r, w') := f a in (r, w ++ w')
  end.

Notation "x <- m ;; k" := (bind m (fun x => k))
  (at level 61, m at next level, right associativity).
Notation "m ;;; k" := (bind m (fun _ => k))
  (at level 61, right associativity).

(** [for a in l: f(a)] *)
Fixpoint for_each (A : Type) (l : list A) (f : A -> M unit) : M unit :=
  match l with
  | [] => ret tt
  | a :: l' => f a ;;; for_each l' f
  end.

(** The straight dendrons among the written chunks. *)
Definition is_line_path (c : Chunk) : bool :=
  match c with
  | LinePath _ _ => true
  | _ => false
  end.

Definition line_paths (out : list Chunk) : list Chunk :=
  filter is_line_path out.

(** The sink after a computation that started with [out] written. *)
Definition sink_after (A : Type) (out : list Chunk) (m : M A)
  : list Chunk :=
  out ++ snd m.

(** [[f(a) for a in l]] where [f] may raise. *)
Fixpoint map_exn (A B : Type) (f : A -> exn + B) (l : list A)
  : exn + list B :=
  match l with
  | [] => inr []
  | a :: l' =>
      match f a with
      | inl e => inl e
      | inr b =>
          match map_exn f l' with
          | inl e => inl e
          | inr bs => inr (b :: bs)
          end
      end
  end.

(** *** class KeymapDrawer *)

(** The drawer after [__init__]. The two regular expressions of the class
    that the model does not interpret are fields: [_view_box_dimensions]
    is the match of [_view_box_dimensions_re] on a glyph followed by the
    conversion of its four groups to floats, and [_scrub_dims] is the
    substitution of [_scrub_dims_re] by the empty string. *)
Record KeymapDrawer : Type := mkKeymapDrawer {
  cfg : DrawConfig;
  keymap : KeymapData;
  layout : PhysicalLayout;
  _view_box_dimensions : string -> option (R * R * R * R);
  _scrub_dims : string -> string
}.

(** [KeymapDrawer.__init__], given the keymap data it builds. *)
Definition new_KeymapDrawer (config : DrawConfig) (km : KeymapData)
  (view_box : string -> option (R * R * R * R)) (scrub : string -> string)
  : exn + KeymapDrawer :=
  match keymap_layout km with
  | None => inl (AssertionError "A PhysicalLayout must be provided for drawing")
  | Some l =>
      match keymap_config km with
      | None => inl (AssertionError "A DrawConfig must be provided for drawing")
      | Some _ => inr (mkKeymapDrawer config km l view_box scrub)
      end
  end.

(** [_to_class_str]: no attribute for an empty list, else the non-empty
    classes. *)
Definition _to_class_str (classes : list string) : option (list string) :=
  match classes with
  | [] => None
  | _ => Some (filter (fun c => negb (is_empty c)) classes)
  end.

Section Drawer.

Variable self : KeymapDrawer.

Definition _draw_rect (p : Point) (w h : R) (classes : list string)
  : M unit :=
  write (Rect (key_rx (cfg self)) (key_ry (cfg self))
           (pt_x p - w / 2) (pt_y p - h / 2) w h (_to_class_str classes)).

Definition _draw_text (p : Point) (word : string) (classes : list string)
  : M unit :=
  if is_empty word then ret tt
  else write (TextElem (pt_x p) (pt_y p) (_to_class_str classes)
                (escape word)).

Definition _draw_textblock (p : Point) (words : list string)
  (classes : list string) (shift : R) : M unit :=
  write (TextOpen (pt_x p) (pt_y p) (_to_class_str classes)) ;;;
  let dy_0 :=
    IZR (Z.of_nat (List.length words) - 1)
    * (line_spacing (cfg self) * (1 + shift) / 2) in
  match words with
  | [] => raise unit IndexError
  | word_0 :: rest =>
      write (TSpanFirst (pt_x p) dy_0 (escape word_0)) ;;;
      for_each rest (fun word =>
        write (TSpan (pt_x p) (line_spacing (cfg self)) (escape word))) ;;;
      write TextClose
  end.

(** [_draw_glyph]: [False] when the glyph is unknown (or empty) or its
    view box is not found; the division raises when its divisor is zero. *)
Definition _draw_glyph (p : Point) (name : string)
  (legend_type : LegendType) (classes : list string) : M bool :=
  match dict_get name (glyphs (cfg self)) with
  | None => ret false
  | Some glyph =>
      if is_empty glyph then ret false
      else
        match _view_box_dimensions self glyph with
        | None => ret false
        | Some (x, y, w, h) =>
            let (height, d_y) :=
              match legend_type with
              | tap_legend =>
                  (glyph_tap_size (cfg self),
                   0.5 * glyph_tap_size (cfg self))
              | hold_legend =>
                  (glyph_hold_size (cfg self), glyph_hold_size (cfg self))
              | shifted_legend => (glyph_shifted_size (cfg self), 0)
              end in
            if Reqb (h - y) 0 then raise bool ZeroDivisionError
            else
              let width := (w - x) * (height / (h - y)) in
              let classes := classes ++ ["glyph"%string; name] in
              write (Use name (pt_x p - width / 2) (pt_y p - d_y)
                       height width (_to_class_str classes)) ;;;
              ret true
        end
  end.

Definition _draw_arc_dendron (p_1 p_2 : Point) (x_first : bool)
  (shorten : R) : M unit :=
  let arc_x := copysign (arc_radius (cfg self)) (pt_x p_2 - pt_x p_1) in
  let arc_y := copysign (arc_radius (cfg self)) (pt_y p_2 - pt_y p_1) in
  let clockwise :=
    xorb (Rltb (pt_x p_1) (pt_x p_2)) (Rltb (pt_y p_1) (pt_y p_2)) in
  let '(line_1, line_2, clockwise) :=
    if x_first
    then (seg_h (arc_scale (cfg self) * (pt_x p_2 - pt_x p_1) - arc_x),
          seg_v (pt_y p_2 - pt_y p_1 - arc_y
                 - copysign shorten (pt_y p_2 - pt_y p_1)),
          negb clockwise)
    else (seg_v (arc_scale (cfg self) * (pt_y p_2 - pt_y p_1) - arc_y),
          seg_h (pt_x p_2 - pt_x p_1 - arc_x
                 - copysign shorten (pt_x p_2 - pt_x p_1)),
          clockwise) in
  write (ArcPath p_1 line_1 (arc_radius (cfg self)) clockwise arc_x arc_y
           line_2).

(** [_draw_line_dendron]: [shorten] is true when it is not zero; the
    division by [magn] raises when [magn] is zero. *)
Definition _draw_line_dendron (p_1 p_2 : Point) (shorten : R) : M unit :=
  let diff := psub p_2 p_1 in
  let magn := pabs diff in
  if negb (Reqb shorten 0) && Rltb shorten magn
  then
    if Reqb magn 0 then raise unit ZeroDivisionError
    else write (LinePath p_1 (pscale (1 - shorten / magn) diff))
  else write (LinePath p_1 diff).

Definition _draw_legend (p : Point) (words : list string)
  (key_type : string) (legend_type : LegendType) (shift : R) : M unit :=
  match words with
  | [] => ret tt
  | word_0 :: _ =>
      let classes := [key_type; legend_name legend_type] in
      let as_text :=
        match words with
        | [_] => _draw_text p word_0 classes
        | _ => _draw_textblock p words classes shift
        end in
      match _is_glyph words with
      | None => as_text
      | Some glyph =>
          if is_empty glyph then as_text
          else
            drawn <- _draw_glyph p glyph legend_type classes ;;
            if drawn then ret tt else as_text
      end
  end.

Definition print_key (p_0 : Point) (p_key : PhysicalKey) (l_key : LayoutKey)
  : M unit :=
  let p := padd p_0 (pos p_key) in
  let w := width p_key in
  let h := height p_key in
  let r := rotation p_key in
  (if Reqb r 0 then ret tt else write (RotateOpen r (pt_x p) (pt_y p))) ;;;
  _draw_rect p (w - 2 * inner_pad_w (cfg self))
    (h - 2 * inner_pad_h (cfg self)) [key_type l_key; "key"%string] ;;;
  let tap_words := _split_text (tap l_key) in
  let shift :=
    match tap_words with
    | [_; _] =>
        if negb (is_empty (shifted l_key)) && is_empty (hold l_key)
        then -1
        else if negb (is_empty (hold l_key)) && is_empty (shifted l_key)
        then 1
        else 0
    | _ => 0
    end in
  _draw_legend p tap_words (key_type l_key) tap_legend shift ;;;
  _draw_legend
    (padd p (mkPoint 0 (h / 2 - inner_pad_h (cfg self)
                        - small_pad (cfg self))))
    [hold l_key] (key_type l_key) hold_legend 0 ;;;
  _draw_legend
    (psub p (mkPoint 0 (h / 2 - inner_pad_h (cfg self)
                        - small_pad (cfg self))))
    [shifted l_key] (key_type l_key) shifted_legend 0 ;;;
  (if Reqb r 0 then ret tt else write GroupClose).

End Drawer.

(** [sorted(l, key=key)]: Python's sort is stable and compares keys with
    [<] only; so does this insertion sort. *)
Fixpoint insert_sorted (A K : Type) (ltb : K -> K -> bool) (key : A -> K)
  (a : A) (l : list A) : list A :=
  match l with
  | [] => [a]
  | b :: l' =>
      if ltb (key b) (key a) then b :: insert_sorted ltb key a l'
      else a :: b :: l'
  end.

Definition sorted (A K : Type) (ltb : K -> K -> bool) (key : A -> K)
  (l : list A) : list A :=
  fold_right (insert_sorted ltb key) [] l.

(** [<] on tuples of three floats: the first components that differ
    decide. *)
Definition tuple_ltb (a b : R * R * R) : bool :=
  let '(a1, a2, a3) := a in
  let '(b1, b2, b3) := b in
  if negb (Reqb a1 b1) then Rltb a1 b1
  else if negb (Reqb a2 b2) then Rltb a2 b2
  else Rltb a3 b3.

(** [(1 / len(p_keys)) * sum((k.pos for k in p_keys), start=Point(0, 0))],
    for keys that are not none. *)
Definition centroid (p_keys : list PhysicalKey) : Point :=
  pscale (1 / INR (List.length p_keys))
    (fold_left padd (map pos p_keys) (mkPoint 0 0)).

(** The key of the sort in [print_combo]:
    [lambda k: (-abs(k.pos - p_mid), k.pos.x, k.pos.y)] *)
Definition slide_key (p_mid : Point) (k : PhysicalKey) : R * R * R :=
  (- pabs (psub (pos k) p_mid), pt_x (pos k), pt_y (pos k)).


(** [print_combo], the centre of the combo box (the statements under
    the comment that says so): the mean of the key positions, replaced
    when [slide] is given by a point between the two keys furthest from
    the mean. *)
Definition combo_mid (p_keys : list PhysicalKey) (slide : option R)
  : exn + Point :=
  match p_keys with
  | [] => inl ZeroDivisionError
  | _ =>
      let p_mid := centroid p_keys in
      match slide with
      | None => inr p_mid
      | Some slide =>
          match sorted tuple_ltb (slide_key p_mid) p_keys with
          | k_start :: k_end :: _ =>
              inr (padd (pscale ((1 - slide) / 2) (pos k_start))
                        (pscale ((1 + slide) / 2) (pos k_end)))
          | _ => inl (ValueError "not enough values to unpack")
          end
      end
  end.

Section Printer.

Variable self : KeymapDrawer.

(** [print_combo], the [match combo.align] that places the box. *)
Definition combo_anchor (p_0 p_mid : Point) (combo : ComboSpec)
  (p_keys : list PhysicalKey) : exn + Point :=
  match align combo with
  | align_mid => inr (padd p_0 p_mid)
  | align_top =>
      match py_min (map (fun k => pt_y (pos k) - height k / 2) p_keys),
            min_height (layout self) with
      | inr m, inr mh =>
          inr (padd p_0
                 (mkPoint (pt_x p_mid)
                    (m - inner_pad_h (cfg self) / 2 - offset combo * mh)))
      | inl e, _ | _, inl e => inl e
      end
  | align_bottom =>
      match py_max (map (fun k => pt_y (pos k) + height k / 2) p_keys),
            min_height (layout self) with
      | inr m, inr mh =>
          inr (padd p_0
                 (mkPoint (pt_x p_mid)
                    (m + inner_pad_h (cfg self) / 2 + offset combo * mh)))
      | inl e, _ | _, inl e => inl e
      end
  | align_left =>
      match py_min (map (fun k => pt_x (pos k) - width k / 2) p_keys),
            min_width (layout self) with
      | inr m, inr mw =>
          inr (padd p_0
                 (mkPoint
                    (m - inner_pad_w (cfg self) / 2 - offset combo * mw)
                    (pt_y p_mid)))
      | inl e, _ | _, inl e => inl e
      end
  | align_right =>
      match py_max (map (fun k => pt_x (pos k) + width k / 2) p_keys),
            min_width (layout self) with
      | inr m, inr mw =>
          inr (padd p_0
                 (mkPoint
                    (m + inner_pad_w (cfg self) / 2 + offset combo * mw)
                    (pt_y p_mid)))
      | inl e, _ | _, inl e => inl e
      end
  end.

(** [print_combo], the dendrons going from the box at [p] to the combo
    keys. [combo.dendron is not False] holds for [True] and for [None]. *)
Definition draw_dendrons (p_0 p : Point) (combo : ComboSpec)
  (p_keys : list PhysicalKey) : M unit :=
  match dendron combo with
  | Some false => ret tt
  | _ =>
      match align combo with
      | align_top | align_bottom =>
          for_each p_keys (fun k =>
            let offset :=
              if Rltb (Rabs (pt_x p_0 + pt_x (pos k) - pt_x p))
                   (combo_w (cfg self) / 2)
              then height k / 5 else height k / 3 in
            _draw_arc_dendron self p (padd p_0 (pos k)) true offset)
      | align_left | align_right =>
          for_each p_keys (fun k =>
            let offset :=
              if Rltb (Rabs (pt_y p_0 + pt_y (pos k) - pt_y p))
                   (combo_h (cfg self) / 2)
              then width k / 5 else width k / 3 in
            _draw_arc_dendron self p (padd p_0 (pos k)) false offset)
      | align_mid =>
          for_each p_keys (fun k =>
            if match dendron combo with Some true => true | _ => false end
               || Rleb (width k - 1) (pabs (psub (padd p_0 (pos k)) p))
            then _draw_line_dendron p (padd p_0 (pos k)) (width k / 3)
            else ret tt)
      end
  end.

Definition print_combo (p_0 : Point) (combo : ComboSpec) : M unit :=
  p_keys <- lift (map_exn (py_index (keys (layout self)))
                    (key_positions combo)) ;;
  p_mid <- lift (combo_mid p_keys (slide combo)) ;;
  p <- lift (combo_anchor p_0 p_mid combo p_keys) ;;
  draw_dendrons p_0 p combo p_keys ;;;
  _draw_rect self p (combo_w (cfg self)) (combo_h (cfg self))
    [combo_type combo] ;;;
  _draw_legend self p (_split_text (tap (combo_key combo)))
    (combo_type combo) tap_legend 0 ;;;
  _draw_legend self
    (padd p (mkPoint 0 (combo_h (cfg self) / 2 - small_pad (cfg self))))
    [hold (combo_key combo)] (combo_type combo) hold_legend 0 ;;;
  _draw_legend self
    (psub p (mkPoint 0 (combo_h (cfg self) / 2 - small_pad (cfg self))))
    [shifted (combo_key combo)] (combo_type combo) shifted_legend 0.

Definition print_layer (p_0 : Point) (layer_keys : list LayoutKey)
  (combos : list ComboSpec) (empty_layer : bool) : M unit :=
  for_each (combine (keys (layout self)) layer_keys) (fun kl =>
    print_key self p_0 (fst kl)
      (if negb empty_layer then snd kl else empty_LayoutKey)) ;;;
  for_each combos (fun combo_spec => print_combo p_0 combo_spec).

Definition align_eqb (a b : Alignment) : bool :=
  match a, b with
  | align_mid, align_mid | align_top, align_top
  | align_bottom, align_bottom | align_left, align_left
  | align_right, align_right => true
  | _, _ => false
  end.

(** [max((c.offset * self.layout.min_height for c in combos
          if c.align == a), default=0.0)]: [min_height] is read only when
    a combo has the alignment. *)
Definition max_offset (a : Alignment) (combos : list ComboSpec) : exn + R :=
  match filter (fun c => align_eqb (align c) a) combos with
  | [] => inr 0
  | c :: cs =>
      match min_height (layout self) with
      | inl e => inl e
      | inr mh =>
          inr (fold_left Rmax (map (fun c => offset c * mh) cs)
                 (offset c * mh))
      end
  end.

Definition layer_offsets (entry : string * list ComboSpec)
  : exn + (string * (R * R)) :=
  match max_offset align_top (snd entry),
        max_offset align_bottom (snd entry) with
  | inr top_offset, inr bot_offset =>
      inr (fst entry, (top_offset, bot_offset))
  | inl e, _ | _, inl e => inl e
  end.

(** [print_board], the loop over the layers; [p] is carried from one
    layer to the next. *)
Fixpoint print_layers (p : Point) (layers : Layers)
  (combos_per_layer : list (string * list ComboSpec))
  (offsets_per_layer : list (string * (R * R))) (combos_only : bool)
  : M unit :=
  match layers with
  | [] => ret tt
  | (name, layer_keys) :: layers' =>
      write (LayerOpen name) ;;;
      let layer_header :=
        if append_colon_to_layer_header (cfg self)
        then (name ++ ":")%string else name in
      _draw_text (padd p (mkPoint 0 (outer_pad_h (cfg self) / 2)))
        layer_header ["label"%string] ;;;
      offsets <- lift (dict_item name offsets_per_layer) ;;
      let p := padd p (mkPoint 0 (outer_pad_h (cfg self) + fst offsets)) in
      combos <- lift (dict_item name combos_per_layer) ;;
      print_layer p layer_keys combos combos_only ;;;
      offsets <- lift (dict_item name offsets_per_layer) ;;
      height <- lift (layout_height (layout self)) ;;
      let p := padd p (mkPoint 0 (height + snd offsets)) in
      write GroupClose ;;;
      print_layers p layers' combos_per_layer offsets_per_layer combos_only
  end.

(** [print_board]. [draw_layers] is a list of names or [None]; the
    condition [if draw_layers] holds for a list that is not empty. *)
Definition print_board (draw_layers : option (list string))
  (keys_only combos_only : bool) : M unit :=
  let layers := layers (keymap self) in
  layers <-
    match draw_layers with
    | Some ((_ :: _) as names) =>
        if forallb (fun l => has_key l layers) names
        then ret (filter (fun nl => in_names (fst nl) names) layers)
        else raise Layers (AssertionError
               "Some layer names selected for drawing are not in the keymap")
    | _ => ret layers
    end ;;
  let combos_per_layer :=
    if negb keys_only then get_combos_per_layer (keymap self) layers
    else map (fun nl => (fst nl, [])) layers in
  offsets_per_layer <- lift (map_exn layer_offsets combos_per_layer) ;;
  width <- lift (layout_width (layout self)) ;;
  let board_w := width + 2 * outer_pad_w (cfg self) in
  height <- lift (layout_height (layout self)) ;;
  let board_h :=
    INR (List.length layers) * height
    + (INR (List.length layers) + 1) * outer_pad_h (cfg self)
    + fold_left Rplus
        (map (fun o => fst (snd o) + snd (snd o)) offsets_per_layer) 0 in
  write (SvgOpen board_w board_h) ;;;
  write DefsOpen ;;;
  for_each (glyphs (cfg self)) (fun nb =>
    write (GlyphOpen (fst nb)) ;;;
    write (GlyphBlock (_scrub_dims self (snd nb))) ;;;
    write GlyphClose) ;;;
  write DefsClose ;;;
  write (Style (svg_style (cfg self))) ;;;
  print_layers (mkPoint (outer_pad_w (cfg self)) 0) layers combos_per_layer
    offsets_per_layer combos_only ;;;
  write SvgClose.

End Printer.

End Draw.

(** * Properties *)

(** ** The layout builder *)

Module LayoutProps.

Import Layout.
Local Open Scope R_scope.

(** A row of [n] keys from [x]: what [create_row] appends. *)
Definition row (n : nat) (x y : R) : list PhysicalKey :=
  create_row_loop n x y [].

Lemma create_row_loop_app (n : nat) :
  forall x y keys, create_row_loop n x y keys = keys ++ row n x y.
Proof.
  unfold row. induction n as [|n IH]; intros x y keys; simpl.
  - now rewrite app_nil_r.
  - rewrite (IH _ _ (keys ++ _)), (IH _ _ [_]), <- app_assoc. reflexivity.
Qed.

Lemma row_succ (n : nat) (x y : R) :
  row (S n) x y =
  PhysicalKey_at (x + IZR KEY_W / 2) (y + IZR KEY_H / 2)
  :: row n (x + IZR KEY_W) y.
Proof.
  unfold row at 1. simpl. now rewrite create_row_loop_app.
Qed.

Lemma row_length (n : nat) : forall x y, List.length (row n x y) = n.
Proof.
  induction n as [|n IH]; intros x y; [reflexivity|].
  rewrite row_succ. simpl. now rewrite IH.
Qed.

Lemma row_nth (n : nat) :
  forall x y i d, (i < n)%nat ->
  nth i (row n x y) d =
  PhysicalKey_at (x + INR i * IZR KEY_W + IZR KEY_W / 2)
                 (y + IZR KEY_H / 2).
Proof.
  induction n as [|n IH]; intros x y i d Hi; [lia|].
  rewrite row_succ. destruct i as [|i].
  - simpl. f_equal. lra.
  - cbn [nth]. rewrite IH by lia. f_equal. rewrite S_INR. lra.
Qed.

Lemma create_row_app (keys : list PhysicalKey) (x y : R) (n : Z) :
  create_row keys x y n = keys ++ row (Z.to_nat n) x y.
Proof. apply create_row_loop_app. Qed.

(** The main rows of a split layout: what [rows_loop] appends. *)
Fixpoint grid (n : nat) (ncols : Z) (x y : R) : list PhysicalKey :=
  match n with
  | O => []
  | S n' =>
      (row (Z.to_nat ncols) x y
       ++ row (Z.to_nat ncols) (x + IZR (ncols * KEY_W) + SPLIT_GAP) y)
      ++ grid n' ncols x (y + IZR KEY_H)
  end.

Lemma rows_loop_split (n : nat) (ncols : Z) :
  forall x y keys,
  rows_loop n true ncols x y keys = keys ++ grid n ncols x y.
Proof.
  induction n as [|n IH]; intros x y keys; simpl.
  - now rewrite app_nil_r.
  - rewrite IH, !create_row_app, <- !app_assoc. reflexivity.
Qed.

Lemma rows_loop_unsplit_length (n : nat) (ncols : Z) :
  forall x y keys,
  List.length (rows_loop n false ncols x y keys) =
  (List.length keys + n * Z.to_nat ncols)%nat.
Proof.
  induction n as [|n IH]; intros x y keys; simpl; [lia|].
  rewrite IH, create_row_app, length_app, row_length. lia.
Qed.

Lemma grid_length (n : nat) (ncols : Z) :
  forall x y, List.length (grid n ncols x y) = (n * (2 * Z.to_nat ncols))%nat.
Proof.
  induction n as [|n IH]; intros x y; simpl; [reflexivity|].
  rewrite !length_app, !row_length, IH. lia.
Qed.

Lemma grid_nth (n : nat) (ncols : Z) :
  forall x y r i d, (r < n)%nat -> (i < 2 * Z.to_nat ncols)%nat ->
  nth (r * (2 * Z.to_nat ncols) + i) (grid n ncols x y) d =
  nth i (row (Z.to_nat ncols) x (y + INR r * IZR KEY_H)
         ++ row (Z.to_nat ncols) (x + IZR (ncols * KEY_W) + SPLIT_GAP)
              (y + INR r * IZR KEY_H)) d.
Proof.
  induction n as [|n IH]; intros x y r i d Hr Hi; [lia|].
  cbn [grid]. destruct r as [|r].
  - rewrite app_nth1 by (rewrite length_app, !row_length; lia).
    simpl. replace (y + 0 * IZR KEY_H) with y by lra. reflexivity.
  - rewrite app_nth2 by (rewrite length_app, !row_length; lia).
    rewrite length_app, !row_length.
    replace (S r * (2 * Z.to_nat ncols) + i
             - (Z.to_nat ncols + Z.to_nat ncols))%nat
      with (r * (2 * Z.to_nat ncols) + i)%nat by lia.
    rewrite IH by lia. rewrite S_INR.
    replace (y + IZR KEY_H + INR r * IZR KEY_H)
      with (y + (INR r + 1) * IZR KEY_H) by lra.
    reflexivity.
Qed.

(** The keys of a split layout with thumb keys, once built. *)
Definition split_keys (nrows ncols nthumbs : Z) : list PhysicalKey :=
  grid (Z.to_nat nrows) ncols 0 0
  ++ row (Z.to_nat nthumbs) (IZR ((ncols - nthumbs) * KEY_W))
       (IZR (nrows * KEY_H))
  ++ row (Z.to_nat nthumbs) (IZR (ncols * KEY_W) + SPLIT_GAP)
       (IZR (nrows * KEY_H)).

Lemma create_ortho_layout_split (nrows ncols nthumbs : Z) :
  nthumbs <> 0%Z ->
  create_ortho_layout (mkOrthoArgs true nrows ncols (Some nthumbs)) =
  inr (mkOrthoArgs true nrows ncols (Some nthumbs),
       split_keys nrows ncols nthumbs).
Proof.
  intros Ht. unfold create_ortho_layout, split_keys. cbn [arg_thumbs arg_rows
    arg_columns arg_split].
  apply Z.eqb_neq in Ht. rewrite Ht.
  rewrite rows_loop_split, !create_row_app, <- app_assoc. reflexivity.
Qed.

Lemma new_OrthoLayout_split (nrows ncols nthumbs : Z) :
  nthumbs <> 0%Z -> (nthumbs <= ncols)%Z ->
  new_OrthoLayout (mkOrthoArgs true nrows ncols (Some nthumbs)) =
  inr (mkOrthoLayout (split_keys nrows ncols nthumbs) true nrows ncols
         nthumbs).
Proof.
  intros Ht Hc. unfold new_OrthoLayout.
  rewrite create_ortho_layout_split by assumption.
  unfold check_thumbs, validate_fields. cbn.
  apply Z.eqb_neq in Ht. rewrite Ht.
  apply Z.leb_le in Hc. rewrite Hc. reflexivity.
Qed.

Section SplitLayout.

Variables nrows ncols nthumbs : Z.
Hypothesis thumbs_pos : (0 < nthumbs)%Z.
Hypothesis thumbs_fit : (nthumbs <= ncols)%Z.

Let l : OrthoLayout :=
  mkOrthoLayout (split_keys nrows ncols nthumbs) true nrows ncols nthumbs.

Lemma split_keys_length :
  List.length (ortho_keys l) =
  (Z.to_nat nrows * (2 * Z.to_nat ncols) + 2 * Z.to_nat nthumbs)%nat.
Proof.
  cbn. unfold split_keys.
  rewrite !length_app, grid_length, !row_length. lia.
Qed.

Lemma left_thumb_at (i : nat) :
  (i < Z.to_nat nthumbs)%nat ->
  left_thumb l i =
  PhysicalKey_at
    (IZR ((ncols - nthumbs) * KEY_W) + INR i * IZR KEY_W + IZR KEY_W / 2)
    (IZR (nrows * KEY_H) + IZR KEY_H / 2).
Proof.
  intros Hi. unfold left_thumb, key_at, l. cbn [ortho_keys columns rows thumbs].
  unfold split_keys.
  rewrite app_nth2 by (rewrite grid_length; lia).
  rewrite grid_length.
  replace (_ - _)%nat with i by lia.
  rewrite app_nth1 by (rewrite row_length; lia).
  now apply row_nth.
Qed.

Lemma right_thumb_at (i : nat) :
  (i < Z.to_nat nthumbs)%nat ->
  right_thumb l i =
  PhysicalKey_at
    (IZR (ncols * KEY_W) + SPLIT_GAP + INR i * IZR KEY_W + IZR KEY_W / 2)
    (IZR (nrows * KEY_H) + IZR KEY_H / 2).
Proof.
  intros Hi. unfold right_thumb, key_at, l. cbn [ortho_keys columns rows thumbs].
  unfold split_keys.
  rewrite app_nth2 by (rewrite grid_length; lia).
  rewrite grid_length.
  rewrite app_nth2 by (rewrite row_length; lia).
  rewrite row_length.
  replace (_ - _ - _)%nat with i by lia.
  now apply row_nth.
Qed.

Lemma main_key_left (r c : nat) :
  (r < Z.to_nat nrows)%nat -> (c < Z.to_nat ncols)%nat ->
  main_key l r c =
  PhysicalKey_at (0 + INR c * IZR KEY_W + IZR KEY_W / 2)
    (0 + INR r * IZR KEY_H + IZR KEY_H / 2).
Proof.
  intros Hr Hc. unfold main_key, key_at, l. cbn [ortho_keys columns rows thumbs].
  unfold split_keys.
  rewrite app_nth1 by (rewrite grid_length; nia).
  rewrite grid_nth by lia.
  rewrite app_nth1 by (rewrite row_length; lia).
  now apply row_nth.
Qed.

Lemma main_key_right (r c : nat) :
  (r < Z.to_nat nrows)%nat -> (c < Z.to_nat ncols)%nat ->
  main_key l r (Z.to_nat ncols + c) =
  PhysicalKey_at
    (0 + IZR (ncols * KEY_W) + SPLIT_GAP + INR c * IZR KEY_W
     + IZR KEY_W / 2)
    (0 + INR r * IZR KEY_H + IZR KEY_H / 2).
Proof.
  intros Hr Hc. unfold main_key, key_at, l. cbn [ortho_keys columns rows thumbs].
  unfold split_keys.
  rewrite app_nth1 by (rewrite grid_length; nia).
  rewrite grid_nth by lia.
  rewrite app_nth2 by (rewrite row_length; lia).
  rewrite row_length.
  replace (_ - _)%nat with c by lia.
  now apply row_nth.
Qed.

End SplitLayout.

Lemma INR_to_nat (z : Z) : (0 <= z)%Z -> INR (Z.to_nat z) = IZR z.
Proof. intros Hz. now rewrite INR_IZR_INZ, Z2Nat.id. Qed.

(** C2 (amended). For every split grid layout with 0 < thumbs <= columns
    the construction succeeds, and the builder appends after the main keys
    one extra row of exactly [thumbs] keys per half, the keys of a row one
    key width apart. Both rows are anchored to the inner edge of their
    half: the left thumb row ends at the right edge of the left column
    block, and the right thumb row starts at the left edge of the right
    column block (it does not end at that block's right edge). Both rows
    lie one key height below the last main row. *)
Theorem thumb_rows_anchored (nrows ncols nthumbs : Z) :
  (0 < nthumbs)%Z -> (nthumbs <= ncols)%Z ->
  exists l : OrthoLayout,
    new_OrthoLayout (mkOrthoArgs true nrows ncols (Some nthumbs)) = inr l /\
    let t := Z.to_nat nthumbs in
    let c := Z.to_nat ncols in
    let r := Z.to_nat nrows in
    List.length (ortho_keys l) = (r * (2 * c) + 2 * t)%nat /\
    (forall i, (S i < t)%nat ->
       x_pos (left_thumb l (S i)) = x_pos (left_thumb l i) + IZR KEY_W /\
       x_pos (right_thumb l (S i)) = x_pos (right_thumb l i) + IZR KEY_W) /\
    (forall i, (i < t)%nat ->
       width (left_thumb l i) = IZR KEY_W /\
       width (right_thumb l i) = IZR KEY_W /\
       y_pos (left_thumb l i) = IZR nrows * IZR KEY_H + IZR KEY_H / 2 /\
       y_pos (right_thumb l i) = IZR nrows * IZR KEY_H + IZR KEY_H / 2) /\
    right_edge (left_thumb l (t - 1)) = IZR ncols * IZR KEY_W /\
    left_edge (right_thumb l 0) = IZR ncols * IZR KEY_W + SPLIT_GAP /\
    (forall row, (row < r)%nat ->
       right_edge (main_key l row (c - 1)) = IZR ncols * IZR KEY_W /\
       left_edge (main_key l row c) = IZR ncols * IZR KEY_W + SPLIT_GAP) /\
    (forall i col, (i < t)%nat -> (col < 2 * c)%nat -> (1 <= nrows)%Z ->
       y_pos (left_thumb l i) = y_pos (main_key l (r - 1) col) + IZR KEY_H /\
       y_pos (right_thumb l i) = y_pos (main_key l (r - 1) col) + IZR KEY_H).
Proof.
  intros Hpos Hfit.
  eexists. split; [apply new_OrthoLayout_split; lia|].
  cbv zeta.
  assert (Ht : INR (Z.to_nat nthumbs - 1) = IZR nthumbs - 1).
  { rewrite minus_INR by lia. rewrite INR_to_nat by lia. simpl. lra. }
  assert (Hc : INR (Z.to_nat ncols - 1) = IZR ncols - 1).
  { rewrite minus_INR by lia. rewrite INR_to_nat by lia. simpl. lra. }
  split; [apply split_keys_length|].
  split.
  { intros i Hi. rewrite !left_thumb_at, !right_thumb_at by lia.
    cbn [x_pos PhysicalKey_at]. rewrite S_INR. split; lra. }
  split.
  { intros i Hi. rewrite !left_thumb_at, !right_thumb_at by lia.
    cbn [width y_pos PhysicalKey_at]. rewrite mult_IZR.
    repeat split; lra. }
  split.
  { rewrite left_thumb_at by lia. unfold right_edge.
    cbn [width x_pos PhysicalKey_at].
    rewrite Ht, mult_IZR, minus_IZR. lra. }
  split.
  { rewrite right_thumb_at by lia. unfold left_edge.
    cbn [width x_pos PhysicalKey_at]. rewrite mult_IZR. simpl. lra. }
  split.
  { intros row Hrow. split.
    - rewrite main_key_left by lia. unfold right_edge.
      cbn [width x_pos PhysicalKey_at]. rewrite Hc. lra.
    - match goal with
      | |- context [main_key ?l row _] =>
          replace (main_key l row (Z.to_nat ncols))
            with (main_key l row (Z.to_nat ncols + 0)) by (f_equal; lia)
      end.
      rewrite main_key_right by lia. unfold left_edge.
      cbn [width x_pos PhysicalKey_at]. rewrite mult_IZR. simpl. lra. }
  intros i col Hi Hcol Hrows.
  assert (Hr : INR (Z.to_nat nrows - 1) = IZR nrows - 1).
  { rewrite minus_INR by lia. rewrite INR_to_nat by lia. simpl. lra. }
  rewrite left_thumb_at, right_thumb_at by lia.
  destruct (lt_dec col (Z.to_nat ncols)) as [Hlt|Hge].
  - rewrite main_key_left by lia.
    cbn [y_pos PhysicalKey_at]. rewrite Hr, mult_IZR. split; lra.
  - replace col with (Z.to_nat ncols + (col - Z.to_nat ncols))%nat by lia.
    rewrite main_key_right by lia.
    cbn [y_pos PhysicalKey_at]. rewrite Hr, mult_IZR. split; lra.
Qed.

(** A layout with one row, three columns and two thumb keys per half. *)
Lemma thumb_rows_anchored_witness :
  exists l : OrthoLayout,
    new_OrthoLayout (mkOrthoArgs true 1 3 (Some 2%Z)) = inr l /\
    List.length (ortho_keys l) = 10%nat /\
    right_edge (left_thumb l 1) = 3 * IZR KEY_W /\
    left_edge (right_thumb l 0) = 3 * IZR KEY_W + SPLIT_GAP.
Proof.
  destruct (@thumb_rows_anchored 1 3 2 ltac:(lia) ltac:(lia))
    as [l [Hl [Hlen [_ [_ [Hleft [Hright _]]]]]]].
  exists l. repeat split; assumption.
Defined.

(** C2, as stated, fails: in a layout with one row, three columns and one
    thumb key per half, the right thumb row does not end at the right edge
    of the right column block (the right edge of the last key of the
    row). *)
Lemma thumb_rows_counterexample :
  exists l : OrthoLayout,
    new_OrthoLayout (mkOrthoArgs true 1 3 (Some 1%Z)) = inr l /\
    right_edge (right_thumb l 0) = 265.5 /\
    right_edge (main_key l 0 5) = 383.5 /\
    right_edge (right_thumb l 0) <> right_edge (main_key l 0 5).
Proof.
  eexists. split; [apply new_OrthoLayout_split; lia|].
  assert (H1 : right_edge (right_thumb
             (mkOrthoLayout (split_keys 1 3 1) true 1 3 1) 0) = 265.5).
  { rewrite right_thumb_at by (simpl; lia). unfold right_edge.
    cbn [width x_pos PhysicalKey_at]. unfold SPLIT_GAP, KEY_W. simpl. lra. }
  assert (H2 : right_edge (main_key
             (mkOrthoLayout (split_keys 1 3 1) true 1 3 1) 0 5) = 383.5).
  { change 5%nat with (Z.to_nat 3 + 2)%nat.
    rewrite main_key_right by (simpl; lia). unfold right_edge.
    cbn [width x_pos PhysicalKey_at]. unfold SPLIT_GAP, KEY_W. simpl. lra. }
  repeat split; [exact H1 | exact H2 |]. rewrite H1, H2. lra.
Qed.

(** The number of keys the builder has generated when it returns. *)
Lemma create_ortho_layout_length (split : bool) (nrows ncols nthumbs : Z) :
  exists keys,
    create_ortho_layout (mkOrthoArgs split nrows ncols (Some nthumbs)) =
    inr (mkOrthoArgs split nrows ncols (Some nthumbs), keys) /\
    List.length keys =
    (Z.to_nat nrows * Z.to_nat ncols * (if split then 2 else 1)
     + 2 * Z.to_nat nthumbs)%nat.
Proof.
  unfold create_ortho_layout.
  cbn [arg_thumbs arg_rows arg_columns arg_split].
  eexists. split; [reflexivity|].
  assert (Hrows :
    List.length (rows_loop (Z.to_nat nrows) split ncols 0 0 []) =
    (Z.to_nat nrows * Z.to_nat ncols * (if split then 2 else 1))%nat).
  { destruct split.
    - rewrite rows_loop_split. cbn [app]. rewrite grid_length. lia.
    - rewrite rows_loop_unsplit_length. cbn [List.length]. lia. }
  destruct (Z.eqb_spec nthumbs 0) as [->|_].
  - rewrite Hrows. cbn. lia.
  - rewrite !create_row_app, !length_app, !row_length, Hrows. lia.
Qed.

(** C3. The validation of a grid layout, for counts that are not
    negative. The builder of the keys is a validator that runs before
    the check of the thumbs (setting it to be skipped on failure changes
    nothing for a validator that runs first): it has generated all the
    keys when the check runs. With [thumbs] passed, the check then fails
    with a configuration error exactly when the rule of the
    specification is broken (thumbs > columns, or thumbs > 0 without
    split), after the keys were generated, at least the thumb keys; when
    the rule holds the construction succeeds with these keys and keeps
    the parameters. With [thumbs] left out, whose default is 0 and
    satisfies the rule, the construction raises a key error. *)
Theorem ortho_validation (split : bool) (nrows ncols nthumbs : Z) :
  (0 <= nrows)%Z -> (0 <= ncols)%Z -> (0 <= nthumbs)%Z ->
  let kwargs := mkOrthoArgs split nrows ncols (Some nthumbs) in
  (exists keys,
     create_ortho_layout kwargs = inr (kwargs, keys) /\
     List.length keys =
     (Z.to_nat nrows * Z.to_nat ncols * (if split then 2 else 1)
      + 2 * Z.to_nat nthumbs)%nat /\
     if spec_validation_rule split ncols nthumbs
     then new_OrthoLayout kwargs =
          inr (mkOrthoLayout keys split nrows ncols nthumbs)
     else keys <> [] /\
          exists msg,
            check_thumbs (validate_fields (kwargs, keys)) =
            inl (AssertionError msg) /\
            new_OrthoLayout kwargs = inl (ValidationError msg)) /\
  (spec_validation_rule split ncols 0 = true /\
   new_OrthoLayout (mkOrthoArgs split nrows ncols None) =
   inl (KeyError "thumbs")).
Proof.
  intros Hrows Hcols Hthumbs. cbv zeta. split; [|split; reflexivity].
  destruct (create_ortho_layout_length split nrows ncols nthumbs)
    as [keys [Hbuilt Hlen]].
  exists keys. split; [exact Hbuilt|]. split; [exact Hlen|].
  unfold new_OrthoLayout. rewrite Hbuilt.
  unfold spec_validation_rule, check_thumbs.
  cbn [validate_fields arg_thumbs arg_rows arg_columns arg_split thumbs
       columns Layout.split].
  destruct (Z.eqb_spec nthumbs 0) as [Hz|Hz].
  - subst nthumbs. reflexivity.
  - destruct (Z.ltb_spec 0 nthumbs) as [Hpos|Hneg]; [|lia].
    assert (Hkeys : keys <> []).
    { intros ->. cbn [List.length] in Hlen. lia. }
    destruct (Z.leb_spec nthumbs ncols) as [Hle|Hgt]; cbn [negb].
    + destruct split; cbn [negb andb validation_failure]; [reflexivity|].
      split; [exact Hkeys|]. eexists. split; reflexivity.
    + rewrite andb_false_r. cbn [validation_failure].
      split; [exact Hkeys|]. eexists. split; reflexivity.
Qed.

(** A split layout of one row and three columns with four thumb keys:
    the fourteen keys are generated, then the check of the thumbs fails;
    and the same layout with the thumbs left out. *)
Lemma ortho_validation_witness :
  (exists keys,
     create_ortho_layout (mkOrthoArgs true 1 3 (Some 4%Z)) =
     inr (mkOrthoArgs true 1 3 (Some 4%Z), keys) /\
     List.length keys = 14%nat /\
     keys <> [] /\
     exists msg,
       check_thumbs (validate_fields (mkOrthoArgs true 1 3 (Some 4%Z), keys))
       = inl (AssertionError msg) /\
       new_OrthoLayout (mkOrthoArgs true 1 3 (Some 4%Z)) =
       inl (ValidationError msg)) /\
  (spec_validation_rule true 3 0 = true /\
   new_OrthoLayout (mkOrthoArgs true 1 3 None) = inl (KeyError "thumbs")).
Proof.
  apply (@ortho_validation true 1 3 4); lia.
Defined.

(** Outside these counts the check and the rule of the specification
    part: the check tests that [thumbs] is not zero, the rule that it is
    positive. With thumbs = -1 and no split the rule holds and the
    construction fails; with thumbs = 0 and columns = -1 thumbs is
    greater than columns and the construction succeeds. *)
Lemma negative_counts :
  (spec_validation_rule false 3 (-1) = true /\
   new_OrthoLayout (mkOrthoArgs false 1 3 (Some (-1)%Z)) =
   inl (ValidationError
          "Cannot process non-split keyboard with thumb keys")) /\
  ((-1 < 0)%Z /\
   exists l, new_OrthoLayout (mkOrthoArgs true 1 (-1) (Some 0%Z)) = inr l).
Proof.
  split; [split; reflexivity|].
  split; [lia | eexists; reflexivity].
Qed.

End LayoutProps.

(** ** The text splitter and the glyph references *)

Module TextProps.

Import Text.
Local Open Scope string_scope.

Lemma prefix_cons (a b : ascii) (s1 s2 : string) :
  prefix (String a s1) (String b s2) = (Ascii.eqb a b && prefix s1 s2)%bool.
Proof.
  simpl. destruct (ascii_dec a b) as [->|Hab].
  - now rewrite Ascii.eqb_refl.
  - apply Ascii.eqb_neq in Hab. now rewrite Hab.
Qed.

Lemma prefix_empty (s : string) : prefix "" s = true.
Proof. now destruct s. Qed.

Lemma append_empty_r (s : string) : s ++ "" = s.
Proof. induction s as [|c s IH]; simpl; [reflexivity | now rewrite IH]. Qed.

Lemma append_assoc (s t u : string) : (s ++ t) ++ u = s ++ (t ++ u).
Proof. induction s as [|c s IH]; simpl; [reflexivity | now rewrite IH]. Qed.

Lemma string_map_app (f : ascii -> ascii) (s t : string) :
  string_map f (s ++ t) = string_map f s ++ string_map f t.
Proof. induction s as [|c s IH]; simpl; [reflexivity | now rewrite IH]. Qed.

Lemma string_filter_app (p : ascii -> bool) (s t : string) :
  string_filter p (s ++ t) = string_filter p s ++ string_filter p t.
Proof.
  induction s as [|c s IH]; simpl; [reflexivity|].
  destruct (p c); simpl; now rewrite IH.
Qed.

Lemma count_char_app (a : ascii) (s t : string) :
  count_char a (s ++ t) = (count_char a s + count_char a t)%nat.
Proof.
  induction s as [|c s IH]; simpl; [reflexivity|].
  destruct (Ascii.eqb c a); simpl; now rewrite IH.
Qed.

(** Replacing the one-character string NUL by a space maps every
    character. *)
Lemma replace_nul_map (s : string) :
  str_replace (String NUL "") " " s = string_map nul_to_space s.
Proof.
  unfold str_replace. induction s as [|c s IH]; [reflexivity|].
  cbn [replace_from string_map]. rewrite prefix_cons, prefix_empty.
  rewrite andb_true_r. unfold nul_to_space at 1.
  rewrite (Ascii.eqb_sym NUL c).
  destruct (Ascii.eqb c NUL); cbn [length Nat.sub]; rewrite IH; reflexivity.
Qed.

Lemma split_text_unfold (text : string) :
  _split_text text =
  map (string_map nul_to_space) (str_split (str_replace "  " (String NUL "") text)).
Proof.
  unfold _split_text. apply map_ext. exact replace_nul_map.
Qed.

(** What [str.split] returns, put together again, is the text without its
    white space. *)
Lemma join_split_from (s : string) :
  forall word, join_tokens (split_from word s) = word ++ visible s.
Proof.
  induction s as [|c s IH]; intros word.
  - simpl. destruct word; simpl; [reflexivity|].
    now rewrite !append_empty_r.
  - cbn [split_from visible string_filter].
    destruct (isspace c); cbn [negb].
    + destruct (is_empty word) eqn:Hw.
      * destruct word; [|discriminate]. apply IH.
      * cbn [join_tokens fold_right]. f_equal. apply (IH "").
    + rewrite IH, append_assoc. reflexivity.
Qed.

Lemma join_map (f : ascii -> ascii) (l : list string) :
  join_tokens (map (string_map f) l) = string_map f (join_tokens l).
Proof.
  induction l as [|w l IH]; [reflexivity|].
  cbn [map join_tokens fold_right]. rewrite string_map_app. f_equal.
  exact IH.
Qed.

Lemma join_split_text (text : string) :
  join_tokens (_split_text text) =
  string_map nul_to_space
    (visible (str_replace "  " (String NUL "") text)).
Proof.
  rewrite split_text_unfold, join_map. f_equal.
  apply (join_split_from _ "").
Qed.

(** *** The sentinel *)

(** The first replacement of [_split_text], with [skip] characters of an
    occurrence still to drop. *)
Definition sentinel_from (skip : nat) (s : string) : string :=
  replace_from "  " (String NUL "") skip s.

Definition tail (s : string) : string :=
  match s with
  | EmptyString => EmptyString
  | String _ s' => s'
  end.

Lemma sentinel_from_skip (c : ascii) (s : string) (k : nat) :
  sentinel_from (S k) (String c s) = sentinel_from k s.
Proof. reflexivity. Qed.

Lemma sentinel_from_cons (c : ascii) (s : string) :
  sentinel_from 0 (String c s) =
  if prefix "  " (String c s)
  then String NUL (sentinel_from 1 s)
  else String c (sentinel_from 0 s).
Proof. reflexivity. Qed.

Lemma prefix_spaces (c : ascii) (s : string) :
  prefix "  " (String c s) = true ->
  c = SPACE /\ exists s', s = String SPACE s'.
Proof.
  destruct s as [|d s'].
  - rewrite prefix_cons. simpl. rewrite andb_false_r. discriminate.
  - rewrite !prefix_cons, prefix_empty, andb_true_r.
    intros H. apply andb_true_iff in H as [Hc Hd].
    apply Ascii.eqb_eq in Hc, Hd. subst. split; [reflexivity|].
    now exists s'.
Qed.

Lemma prefix_not_space (c : ascii) (s : string) :
  c <> SPACE -> prefix "  " (String c s) = false.
Proof.
  intros Hc. rewrite prefix_cons.
  destruct (Ascii.eqb_spec " " c) as [E|_]; [|reflexivity].
  now elim Hc.
Qed.

(** A predicate that rejects the space and NUL does not see the
    sentinel. *)
Lemma filter_sentinel (p : ascii -> bool) :
  p NUL = false -> p SPACE = false ->
  forall s,
    string_filter p (sentinel_from 0 s) = string_filter p s /\
    string_filter p (sentinel_from 1 s) = string_filter p (tail s).
Proof.
  intros Hnul Hsp. induction s as [|c s [IH0 IH1]]; [split; reflexivity|].
  split.
  - rewrite sentinel_from_cons.
    destruct (prefix "  " (String c s)) eqn:Hp.
    + apply prefix_spaces in Hp as [-> [s' ->]].
      cbn [string_filter]. rewrite Hnul, Hsp, IH1. reflexivity.
    + cbn [string_filter]. rewrite IH0. reflexivity.
  - rewrite sentinel_from_skip. exact IH0.
Qed.

Lemma count_nul_sentinel (s : string) :
  (count_char NUL s <= count_char NUL (sentinel_from 0 s))%nat /\
  (count_char NUL (tail s) <= count_char NUL (sentinel_from 1 s))%nat.
Proof.
  induction s as [|c s [IH0 IH1]]; [split; reflexivity|].
  split.
  - rewrite sentinel_from_cons.
    destruct (prefix "  " (String c s)) eqn:Hp.
    + apply prefix_spaces in Hp as [-> [s' ->]].
      cbn [count_char tail] in *.
      change (Ascii.eqb SPACE NUL) with false. cbn iota.
      rewrite Ascii.eqb_refl. lia.
    + cbn [count_char]. destruct (Ascii.eqb c NUL); lia.
  - rewrite sentinel_from_skip. exact IH0.
Qed.

Lemma count_nul_map (s : string) :
  count_char NUL (string_map nul_to_space s) = 0%nat.
Proof.
  induction s as [|c s IH]; [reflexivity|].
  cbn [string_map count_char]. unfold nul_to_space at 1.
  destruct (Ascii.eqb c NUL) eqn:Hc; [exact IH | now rewrite Hc].
Qed.

Lemma count_space_map (s : string) :
  (count_char NUL s <= count_char SPACE (string_map nul_to_space s))%nat.
Proof.
  induction s as [|c s IH]; [reflexivity|].
  cbn [string_map count_char]. unfold nul_to_space at 1.
  destruct (Ascii.eqb c NUL) eqn:Hc.
  - rewrite Ascii.eqb_refl. lia.
  - destruct (Ascii.eqb c SPACE); lia.
Qed.

Lemma count_nul_visible (s : string) :
  count_char NUL (visible s) = count_char NUL s.
Proof.
  unfold visible. induction s as [|c s IH]; [reflexivity|].
  cbn [string_filter count_char].
  destruct (isspace c) eqn:Hs; cbn [negb count_char].
  - destruct (Ascii.eqb_spec c NUL) as [->|_]; [discriminate Hs | exact IH].
  - destruct (Ascii.eqb c NUL); now rewrite IH.
Qed.

Lemma visible_map_visible (s : string) :
  visible (string_map nul_to_space (visible s)) = string_filter plain s.
Proof.
  unfold visible, plain. induction s as [|c s IH]; [reflexivity|].
  cbn [string_filter]. destruct (isspace c) eqn:Hs; cbn [negb andb].
  - exact IH.
  - cbn [string_map string_filter].
    destruct (Ascii.eqb c NUL) eqn:Hc; cbn [negb].
    + replace (nul_to_space c) with SPACE
        by (unfold nul_to_space; now rewrite Hc).
      change (isspace SPACE) with true. cbn [negb]. exact IH.
    + replace (nul_to_space c) with c
        by (unfold nul_to_space; now rewrite Hc).
      rewrite Hs. cbn [negb]. now rewrite IH.
Qed.

Lemma plain_length (s : string) :
  (length (string_filter plain s) + count_char NUL s = length (visible s))%nat.
Proof.
  unfold visible, plain. induction s as [|c s IH]; [reflexivity|].
  cbn [string_filter count_char].
  destruct (isspace c) eqn:Hs; cbn [negb andb].
  - destruct (Ascii.eqb_spec c NUL) as [->|_]; [discriminate Hs | exact IH].
  - destruct (Ascii.eqb c NUL); cbn [negb length]; lia.
Qed.

Lemma plain_visible (s : string) :
  count_char NUL s = 0%nat -> string_filter plain s = visible s.
Proof.
  unfold visible, plain. induction s as [|c s IH]; [reflexivity|].
  cbn [string_filter count_char].
  destruct (Ascii.eqb c NUL); [discriminate|].
  intros H. rewrite andb_true_r. destruct (isspace c); cbn [negb];
    now rewrite IH.
Qed.

(** C10. Whatever the text, no token that [_split_text] returns holds a
    NUL; every NUL of the text has become a space of the tokens (the
    tokens hold at least as many spaces as the text holds NULs); the
    characters of the tokens other than the spaces are those of the text
    that are neither white space nor NUL; so the tokens keep the visible
    characters of the text exactly when the text is free of NUL. *)
Theorem split_text_rewrites_nul (text : string) :
  (forall w, In w (_split_text text) -> count_char NUL w = 0%nat) /\
  (count_char NUL text
   <= count_char SPACE (join_tokens (_split_text text)))%nat /\
  visible (join_tokens (_split_text text)) = string_filter plain text /\
  (visible (join_tokens (_split_text text)) = visible text <->
   count_char NUL text = 0%nat).
Proof.
  assert (Hvis : visible (join_tokens (_split_text text))
                 = string_filter plain text).
  { rewrite join_split_text, visible_map_visible.
    apply (filter_sentinel plain); reflexivity. }
  split.
  { intros w Hw. rewrite split_text_unfold in Hw.
    apply in_map_iff in Hw as [w' [<- _]]. apply count_nul_map. }
  split.
  { rewrite join_split_text.
    eapply Nat.le_trans; [|apply count_space_map].
    rewrite count_nul_visible. apply count_nul_sentinel. }
  split; [exact Hvis|].
  rewrite Hvis. split.
  - intros H. pose proof (plain_length text) as Hlen.
    rewrite H in Hlen. lia.
  - apply plain_visible.
Qed.

(** A NUL between two letters comes back as a space inside one token. *)
Example split_text_nul :
  _split_text (String "a" (String NUL "b")) = ["a b"].
Proof. reflexivity. Qed.

(** *** Words *)

Lemma plain_not_space (c : ascii) : plain c = true -> c <> SPACE.
Proof. intros H ->. discriminate H. Qed.

Lemma plain_isspace (c : ascii) : plain c = true -> isspace c = false.
Proof.
  unfold plain. intros H. apply andb_true_iff in H as [H _].
  now apply negb_true_iff in H.
Qed.

Lemma plain_not_nul (c : ascii) : plain c = true -> Ascii.eqb c NUL = false.
Proof.
  unfold plain. intros H. apply andb_true_iff in H as [_ H].
  now apply negb_true_iff in H.
Qed.

Lemma sentinel_word (u rest : string) :
  string_forall plain u = true ->
  sentinel_from 0 (u ++ rest) = u ++ sentinel_from 0 rest.
Proof.
  induction u as [|c u IH]; intros Hu; [reflexivity|].
  cbn [string_forall] in Hu. apply andb_true_iff in Hu as [Hc Hu].
  cbn [append]. rewrite sentinel_from_cons.
  rewrite prefix_not_space by now apply plain_not_space.
  now rewrite IH.
Qed.

Lemma split_word (u rest : string) :
  string_forall plain u = true ->
  forall word, split_from word (u ++ rest) = split_from (word ++ u) rest.
Proof.
  induction u as [|c u IH]; intros Hu word.
  - now rewrite append_empty_r.
  - cbn [string_forall] in Hu. apply andb_true_iff in Hu as [Hc Hu].
    cbn [append split_from]. rewrite (@plain_isspace c Hc).
    rewrite IH by assumption. rewrite append_assoc. reflexivity.
Qed.

Lemma map_word (u : string) :
  string_forall plain u = true -> string_map nul_to_space u = u.
Proof.
  induction u as [|c u IH]; intros Hu; [reflexivity|].
  cbn [string_forall] in Hu. apply andb_true_iff in Hu as [Hc Hu].
  cbn [string_map]. unfold nul_to_space at 1.
  rewrite (@plain_not_nul c Hc). now rewrite IH.
Qed.

Lemma is_empty_app_cons (u v : string) (c : ascii) :
  is_empty ((u ++ String c "") ++ v) = false.
Proof. now destruct u. Qed.

Lemma sentinel_double (s : string) :
  sentinel_from 0 (String SPACE (String SPACE s)) =
  String NUL (sentinel_from 0 s).
Proof.
  rewrite sentinel_from_cons, !prefix_cons, prefix_empty. unfold SPACE.
  rewrite Ascii.eqb_refl. reflexivity.
Qed.

Lemma sentinel_single (c : ascii) (s : string) :
  c <> SPACE ->
  sentinel_from 0 (String SPACE (String c s)) =
  String SPACE (sentinel_from 0 (String c s)).
Proof.
  intros Hc. rewrite sentinel_from_cons at 1.
  replace (prefix "  " (String SPACE (String c s))) with false;
    [reflexivity|].
  rewrite !prefix_cons. unfold SPACE. rewrite Ascii.eqb_refl.
  destruct (Ascii.eqb_spec " " c) as [E|_]; [now elim Hc | reflexivity].
Qed.

(** C7. A double space stays as one space inside a token and a single
    space ends the token: for words [u], [v] and [w] (no white space, no
    NUL; [w] not empty), the text made of [u], two spaces, [v], one space
    and [w] is split in exactly two tokens, [u] space [v], and [w]. *)
Theorem split_text_double_space (u v w : string) :
  string_forall plain u = true ->
  string_forall plain v = true ->
  string_forall plain w = true ->
  w <> "" ->
  _split_text (u ++ "  " ++ v ++ " " ++ w) = [u ++ " " ++ v; w].
Proof.
  intros Hu Hv Hw Hne.
  assert (Hw0 : sentinel_from 0 w = w).
  { rewrite <- (append_empty_r w) at 1.
    rewrite sentinel_word by assumption. apply append_empty_r. }
  assert (Hsent : str_replace "  " (String NUL "") (u ++ "  " ++ v ++ " " ++ w)
                  = u ++ String NUL (v ++ String SPACE w)).
  { change (str_replace "  " (String NUL "")) with (sentinel_from 0).
    rewrite sentinel_word by assumption. f_equal.
    change ("  " ++ v ++ " " ++ w)
      with (String SPACE (String SPACE (v ++ String SPACE w))).
    rewrite sentinel_double. f_equal.
    rewrite sentinel_word by assumption. f_equal.
    destruct w as [|c w]; [now elim Hne|].
    cbn [string_forall] in Hw. apply andb_true_iff in Hw as [Hc _].
    rewrite sentinel_single by (now apply plain_not_space).
    now rewrite Hw0. }
  rewrite split_text_unfold, Hsent. unfold str_split.
  rewrite split_word by assumption.
  cbn [split_from append]. change (isspace NUL) with false. cbn iota.
  rewrite split_word by assumption.
  cbn [split_from]. change (isspace SPACE) with true. cbn iota.
  rewrite is_empty_app_cons.
  rewrite <- (append_empty_r w) at 1.
  rewrite split_word by assumption.
  cbn [split_from append]. destruct w as [|c w]; [now elim Hne|].
  cbn [is_empty map]. rewrite (@map_word _ Hw), !string_map_app.
  rewrite (@map_word _ Hu), (@map_word _ Hv).
  cbn [string_map]. rewrite append_assoc. reflexivity.
Qed.

(** The string of the specification: foo, two spaces, bar, one space,
    baz. *)
Lemma split_text_double_space_witness :
  _split_text "foo  bar baz" = ["foo bar"; "baz"].
Proof.
  apply (@split_text_double_space "foo" "bar" "baz");
    [reflexivity | reflexivity | reflexivity | discriminate].
Defined.

(** *** Glyph references *)

Lemma glyph_group_name (name : string) :
  string_forall (fun c => negb (Ascii.eqb c NEWLINE)) name = true ->
  glyph_group (name ++ "$$") = Some name.
Proof.
  intros Hname. induction name as [|c name IH]; [reflexivity|].
  cbn [string_forall] in Hname. apply andb_true_iff in Hname as [Hc Hname].
  apply negb_true_iff in Hc.
  cbn [append glyph_group]. rewrite Hc, IH by assumption. reflexivity.
Qed.

(** A token made of a name between two pairs of dollars is a reference to
    the glyph of that name. *)
Lemma is_glyph_reference (name : string) :
  string_forall (fun c => negb (Ascii.eqb c NEWLINE)) name = true ->
  _is_glyph ["$$" ++ name ++ "$$"] = Some name.
Proof.
  intros Hname. cbn [_is_glyph append glyph_name_search].
  now rewrite glyph_group_name by assumption.
Qed.

(** A legend of several tokens is never a glyph reference. *)
Lemma is_glyph_several (w1 w2 : string) (ws : list string) :
  _is_glyph (w1 :: w2 :: ws) = None.
Proof. reflexivity. Qed.

End TextProps.

(** ** The drawing engine *)

Module DrawProps.

Import Layout Text Draw.
Local Open Scope R_scope.

(** *** Comparisons *)

Lemma Rltb_true (a b : R) : a < b -> Rltb a b = true.
Proof. intros H. unfold Rltb. now destruct (Rlt_dec a b). Qed.

Lemma Rltb_false (a b : R) : b <= a -> Rltb a b = false.
Proof. intros H. unfold Rltb. destruct (Rlt_dec a b); [lra | reflexivity]. Qed.

Lemma Rleb_true (a b : R) : a <= b -> Rleb a b = true.
Proof. intros H. unfold Rleb. now destruct (Rle_dec a b). Qed.

Lemma Rleb_false (a b : R) : b < a -> Rleb a b = false.
Proof. intros H. unfold Rleb. destruct (Rle_dec a b); [lra | reflexivity]. Qed.

Lemma Reqb_true (a b : R) : a = b -> Reqb a b = true.
Proof. intros H. unfold Reqb. now destruct (Req_dec_T a b). Qed.

Lemma Reqb_false (a b : R) : a <> b -> Reqb a b = false.
Proof. intros H. unfold Reqb. now destruct (Req_dec_T a b). Qed.

Lemma Rleb_iff (a b : R) : Rleb a b = true <-> a <= b.
Proof.
  unfold Rleb. destruct (Rle_dec a b); split; intros; assumption || lra
    || discriminate || reflexivity.
Qed.

(** *** Points *)

Lemma point_eq (p q : Point) :
  pt_x p = pt_x q -> pt_y p = pt_y q -> p = q.
Proof. destruct p, q. simpl. now intros -> ->. Qed.

Lemma pabs_nonneg (p : Point) : 0 <= pabs p.
Proof. apply sqrt_pos. Qed.

Lemma pabs_scale (a : R) (p : Point) : pabs (pscale a p) = Rabs a * pabs p.
Proof.
  unfold pabs, pscale. cbn [pt_x pt_y].
  replace (a * pt_x p * (a * pt_x p) + a * pt_y p * (a * pt_y p))
    with (Rsqr a * (pt_x p * pt_x p + pt_y p * pt_y p))
    by (unfold Rsqr; ring).
  rewrite sqrt_mult; [|apply Rle_0_sqr|nra].
  now rewrite sqrt_Rsqr_abs.
Qed.

Lemma pabs_horizontal (a : R) : pabs (mkPoint a 0) = Rabs a.
Proof.
  unfold pabs. cbn [pt_x pt_y].
  replace (a * a + 0 * 0) with (Rsqr a) by (unfold Rsqr; ring).
  apply sqrt_Rsqr_abs.
Qed.

(** C8. A straight connector from [p_1] to [p_2] with a shortening
    distance: when the distance is at least the length of the segment the
    path is the whole segment; when it lies strictly between zero and the
    length, the path keeps the direction of the segment and its end is
    pulled back from [p_2] by exactly the distance. *)
Theorem line_dendron_shortening (p_1 p_2 : Point) (shorten : R) :
  let length := pabs (psub p_2 p_1) in
  (length <= shorten ->
   _draw_line_dendron p_1 p_2 shorten =
   (inr tt, [LinePath p_1 (psub p_2 p_1)])) /\
  (0 < shorten < length ->
   exists line : Point,
     _draw_line_dendron p_1 p_2 shorten = (inr tt, [LinePath p_1 line]) /\
     line = pscale (1 - shorten / length) (psub p_2 p_1) /\
     0 < 1 - shorten / length < 1 /\
     pabs line = length - shorten /\
     pabs (psub p_2 (padd p_1 line)) = shorten).
Proof.
  cbv zeta. set (length := pabs (psub p_2 p_1)). split.
  - intros Hlen. unfold _draw_line_dendron. fold length.
    rewrite (Rltb_false Hlen), andb_false_r. reflexivity.
  - intros [Hpos Hlt].
    assert (Hratio : 0 < shorten / length < 1).
    { split.
      - apply Rdiv_lt_0_compat; lra.
      - apply (Rmult_lt_reg_r length); [lra|].
        unfold Rdiv. rewrite Rmult_assoc, Rinv_l by lra. lra. }
    exists (pscale (1 - shorten / length) (psub p_2 p_1)).
    split.
    { unfold _draw_line_dendron. fold length.
      rewrite Reqb_false by lra. rewrite (Rltb_true Hlt).
      cbn [negb andb]. rewrite Reqb_false by lra. reflexivity. }
    split; [reflexivity|]. split; [lra|]. split.
    + rewrite pabs_scale. fold length. rewrite Rabs_pos_eq by lra.
      field. lra.
    + replace (psub p_2 (padd p_1 (pscale (1 - shorten / length)
                                      (psub p_2 p_1))))
        with (pscale (shorten / length) (psub p_2 p_1)).
      * rewrite pabs_scale. fold length. rewrite Rabs_pos_eq by lra.
        field. lra.
      * apply point_eq; cbn [pt_x pt_y pscale psub padd]; ring.
Qed.

(** *** The monad *)

Lemma bind_raise (A B : Type) (e : exn) (f : A -> M B) :
  bind (raise A e) f = (inl e, []).
Proof. reflexivity. Qed.

Lemma bind_ret (A B : Type) (a : A) (f : A -> M B) :
  bind (ret a) f = f a.
Proof. unfold bind, ret. now destruct (f a). Qed.

Lemma snd_bind (A B : Type) (m : M A) (f : A -> M B) :
  snd (bind m f) =
  snd m ++ match fst m with
           | inl _ => []
           | inr a => snd (f a)
           end.
Proof.
  destruct m as [[e|a] w]; cbn [bind fst snd].
  - now rewrite app_nil_r.
  - now destruct (f a).
Qed.

Lemma fst_bind (A B : Type) (m : M A) (f : A -> M B) :
  fst (bind m f) =
  match fst m with
  | inl e => inl e
  | inr a => fst (f a)
  end.
Proof.
  destruct m as [[e|a] w]; cbn [bind fst snd]; [reflexivity|].
  now destruct (f a).
Qed.

(** *** A drawer to evaluate the code on *)

Definition demo_glyph : string :=
  let quote := String (ascii_of_nat 34) "" in
  ("<svg viewBox=" ++ quote ++ "10 0 20 20" ++ quote ++ "><path/></svg>")%string.

Definition demo_config : DrawConfig :=
  {| key_rx := 6; key_ry := 6; inner_pad_w := 2; inner_pad_h := 2;
     outer_pad_w := 30; outer_pad_h := 56; small_pad := 2;
     line_spacing := 1.2; arc_radius := 6; arc_scale := 1;
     combo_w := 28; combo_h := 26;
     glyph_tap_size := 14; glyph_hold_size := 12; glyph_shifted_size := 10;
     svg_style := ""; append_colon_to_layer_header := true;
     glyphs := [("icon"%string, demo_glyph)] |}.

(** Two keys of the default size, 117 apart. *)
Definition demo_layout : PhysicalLayout :=
  mkPhysicalLayout [PhysicalKey_at 0 0; PhysicalKey_at 117 0].

Definition demo_keymap : KeymapData :=
  {| layers := [("base"%string,
                 [mkLayoutKey "a" "" "" ""; mkLayoutKey "b" "" "" ""])];
     keymap_layout := Some demo_layout;
     keymap_config := Some demo_config;
     get_combos_per_layer := fun layers => map (fun nl => (fst nl, [])) layers |}.

(** The view box of [demo_glyph] is 10 0 20 20. *)
Definition demo_view_box (glyph : string) : option (R * R * R * R) :=
  if String.eqb glyph demo_glyph then Some (10, 0, 20, 20) else None.

Definition demo_drawer : KeymapDrawer :=
  mkKeymapDrawer demo_config demo_keymap demo_layout demo_view_box
    (fun block => block).

(** *** Rendering a subset of the layers *)

Lemma forallb_has_key (A : Type) (d : list (string * A))
  (names : list string) (name : string) :
  In name names -> has_key name d = false ->
  forallb (fun l => has_key l d) names = false.
Proof.
  intros Hin Hkey. induction names as [|n names IH]; [contradiction|].
  cbn [forallb]. destruct Hin as [->|Hin].
  - now rewrite Hkey.
  - rewrite IH by assumption. apply andb_false_r.
Qed.

(** C9. When a name selected for drawing is absent from the keymap,
    [print_board] raises before its first write: it has written nothing,
    and the sink holds what it held before the call. *)
Theorem print_board_unknown_layer (self : KeymapDrawer)
  (names : list string) (keys_only combos_only : bool)
  (out : list Chunk) (name : string) :
  In name names ->
  has_key name (layers (keymap self)) = false ->
  print_board self (Some names) keys_only combos_only =
  (inl (AssertionError
          "Some layer names selected for drawing are not in the keymap"),
   []) /\
  sink_after out (print_board self (Some names) keys_only combos_only) = out.
Proof.
  intros Hin Hkey.
  assert (H : print_board self (Some names) keys_only combos_only =
              (inl (AssertionError
                 "Some layer names selected for drawing are not in the keymap"),
               [])).
  { unfold print_board. cbv zeta.
    destruct names as [|n names]; [contradiction|].
    rewrite (forallb_has_key _ _ _ Hin Hkey). apply bind_raise. }
  split; [exact H|]. unfold sink_after. rewrite H. apply app_nil_r.
Qed.

(** The demo keymap has the layer base and no layer nav. *)
Lemma print_board_unknown_layer_witness :
  print_board demo_drawer (Some ["base"%string; "nav"%string]) false false =
  (inl (AssertionError
          "Some layer names selected for drawing are not in the keymap"),
   []) /\
  sink_after [SvgClose]
    (print_board demo_drawer (Some ["base"%string; "nav"%string]) false false)
  = [SvgClose].
Proof.
  apply (@print_board_unknown_layer demo_drawer
           ["base"%string; "nav"%string] false false [SvgClose]
           "nav"%string).
  - right. left. reflexivity.
  - reflexivity.
Defined.

(** *** Glyphs *)

(** What [_draw_glyph] writes for a glyph whose view box is found: the
    height of the legend slot, the offset of the slot, and the width the
    code computes from the four numbers of the view box. *)
Lemma draw_glyph_found (self : KeymapDrawer) (p : Point) (name glyph : string)
  (legend_type : LegendType) (classes : list string) (x y w h : R) :
  dict_get name (glyphs (cfg self)) = Some glyph ->
  is_empty glyph = false ->
  _view_box_dimensions self glyph = Some (x, y, w, h) ->
  h - y <> 0 ->
  let height :=
    match legend_type with
    | tap_legend => glyph_tap_size (cfg self)
    | hold_legend => glyph_hold_size (cfg self)
    | shifted_legend => glyph_shifted_size (cfg self)
    end in
  let d_y :=
    match legend_type with
    | tap_legend => 0.5 * height
    | hold_legend => height
    | shifted_legend => 0
    end in
  let width := (w - x) * (height / (h - y)) in
  _draw_glyph self p name legend_type classes =
  (inr true,
   [Use name (pt_x p - width / 2) (pt_y p - d_y) height width
      (_to_class_str (classes ++ ["glyph"%string; name]))]).
Proof.
  intros Hget Hne Hbox Hdiv. cbv zeta. unfold _draw_glyph.
  rewrite Hget, Hne, Hbox.
  destruct legend_type; rewrite (Reqb_false Hdiv); reflexivity.
Qed.

Lemma draw_glyph_unknown (self : KeymapDrawer) (p : Point) (name : string)
  (legend_type : LegendType) (classes : list string) :
  dict_get name (glyphs (cfg self)) = None ->
  _draw_glyph self p name legend_type classes = (inr false, []).
Proof. intros Hget. unfold _draw_glyph. now rewrite Hget. Qed.

Lemma demo_glyph_found :
  dict_get "icon" (glyphs (cfg demo_drawer)) = Some demo_glyph /\
  is_empty demo_glyph = false /\
  _view_box_dimensions demo_drawer demo_glyph = Some (10, 0, 20, 20).
Proof.
  split; [reflexivity|]. split; [reflexivity|].
  cbn [_view_box_dimensions demo_drawer]. unfold demo_view_box.
  now rewrite String.eqb_refl.
Qed.

(** C5, evaluated on a glyph whose view box is 10 0 20 20 (native width
    and height 20) drawn as a primary legend of height 14: the written
    width is 7, and the width that keeps the native aspect ratio is 14. *)
Theorem draw_glyph_aspect_ratio :
  exists x y width : R,
    _draw_glyph demo_drawer (mkPoint 100 100) "icon" tap_legend
      ["letter"%string; "tap"%string] =
    (inr true,
     [Use "icon" x y 14 width
        (Some ["letter"%string; "tap"%string; "glyph"%string;
               "icon"%string])]) /\
    width = 7 /\
    14 * (20 / 20) = 14 /\
    width <> 14 * (20 / 20).
Proof.
  destruct demo_glyph_found as [Hget [Hne Hbox]].
  eexists _, _, _. split.
  - rewrite (@draw_glyph_found demo_drawer _ _ _ tap_legend _ _ _ _ _
               Hget Hne Hbox) by lra.
    reflexivity.
  - cbn [cfg demo_drawer demo_config glyph_tap_size]. repeat split; lra.
Qed.

(** *** Legends *)

(** A legend of one token that refers to a glyph the configuration does
    not have is written as text. *)
Lemma draw_legend_unknown_glyph (self : KeymapDrawer) (p : Point)
  (word key_type glyph : string) (legend_type : LegendType) (shift : R) :
  _is_glyph [word] = Some glyph ->
  dict_get glyph (glyphs (cfg self)) = None ->
  _draw_legend self p [word] key_type legend_type shift =
  _draw_text p word [key_type; legend_name legend_type].
Proof.
  intros Hglyph Hget. unfold _draw_legend. rewrite Hglyph.
  destruct (is_empty glyph); [reflexivity|].
  rewrite draw_glyph_unknown by assumption. apply bind_ret.
Qed.

(** A legend of several tokens is written as a block of text. *)
Lemma draw_legend_several (self : KeymapDrawer) (p : Point)
  (w1 w2 key_type : string) (ws : list string) (legend_type : LegendType)
  (shift : R) :
  _draw_legend self p (w1 :: w2 :: ws) key_type legend_type shift =
  _draw_textblock self p (w1 :: w2 :: ws)
    [key_type; legend_name legend_type] shift.
Proof. reflexivity. Qed.

(** C1, evaluated. The token made of the reference to icon alone is a
    glyph reference and the two tokens reference, extra are not; but the
    single token made of the reference followed by extra is one too: the
    legend is drawn as the glyph icon and the text extra is lost. *)
Theorem glyph_reference_with_suffix :
  _is_glyph ["$$icon$$"%string] = Some "icon"%string /\
  _is_glyph ["$$icon$$"%string; "extra"%string] = None /\
  _is_glyph ["$$icon$$extra"%string] = Some "icon"%string /\
  exists x y width : R,
    _draw_legend demo_drawer (mkPoint 100 100) ["$$icon$$extra"%string]
      "letter" tap_legend 0 =
    (inr tt,
     [Use "icon" x y 14 width
        (Some ["letter"%string; "tap"%string; "glyph"%string;
               "icon"%string])]).
Proof.
  assert (Hglyph : _is_glyph ["$$icon$$extra"%string] = Some "icon"%string)
    by (vm_compute; reflexivity).
  split; [vm_compute; reflexivity|]. split; [reflexivity|].
  split; [exact Hglyph|].
  destruct demo_glyph_found as [Hget [Hne Hbox]].
  eexists _, _, _. unfold _draw_legend. rewrite Hglyph.
  cbn [is_empty legend_name].
  rewrite (@draw_glyph_found demo_drawer _ _ _ tap_legend _ _ _ _ _
             Hget Hne Hbox) by lra.
  reflexivity.
Qed.

(** *** Sorting *)

Section InsertionSort.

Variables A K : Type.
Variable ltb : K -> K -> bool.
Variable key : A -> K.


Hypothesis ltb_asym : forall a b, ltb a b = true -> ltb b a = false.
Hypothesis ltb_trans :
  forall a b c, ltb b a = false -> ltb c b = false -> ltb c a = false.





End InsertionSort.







(** *** The centre of a combo box *)

Lemma combo_anchor_mid (self : KeymapDrawer) (p_0 p_mid : Point)
  (combo : ComboSpec) (p_keys : list PhysicalKey) :
  align combo = align_mid ->
  combo_anchor self p_0 p_mid combo p_keys = inr (padd p_0 p_mid).
Proof. intros H. unfold combo_anchor. now rewrite H. Qed.


Lemma pabs_on_axis (p : Point) : pt_y p = 0 -> pabs p = Rabs (pt_x p).
Proof.
  intros Hy. rewrite <- pabs_horizontal. f_equal. now apply point_eq.
Qed.


(** *** Straight dendrons *)

(** A computation that writes no straight dendron. *)
Definition quiet (A : Type) (m : M A) : Prop := line_paths (snd m) = [].

Lemma quiet_ret (A : Type) (a : A) : quiet (ret a).
Proof. reflexivity. Qed.

Lemma quiet_raise (A : Type) (e : exn) : quiet (raise A e).
Proof. reflexivity. Qed.

Lemma quiet_bind (A B : Type) (m : M A) (f : A -> M B) :
  quiet m -> (forall a, quiet (f a)) -> quiet (bind m f).
Proof.
  unfold quiet, line_paths. intros Hm Hf. rewrite snd_bind, filter_app, Hm.
  destruct (fst m); [reflexivity | apply Hf].
Qed.

Lemma quiet_for_each (A : Type) (l : list A) (f : A -> M unit) :
  (forall a, quiet (f a)) -> quiet (for_each l f).
Proof.
  intros Hf. induction l as [|a l IH]; [reflexivity|].
  cbn [for_each]. apply quiet_bind; [apply Hf | intros _; exact IH].
Qed.

Lemma quiet_draw_text (p : Point) (word : string) (classes : list string) :
  quiet (_draw_text p word classes).
Proof. unfold _draw_text. now destruct (is_empty word). Qed.

Lemma quiet_draw_textblock (self : KeymapDrawer) (p : Point)
  (words : list string) (classes : list string) (shift : R) :
  quiet (_draw_textblock self p words classes shift).
Proof.
  unfold _draw_textblock. apply quiet_bind; [reflexivity|]. intros _.
  destruct words as [|word_0 rest]; [reflexivity|].
  apply quiet_bind; [reflexivity|]. intros _.
  apply quiet_bind; [|reflexivity].
  apply quiet_for_each. reflexivity.
Qed.

Lemma quiet_draw_glyph (self : KeymapDrawer) (p : Point) (name : string)
  (legend_type : LegendType) (classes : list string) :
  quiet (_draw_glyph self p name legend_type classes).
Proof.
  unfold _draw_glyph.
  destruct (dict_get name (glyphs (cfg self))) as [glyph|]; [|reflexivity].
  destruct (is_empty glyph); [reflexivity|].
  destruct (_view_box_dimensions self glyph) as [[[[x y] w] h]|];
    [|reflexivity].
  destruct legend_type; destruct (Reqb (h - y) 0); reflexivity.
Qed.

Lemma quiet_draw_legend (self : KeymapDrawer) (p : Point)
  (words : list string) (key_type : string) (legend_type : LegendType)
  (shift : R) :
  quiet (_draw_legend self p words key_type legend_type shift).
Proof.
  unfold _draw_legend. destruct words as [|word_0 rest]; [reflexivity|].
  assert (Htext : quiet
            match word_0 :: rest with
            | [_] => _draw_text p word_0 [key_type; legend_name legend_type]
            | _ => _draw_textblock self p (word_0 :: rest)
                     [key_type; legend_name legend_type] shift
            end).
  { destruct rest; [apply quiet_draw_text | apply quiet_draw_textblock]. }
  destruct (_is_glyph (word_0 :: rest)) as [glyph|]; [|exact Htext].
  destruct (is_empty glyph); [exact Htext|].
  apply quiet_bind; [apply quiet_draw_glyph|].
  intros [|]; [reflexivity | exact Htext].
Qed.

(** With a shortening distance that is not negative, [_draw_line_dendron]
    writes one line from [p_1] towards [p_2] and does not raise. *)
Lemma draw_line_dendron_towards (p_1 p_2 : Point) (shorten : R) :
  0 <= shorten ->
  exists t : R,
    0 < t <= 1 /\
    _draw_line_dendron p_1 p_2 shorten =
    (inr tt, [LinePath p_1 (pscale t (psub p_2 p_1))]).
Proof.
  intros Hs. unfold _draw_line_dendron.
  set (magn := pabs (psub p_2 p_1)).
  destruct (Req_dec_T shorten 0) as [Hz|Hnz].
  - exists 1. split; [lra|]. rewrite (Reqb_true Hz). cbn [negb andb].
    replace (pscale 1 (psub p_2 p_1)) with (psub p_2 p_1)
      by (apply point_eq; cbn [pt_x pt_y pscale]; ring).
    reflexivity.
  - rewrite (Reqb_false Hnz). cbn [negb andb].
    destruct (Rlt_dec shorten magn) as [Hlt|Hge].
    + rewrite (Rltb_true Hlt). rewrite Reqb_false by lra.
      exists (1 - shorten / magn). split; [|reflexivity].
      assert (0 < shorten / magn < 1).
      { split.
        - apply Rdiv_lt_0_compat; lra.
        - apply (Rmult_lt_reg_r magn); [lra|].
          unfold Rdiv. rewrite Rmult_assoc, Rinv_l by lra. lra. }
      lra.
    + rewrite Rltb_false by lra.
      exists 1. split; [lra|].
      replace (pscale 1 (psub p_2 p_1)) with (psub p_2 p_1)
        by (apply point_eq; cbn [pt_x pt_y pscale]; ring).
      reflexivity.
Qed.

Lemma for_each_written (A : Type) (l : list A) (f : A -> M unit) :
  (forall a, In a l -> fst (f a) = inr tt) ->
  for_each l f = (inr tt, flat_map (fun a => snd (f a)) l).
Proof.
  induction l as [|a l IH]; intros Hf; [reflexivity|].
  cbn [for_each flat_map]. rewrite IH by (intros; apply Hf; now right).
  pose proof (Hf a (or_introl eq_refl)) as Ha.
  destruct (f a) as [[e|[]] w]; cbn [fst] in Ha; [discriminate|].
  reflexivity.
Qed.

(** [combo.dendron is True] *)
Definition dendron_always (combo : ComboSpec) : bool :=
  match dendron combo with
  | Some true => true
  | _ => false
  end.

(** The straight dendrons that [print_combo] writes for a combo aligned
    mid, key by key. *)
Lemma print_combo_mid_paths (self : KeymapDrawer) (p_0 p_mid : Point)
  (combo : ComboSpec) (p_keys : list PhysicalKey) :
  align combo = align_mid ->
  map_exn (py_index (keys (layout self))) (key_positions combo) = inr p_keys ->
  combo_mid p_keys (slide combo) = inr p_mid ->
  (forall k, In k p_keys -> 0 < width k) ->
  line_paths (snd (print_combo self p_0 combo)) =
  match dendron combo with
  | Some false => []
  | _ =>
      flat_map (fun k =>
        if dendron_always combo
           || Rleb (width k - 1)
                (pabs (psub (padd p_0 (pos k)) (padd p_0 p_mid)))
        then snd (_draw_line_dendron (padd p_0 p_mid) (padd p_0 (pos k))
                    (width k / 3))
        else []) p_keys
  end.
Proof.
  intros Halign Hkeys Hmid Hwidth. unfold print_combo.
  rewrite Hkeys. change (lift (inr p_keys)) with (ret p_keys).
  rewrite bind_ret, Hmid. change (lift (inr p_mid)) with (ret p_mid).
  rewrite bind_ret, (@combo_anchor_mid self p_0 p_mid combo p_keys Halign).
  change (lift (inr (padd p_0 p_mid))) with (ret (padd p_0 p_mid)).
  rewrite bind_ret.
  unfold line_paths. rewrite snd_bind, filter_app.
  match goal with
  | |- _ ++ filter _ ?rest = _ =>
      assert (Hrest : filter is_line_path rest = [])
  end.
  { destruct (fst (draw_dendrons self p_0 (padd p_0 p_mid) combo p_keys));
      [reflexivity|].
    apply quiet_bind; [reflexivity|]. intros _.
    repeat (apply quiet_bind; [apply quiet_draw_legend|]; intros _).
    apply quiet_draw_legend. }
  rewrite Hrest, app_nil_r. clear Hrest.
  unfold draw_dendrons. rewrite Halign.
  assert (Hloop :
    for_each p_keys (fun k =>
      if match dendron combo with Some true => true | _ => false end
         || Rleb (width k - 1)
              (pabs (psub (padd p_0 (pos k)) (padd p_0 p_mid)))
      then _draw_line_dendron (padd p_0 p_mid) (padd p_0 (pos k))
             (width k / 3)
      else ret tt) =
    (inr tt,
     flat_map (fun k =>
       if dendron_always combo
          || Rleb (width k - 1)
               (pabs (psub (padd p_0 (pos k)) (padd p_0 p_mid)))
       then snd (_draw_line_dendron (padd p_0 p_mid) (padd p_0 (pos k))
                   (width k / 3))
       else []) p_keys)).
  { rewrite for_each_written.
    - f_equal. apply flat_map_ext. intros k. unfold dendron_always.
      now destruct (_ || _).
    - intros k Hk. destruct (_ || _); [|reflexivity].
      destruct (@draw_line_dendron_towards (padd p_0 p_mid)
                  (padd p_0 (pos k)) (width k / 3)) as [t [_ ->]];
        [|reflexivity].
      pose proof (Hwidth k Hk). lra. }
  assert (Hpaths : forall l : list PhysicalKey,
    (forall k, In k l -> 0 < width k) ->
    filter is_line_path
      (flat_map (fun k =>
         if dendron_always combo
            || Rleb (width k - 1)
                 (pabs (psub (padd p_0 (pos k)) (padd p_0 p_mid)))
         then snd (_draw_line_dendron (padd p_0 p_mid) (padd p_0 (pos k))
                     (width k / 3))
         else []) l) =
    flat_map (fun k =>
      if dendron_always combo
         || Rleb (width k - 1)
              (pabs (psub (padd p_0 (pos k)) (padd p_0 p_mid)))
      then snd (_draw_line_dendron (padd p_0 p_mid) (padd p_0 (pos k))
                  (width k / 3))
      else []) l).
  { induction l as [|k l IH]; intros Hl; [reflexivity|].
    cbn [flat_map]. rewrite filter_app, IH by (intros; apply Hl; now right).
    f_equal. destruct (_ || _); [|reflexivity].
    destruct (@draw_line_dendron_towards (padd p_0 p_mid)
                (padd p_0 (pos k)) (width k / 3)) as [t [_ ->]];
      [|reflexivity].
    pose proof (Hl k (or_introl eq_refl)). lra. }
  destruct (dendron combo) as [[|]|] eqn:Hd.
  - rewrite Hloop. cbn [snd]. now apply Hpaths.
  - reflexivity.
  - rewrite Hloop. cbn [snd]. now apply Hpaths.
Qed.

Lemma Forall2_map_r (A B : Type) (P : A -> B -> Prop) (g : A -> B)
  (l : list A) :
  (forall a, In a l -> P a (g a)) -> Forall2 P l (map g l).
Proof.
  induction l as [|a l IH]; intros H; cbn [map]; constructor.
  - apply H. now left.
  - apply IH. intros b Hb. apply H. now right.
Qed.

(** C4 (amended). For a combo aligned mid whose keys have a positive
    width, the straight dendrons that [print_combo] writes are, key by
    key: no line when the dendron mode is never; otherwise one line from
    the centre of the box towards the key if and only if the mode is
    always or the distance from the centre of the box to the centre of the
    key is at least the width of the key minus one. *)
Theorem mid_dendrons (self : KeymapDrawer) (p_0 p_mid : Point)
  (combo : ComboSpec) (p_keys : list PhysicalKey) :
  align combo = align_mid ->
  map_exn (py_index (keys (layout self))) (key_positions combo) = inr p_keys ->
  combo_mid p_keys (slide combo) = inr p_mid ->
  (forall k, In k p_keys -> 0 < width k) ->
  let p := padd p_0 p_mid in
  exists outs : list (list Chunk),
    line_paths (snd (print_combo self p_0 combo)) = List.concat outs /\
    Forall2 (fun k out =>
      let distance := pabs (psub (padd p_0 (pos k)) p) in
      let drawn :=
        dendron combo = Some true \/
        (dendron combo = None /\ width k - 1 <= distance) in
      (drawn ->
       exists t : R,
         0 < t <= 1 /\
         out = [LinePath p (pscale t (psub (padd p_0 (pos k)) p))]) /\
      (~ drawn -> out = [])) p_keys outs.
Proof.
  intros Halign Hkeys Hmid Hwidth p.
  rewrite (print_combo_mid_paths _ _ _ Halign Hkeys Hmid Hwidth).
  fold p.
  exists (map (fun k =>
            if match dendron combo with Some false => false | _ => true end
               && (dendron_always combo
                   || Rleb (width k - 1) (pabs (psub (padd p_0 (pos k)) p)))
            then snd (_draw_line_dendron p (padd p_0 (pos k)) (width k / 3))
            else []) p_keys).
  split.
  - rewrite <- flat_map_concat_map.
    destruct (dendron combo) as [[|]|]; cbn [andb]; try reflexivity.
    clear. induction p_keys as [|k l IH]; [reflexivity | exact IH].
  - apply Forall2_map_r. intros k Hk. cbv zeta.
    pose proof (Hwidth k Hk) as Hw.
    destruct (@draw_line_dendron_towards p (padd p_0 (pos k)) (width k / 3))
      as [t [Ht Hline]]; [lra|]. rewrite Hline. cbn [snd].
    unfold dendron_always.
    destruct (dendron combo) as [[|]|]; cbn [andb orb].
    + split; [intros _; now exists t|]. intros H. elim H. now left.
    + split; [|reflexivity].
      intros [H|[H _]]; discriminate.
    + destruct (Rle_dec (width k - 1) (pabs (psub (padd p_0 (pos k)) p)))
        as [Hle|Hgt].
      * rewrite (Rleb_true Hle). split; [intros _; now exists t|].
        intros H. elim H. now right.
      * rewrite Rleb_false by lra. split; [|reflexivity].
        intros [H|[_ H]]; [discriminate | lra].
Qed.

(** A combo of the two keys of the demo layout, aligned mid, with the
    dendron mode that depends on the distance. *)
Definition demo_combo : ComboSpec :=
  {| key_positions := [0%Z; 1%Z];
     combo_key := mkLayoutKey "x" "" "" "";
     combo_layers := ["base"%string];
     align := align_mid;
     offset := 0;
     dendron := None;
     slide := None;
     combo_type := "" |}.

Lemma demo_combo_keys :
  map_exn (py_index (keys (layout demo_drawer))) (key_positions demo_combo) =
  inr [PhysicalKey_at 0 0; PhysicalKey_at 117 0] /\
  combo_mid [PhysicalKey_at 0 0; PhysicalKey_at 117 0] (slide demo_combo) =
  inr (centroid [PhysicalKey_at 0 0; PhysicalKey_at 117 0]) /\
  (forall k, In k [PhysicalKey_at 0 0; PhysicalKey_at 117 0] -> 0 < width k) /\
  padd (mkPoint 0 0) (centroid [PhysicalKey_at 0 0; PhysicalKey_at 117 0]) =
  mkPoint 58.5 0.
Proof.
  split; [reflexivity|]. split; [reflexivity|]. split.
  - intros k [<-|[<-|[]]]; cbn [width PhysicalKey_at]; unfold KEY_W; lra.
  - apply point_eq; unfold centroid; simpl; lra.
Qed.

Lemma mid_dendrons_witness :
  exists outs : list (list Chunk),
    line_paths (snd (print_combo demo_drawer (mkPoint 0 0) demo_combo)) =
    List.concat outs /\
    List.length outs = 2%nat.
Proof.
  destruct demo_combo_keys as [Hkeys [Hmid [Hwidth _]]].
  destruct (@mid_dendrons demo_drawer (mkPoint 0 0) _ demo_combo _
              eq_refl Hkeys Hmid Hwidth) as [outs [Hout Hall]].
  exists outs. split; [exact Hout|].
  apply Forall2_length in Hall. now rewrite <- Hall.
Defined.

(** C4, as stated, fails: the two keys of the demo layout are 59 wide and
    58.5 away from the centre of the box of the demo combo, less than
    their width, the dendron mode is not always, and a straight dendron is
    written to each of them. *)
Lemma mid_dendrons_counterexample :
  exists line_a line_b : Point,
    line_paths (snd (print_combo demo_drawer (mkPoint 0 0) demo_combo)) =
    [LinePath (mkPoint 58.5 0) line_a; LinePath (mkPoint 58.5 0) line_b] /\
    dendron demo_combo = None /\
    pabs (psub (padd (mkPoint 0 0) (pos (PhysicalKey_at 0 0)))
            (mkPoint 58.5 0)) = 58.5 /\
    pabs (psub (padd (mkPoint 0 0) (pos (PhysicalKey_at 117 0)))
            (mkPoint 58.5 0)) = 58.5 /\
    width (PhysicalKey_at 0 0) = 59 /\
    width (PhysicalKey_at 117 0) = 59.
Proof.
  destruct demo_combo_keys as [Hkeys [Hmid [Hwidth Hp]]].
  assert (Ha : pabs (psub (padd (mkPoint 0 0) (pos (PhysicalKey_at 0 0)))
                       (mkPoint 58.5 0)) = 58.5).
  { rewrite pabs_on_axis by (simpl; lra). simpl.
    unfold Rabs. destruct (Rcase_abs _); lra. }
  assert (Hb : pabs (psub (padd (mkPoint 0 0) (pos (PhysicalKey_at 117 0)))
                       (mkPoint 58.5 0)) = 58.5).
  { rewrite pabs_on_axis by (simpl; lra). simpl.
    unfold Rabs. destruct (Rcase_abs _); lra. }
  rewrite (@print_combo_mid_paths demo_drawer (mkPoint 0 0) _ demo_combo _
             eq_refl Hkeys Hmid Hwidth).
  rewrite Hp. cbn [dendron demo_combo flat_map]. unfold dendron_always.
  cbn [dendron demo_combo orb]. rewrite Ha, Hb.
  rewrite !Rleb_true by (cbn [width PhysicalKey_at]; unfold KEY_W; lra).
  destruct (@draw_line_dendron_towards (mkPoint 58.5 0)
              (padd (mkPoint 0 0) (pos (PhysicalKey_at 0 0)))
              (width (PhysicalKey_at 0 0) / 3)) as [t_a [_ ->]];
    [cbn [width PhysicalKey_at]; unfold KEY_W; lra|].
  destruct (@draw_line_dendron_towards (mkPoint 58.5 0)
              (padd (mkPoint 0 0) (pos (PhysicalKey_at 117 0)))
              (width (PhysicalKey_at 117 0) / 3)) as [t_b [_ ->]];
    [cbn [width PhysicalKey_at]; unfold KEY_W; lra|].
  eexists _, _. split; [reflexivity|].
  repeat split; try assumption; cbn [width PhysicalKey_at]; unfold KEY_W;
    lra.
Qed.

End DrawProps.

(** * Further properties *)

(** ** Grid layouts: counts, positions and extents *)

Module LayoutMore.

Import Layout LayoutProps.
Local Open Scope R_scope.

(** The main rows of a layout that is not split. *)
Fixpoint grid1 (n : nat) (ncols : Z) (x y : R) : list PhysicalKey :=
  match n with
  | O => []
  | S n' => row (Z.to_nat ncols) x y ++ grid1 n' ncols x (y + IZR KEY_H)
  end.

Lemma rows_loop_unsplit (n : nat) (ncols : Z) :
  forall x y keys,
  rows_loop n false ncols x y keys = keys ++ grid1 n ncols x y.
Proof.
  induction n as [|n IH]; intros x y keys; simpl.
  - now rewrite app_nil_r.
  - rewrite IH, create_row_app, <- app_assoc. reflexivity.
Qed.

Lemma grid1_length (n : nat) (ncols : Z) :
  forall x y, List.length (grid1 n ncols x y) = (n * Z.to_nat ncols)%nat.
Proof.
  induction n as [|n IH]; intros x y; simpl; [reflexivity|].
  rewrite length_app, row_length, IH. lia.
Qed.

Lemma grid1_nth (n : nat) (ncols : Z) :
  forall x y r i d, (r < n)%nat -> (i < Z.to_nat ncols)%nat ->
  nth (r * Z.to_nat ncols + i) (grid1 n ncols x y) d =
  PhysicalKey_at (x + INR i * IZR KEY_W + IZR KEY_W / 2)
    (y + INR r * IZR KEY_H + IZR KEY_H / 2).
Proof.
  induction n as [|n IH]; intros x y r i d Hr Hi; [lia|].
  cbn [grid1]. destruct r as [|r].
  - rewrite app_nth1 by (rewrite row_length; lia).
    simpl. rewrite row_nth by assumption. f_equal. lra.
  - rewrite app_nth2 by (rewrite row_length; lia).
    rewrite row_length.
    replace (S r * Z.to_nat ncols + i - Z.to_nat ncols)%nat
      with (r * Z.to_nat ncols + i)%nat by lia.
    rewrite IH by lia. rewrite S_INR. f_equal. lra.
Qed.

(** The keys of a layout that was built, by cases on [split]. *)
Lemma ortho_keys_built (split : bool) (nrows ncols nthumbs : Z)
  (l : OrthoLayout) :
  new_OrthoLayout (mkOrthoArgs split nrows ncols (Some nthumbs)) = inr l ->
  Layout.split l = split /\ rows l = nrows /\ columns l = ncols /\
  thumbs l = nthumbs /\
  exists thumb_keys,
    List.length thumb_keys = (2 * Z.to_nat nthumbs)%nat /\
    ortho_keys l =
    (if split then grid (Z.to_nat nrows) ncols 0 0
     else grid1 (Z.to_nat nrows) ncols 0 0) ++ thumb_keys.
Proof.
  unfold new_OrthoLayout, create_ortho_layout, check_thumbs.
  cbn [arg_thumbs arg_rows arg_columns arg_split validate_fields thumbs
       columns Layout.split].
  destruct (Z.eqb_spec nthumbs 0) as [Hz|Hz].
  - intros H. injection H as <-. cbn. repeat split.
    exists []. subst nthumbs. split; [reflexivity|].
    rewrite app_nil_r.
    destruct split; [apply rows_loop_split | apply rows_loop_unsplit].
  - destruct (nthumbs <=? ncols)%Z; cbn [negb]; [|discriminate].
    destruct split; cbn [negb]; [|discriminate].
    intros H. injection H as <-. cbn. repeat split.
    eexists. split; [|rewrite rows_loop_split, !create_row_app, <- app_assoc;
                      reflexivity].
    rewrite length_app, !row_length. lia.
Qed.

(** X1. The number of keys of a grid layout that was built: rows times
    columns, twice that when it is split, plus two rows of thumb keys. *)
Theorem ortho_key_count (split : bool) (nrows ncols nthumbs : Z)
  (l : OrthoLayout) :
  new_OrthoLayout (mkOrthoArgs split nrows ncols (Some nthumbs)) = inr l ->
  List.length (ortho_keys l) =
  (Z.to_nat nrows * ((if split then 2 else 1) * Z.to_nat ncols)
   + 2 * Z.to_nat nthumbs)%nat.
Proof.
  intros H. apply ortho_keys_built in H
    as [_ [_ [_ [_ [thumb_keys [Hlen ->]]]]]].
  rewrite length_app, Hlen.
  destruct split; [rewrite grid_length | rewrite grid1_length]; lia.
Qed.

(** A split layout of two rows and three columns has twelve keys. *)
Lemma ortho_key_count_witness :
  exists l, new_OrthoLayout (mkOrthoArgs true 2 3 (Some 0%Z)) = inr l /\
            List.length (ortho_keys l) = 12%nat.
Proof.
  eexists. split; [reflexivity|].
  exact (@ortho_key_count true 2 3 0 _ eq_refl).
Defined.

(** X2. In a split layout that was built, the key of row [r] and column
    [c] of the left half is centred at (c + 1/2) key widths and (r + 1/2)
    key heights, and the key of the same row and column of the right half
    is the same key moved right by the width of the column block plus the
    gap. *)
Theorem split_halves (nrows ncols nthumbs : Z) (l : OrthoLayout)
  (r c : nat) :
  new_OrthoLayout (mkOrthoArgs true nrows ncols (Some nthumbs)) = inr l ->
  (r < Z.to_nat nrows)%nat -> (c < Z.to_nat ncols)%nat ->
  main_key l r c =
  PhysicalKey_at (INR c * IZR KEY_W + IZR KEY_W / 2)
                 (INR r * IZR KEY_H + IZR KEY_H / 2) /\
  main_key l r (Z.to_nat ncols + c) =
  PhysicalKey_at
    (x_pos (main_key l r c) + IZR ncols * IZR KEY_W + SPLIT_GAP)
    (y_pos (main_key l r c)).
Proof.
  intros H Hr Hc. apply ortho_keys_built in H
    as [_ [_ [Hcols [_ [thumb_keys [_ Hkeys]]]]]].
  assert (Hleft : main_key l r c =
    PhysicalKey_at (INR c * IZR KEY_W + IZR KEY_W / 2)
                   (INR r * IZR KEY_H + IZR KEY_H / 2)).
  { unfold main_key, key_at. rewrite Hkeys, Hcols.
    rewrite app_nth1 by (rewrite grid_length; nia).
    rewrite grid_nth by lia.
    rewrite app_nth1 by (rewrite row_length; lia).
    rewrite row_nth by assumption. f_equal; lra. }
  split; [exact Hleft|]. rewrite Hleft.
  unfold main_key, key_at. rewrite Hkeys, Hcols.
  rewrite app_nth1 by (rewrite grid_length; nia).
  rewrite grid_nth by lia.
  rewrite app_nth2 by (rewrite row_length; lia).
  rewrite row_length.
  replace (Z.to_nat ncols + c - Z.to_nat ncols)%nat with c by lia.
  rewrite row_nth by assumption.
  cbn [x_pos y_pos PhysicalKey_at]. rewrite mult_IZR. f_equal; lra.
Qed.

(** In the split layout of two rows and three columns the keys of index
    0 and 3 are 3 * 59 + 29.5 apart. *)
Lemma split_halves_witness :
  exists l, new_OrthoLayout (mkOrthoArgs true 2 3 (Some 0%Z)) = inr l /\
            x_pos (key_at l 3) = x_pos (key_at l 0) + 206.5.
Proof.
  eexists. split; [reflexivity|].
  destruct (@split_halves 2 3 0 _ 0 0 eq_refl) as [H0 H3];
    [simpl; lia | simpl; lia |].
  change (key_at ?l 3) with (main_key l 0 (Z.to_nat 3 + 0)).
  change (key_at ?l 0) with (main_key l 0 0).
  rewrite H3. cbn [x_pos PhysicalKey_at]. unfold SPLIT_GAP, KEY_W. lra.
Defined.

(** X3. In a layout that is not split, the keys come row after row, and
    the key of row [r] and column [c] is centred at (c + 1/2) key widths
    and (r + 1/2) key heights, with the default size and no rotation. *)
Theorem unsplit_grid (nrows ncols nthumbs : Z) (l : OrthoLayout)
  (r c : nat) :
  new_OrthoLayout (mkOrthoArgs false nrows ncols (Some nthumbs)) = inr l ->
  (r < Z.to_nat nrows)%nat -> (c < Z.to_nat ncols)%nat ->
  List.length (ortho_keys l) = (Z.to_nat nrows * Z.to_nat ncols)%nat /\
  key_at l (r * Z.to_nat ncols + c) =
  mkPhysicalKey (INR c * IZR KEY_W + IZR KEY_W / 2)
                (INR r * IZR KEY_H + IZR KEY_H / 2)
                (IZR KEY_W) (IZR KEY_H) 0.
Proof.
  intros H Hr Hc.
  assert (Hthumbs : nthumbs = 0%Z).
  { revert H. unfold new_OrthoLayout, create_ortho_layout, check_thumbs.
    cbn [arg_thumbs arg_rows arg_columns arg_split validate_fields thumbs
         columns Layout.split].
    destruct (Z.eqb_spec nthumbs 0) as [Hz|Hz]; [easy|].
    destruct (nthumbs <=? ncols)%Z; cbn [negb]; discriminate. }
  apply ortho_keys_built in H as [_ [_ [_ [_ [thumb_keys [Hlen Hkeys]]]]]].
  split.
  { rewrite Hkeys, length_app, grid1_length, Hlen, Hthumbs. simpl. lia. }
  unfold key_at. rewrite Hkeys.
  rewrite app_nth1 by (rewrite grid1_length; nia).
  rewrite grid1_nth by assumption. unfold PhysicalKey_at. f_equal; lra.
Qed.

Lemma unsplit_grid_witness :
  exists l, new_OrthoLayout (mkOrthoArgs false 2 3 (Some 0%Z)) = inr l /\
            List.length (ortho_keys l) = 6%nat /\
            x_pos (key_at l 4) = 88.5 /\ y_pos (key_at l 4) = 81.
Proof.
  eexists. split; [reflexivity|].
  destruct (@unsplit_grid 2 3 0 _ 1 1 eq_refl) as [Hlen Hkey];
    [simpl; lia | simpl; lia |].
  split; [exact Hlen|].
  change (key_at ?l 4) with (key_at l (1 * Z.to_nat 3 + 1)).
  rewrite Hkey. cbn [x_pos y_pos]. unfold KEY_W, KEY_H. simpl. lra.
Defined.

(** *** Extents *)

Lemma fold_max_ge (l : list R) :
  forall a, a <= fold_left Rmax l a /\
            Forall (fun x => x <= fold_left Rmax l a) l.
Proof.
  induction l as [|b l IH]; intros a; cbn [fold_left].
  - split; [lra | constructor].
  - destruct (IH (Rmax a b)) as [H1 H2].
    pose proof (Rmax_l a b). pose proof (Rmax_r a b).
    split; [lra|]. constructor; [lra | exact H2].
Qed.

Lemma fold_max_in (l : list R) :
  forall a, In (fold_left Rmax l a) (a :: l).
Proof.
  induction l as [|b l IH]; intros a; cbn [fold_left]; [now left|].
  destruct (IH (Rmax a b)) as [H|H].
  - unfold Rmax in H at 1. destruct (Rle_dec a b).
    + right. left. exact H.
    + left. exact H.
  - right. right. exact H.
Qed.



(** [max] of a list: an element that bounds the others; an error for
    the empty list only. *)
Lemma py_max_spec (l : list R) :
  match py_max l with
  | inl _ => l = []
  | inr m => In m l /\ Forall (fun x => x <= m) l
  end.
Proof.
  destruct l as [|a l]; [reflexivity|]. cbn [py_max].
  split; [apply fold_max_in|].
  destruct (fold_max_ge l a) as [H1 H2]. now constructor.
Qed.


Lemma py_max_unique (l : list R) (m : R) :
  In m l -> Forall (fun x => x <= m) l -> py_max l = inr m.
Proof.
  intros Hin Hall. pose proof (py_max_spec l) as H.
  destruct (py_max l) as [e|m']; [subst; contradiction|].
  destruct H as [Hin' Hall']. f_equal.
  rewrite Forall_forall in Hall, Hall'.
  pose proof (Hall _ Hin'). pose proof (Hall' _ Hin). lra.
Qed.

(** X4. The width of a layout is the right edge of one of its keys and no
    key reaches farther right; its height is the bottom edge of one of its
    keys and no key reaches lower; both raise for a layout without keys,
    and for that layout only. *)
Theorem layout_extents (l : PhysicalLayout) :
  match layout_width l with
  | inl _ => keys l = []
  | inr w =>
      (exists k, In k (keys l) /\ right_edge k = w) /\
      (forall k, In k (keys l) -> right_edge k <= w)
  end /\
  match layout_height l with
  | inl _ => keys l = []
  | inr h =>
      (exists k, In k (keys l) /\ y_pos k + height k / 2 = h) /\
      (forall k, In k (keys l) -> y_pos k + height k / 2 <= h)
  end.
Proof.
  unfold layout_width, layout_height, right_edge. split.
  - pose proof (py_max_spec
      (map (fun k => x_pos k + width k / 2) (keys l))) as H.
    destruct (py_max _) as [e|w].
    + now apply map_eq_nil in H.
    + destruct H as [Hin Hall]. split.
      * apply in_map_iff in Hin as [k [Hk Hin]]. now exists k.
      * intros k Hk. rewrite Forall_forall in Hall. apply Hall.
        apply in_map_iff. now exists k.
  - pose proof (py_max_spec
      (map (fun k => y_pos k + height k / 2) (keys l))) as H.
    destruct (py_max _) as [e|h].
    + now apply map_eq_nil in H.
    + destruct H as [Hin Hall]. split.
      * apply in_map_iff in Hin as [k [Hk Hin]]. now exists k.
      * intros k Hk. rewrite Forall_forall in Hall. apply Hall.
        apply in_map_iff. now exists k.
Qed.

Lemma In_row (n : nat) (x y : R) (k : PhysicalKey) :
  In k (row n x y) ->
  exists i, (i < n)%nat /\
    k = PhysicalKey_at (x + INR i * IZR KEY_W + IZR KEY_W / 2)
          (y + IZR KEY_H / 2).
Proof.
  intros H. apply (In_nth _ _ (PhysicalKey_at 0 0)) in H as [i [Hi <-]].
  rewrite row_length in Hi. exists i. split; [exact Hi|].
  now apply row_nth.
Qed.

Lemma In_grid (n : nat) (ncols : Z) (k : PhysicalKey) :
  forall x y, In k (grid n ncols x y) ->
  exists r i, (r < n)%nat /\ (i < Z.to_nat ncols)%nat /\
    (k = PhysicalKey_at (x + INR i * IZR KEY_W + IZR KEY_W / 2)
           (y + INR r * IZR KEY_H + IZR KEY_H / 2) \/
     k = PhysicalKey_at
           (x + IZR (ncols * KEY_W) + SPLIT_GAP + INR i * IZR KEY_W
            + IZR KEY_W / 2)
           (y + INR r * IZR KEY_H + IZR KEY_H / 2)).
Proof.
  induction n as [|n IH]; intros x y H; [contradiction|].
  cbn [grid] in H. apply in_app_or in H as [H|H].
  - apply in_app_or in H as [H|H]; apply In_row in H as [i [Hi ->]];
      exists 0%nat, i; (split; [lia|]); (split; [exact Hi|]);
      [left | right]; f_equal; simpl; lra.
  - apply IH in H as [r [i [Hr [Hi H]]]].
    exists (S r), i. split; [lia|]. split; [exact Hi|].
    rewrite S_INR.
    destruct H as [-> | ->]; [left | right]; f_equal; lra.
Qed.

Lemma INR_below (i : nat) (z : Z) :
  (i < Z.to_nat z)%nat -> 0 <= INR i /\ INR i + 1 <= IZR z.
Proof.
  intros Hi. split; [apply pos_INR|].
  rewrite <- S_INR, <- (@INR_to_nat z) by lia. apply le_INR. lia.
Qed.

(** The thumb rows of a split layout. *)
Definition thumb_rows (nrows ncols nthumbs : Z) : list PhysicalKey :=
  if (nthumbs =? 0)%Z then []
  else row (Z.to_nat nthumbs) (IZR ((ncols - nthumbs) * KEY_W))
         (IZR (nrows * KEY_H))
       ++ row (Z.to_nat nthumbs) (IZR (ncols * KEY_W) + SPLIT_GAP)
            (IZR (nrows * KEY_H)).

Lemma split_keys_built (nrows ncols nthumbs : Z) (l : OrthoLayout) :
  new_OrthoLayout (mkOrthoArgs true nrows ncols (Some nthumbs)) = inr l ->
  ortho_keys l =
  grid (Z.to_nat nrows) ncols 0 0 ++ thumb_rows nrows ncols nthumbs.
Proof.
  unfold new_OrthoLayout, create_ortho_layout, check_thumbs, thumb_rows.
  cbn [arg_thumbs arg_rows arg_columns arg_split validate_fields thumbs
       columns Layout.split].
  destruct (nthumbs =? 0)%Z.
  - intros H. injection H as <-. cbn [ortho_keys].
    rewrite app_nil_r. apply rows_loop_split.
  - destruct (nthumbs <=? ncols)%Z; cbn [negb]; [|discriminate].
    intros H. injection H as <-. cbn [ortho_keys].
    rewrite rows_loop_split, !create_row_app, <- app_assoc. reflexivity.
Qed.

Lemma new_OrthoLayout_no_thumbs (nrows ncols : Z) :
  new_OrthoLayout (mkOrthoArgs true nrows ncols (Some 0%Z)) =
  inr (mkOrthoLayout (grid (Z.to_nat nrows) ncols 0 0) true nrows ncols 0).
Proof.
  unfold new_OrthoLayout, create_ortho_layout, check_thumbs.
  cbn [arg_thumbs arg_rows arg_columns arg_split validate_fields thumbs
       columns Layout.split Z.eqb].
  now rewrite rows_loop_split.
Qed.

(** X5. A split layout with at least one row and one column, and thumbs
    between 0 and columns, is as wide as its two column blocks and the
    gap, and as high as its rows, counting the thumb row when there is
    one. *)
Theorem split_layout_extents (nrows ncols nthumbs : Z) :
  (1 <= nrows)%Z -> (1 <= ncols)%Z -> (0 <= nthumbs <= ncols)%Z ->
  exists l,
    new_OrthoLayout (mkOrthoArgs true nrows ncols (Some nthumbs)) = inr l /\
    layout_width (to_layout l) =
    inr (2 * IZR ncols * IZR KEY_W + SPLIT_GAP) /\
    layout_height (to_layout l) =
    inr ((IZR nrows + (if (nthumbs =? 0)%Z then 0 else 1)) * IZR KEY_H).
Proof.
  intros Hrows Hcols Hthumbs.
  destruct (Z.eqb_spec nthumbs 0) as [Hz|Hz].
  - (* no thumb keys *)
    subst nthumbs. eexists. split; [apply new_OrthoLayout_no_thumbs|].
    cbn [to_layout ortho_keys]. unfold layout_width, layout_height.
    cbn [keys].
    assert (Hc : INR (Z.to_nat ncols - 1) = IZR ncols - 1).
    { rewrite minus_INR by lia. rewrite INR_to_nat by lia. simpl. lra. }
    assert (Hr : INR (Z.to_nat nrows - 1) = IZR nrows - 1).
    { rewrite minus_INR by lia. rewrite INR_to_nat by lia. simpl. lra. }
    assert (Hlast :
      nth ((Z.to_nat nrows - 1) * (2 * Z.to_nat ncols)
           + (Z.to_nat ncols + (Z.to_nat ncols - 1)))
        (grid (Z.to_nat nrows) ncols 0 0) (PhysicalKey_at 0 0) =
      PhysicalKey_at
        (0 + IZR (ncols * KEY_W) + SPLIT_GAP
         + INR (Z.to_nat ncols - 1) * IZR KEY_W + IZR KEY_W / 2)
        (0 + INR (Z.to_nat nrows - 1) * IZR KEY_H + IZR KEY_H / 2)).
    { rewrite grid_nth by lia.
      rewrite app_nth2 by (rewrite row_length; lia).
      rewrite row_length.
      replace (Z.to_nat ncols + (Z.to_nat ncols - 1) - Z.to_nat ncols)%nat
        with (Z.to_nat ncols - 1)%nat by lia.
      now rewrite row_nth by lia. }
    assert (Hin : In (nth ((Z.to_nat nrows - 1) * (2 * Z.to_nat ncols)
                          + (Z.to_nat ncols + (Z.to_nat ncols - 1)))
                       (grid (Z.to_nat nrows) ncols 0 0)
                       (PhysicalKey_at 0 0))
                    (grid (Z.to_nat nrows) ncols 0 0)).
    { apply nth_In. rewrite grid_length. nia. }
    rewrite Hlast in Hin.
    split.
    + apply py_max_unique.
      * apply in_map_iff. eexists. split; [|exact Hin].
        cbn [x_pos width PhysicalKey_at]. rewrite Hc, mult_IZR. lra.
      * apply Forall_forall. intros x Hx.
        apply in_map_iff in Hx as [k [<- Hk]].
        apply In_grid in Hk as [r [i [_ [Hi Hk]]]].
        apply INR_below in Hi as [Hi0 Hi1].
        assert (0 <= IZR KEY_W) by (unfold KEY_W; lra).
        destruct Hk as [-> | ->]; cbn [x_pos width PhysicalKey_at];
          rewrite ?mult_IZR; unfold SPLIT_GAP, KEY_W; lra.
    + apply py_max_unique.
      * apply in_map_iff. eexists. split; [|exact Hin].
        cbn [y_pos height PhysicalKey_at]. rewrite Hr. lra.
      * apply Forall_forall. intros x Hx.
        apply in_map_iff in Hx as [k [<- Hk]].
        apply In_grid in Hk as [r [i [Hr' [_ Hk]]]].
        apply INR_below in Hr' as [Hr0 Hr1].
        assert (0 <= IZR KEY_H) by (unfold KEY_H; lra).
        destruct Hk as [-> | ->]; cbn [y_pos height PhysicalKey_at]; unfold KEY_H; lra.
  - (* two thumb rows *)
    pose proof (new_OrthoLayout_split nrows Hz (proj2 Hthumbs)) as Hl.
    eexists. split; [exact Hl|].
    cbn [to_layout ortho_keys]. unfold layout_width, layout_height.
    cbn [keys]. unfold split_keys.
    assert (Hc : INR (Z.to_nat ncols - 1) = IZR ncols - 1).
    { rewrite minus_INR by lia. rewrite INR_to_nat by lia. simpl. lra. }
    assert (HW : 0 <= IZR KEY_W) by (unfold KEY_W; lra).
    assert (HH : 0 <= IZR KEY_H) by (unfold KEY_H; lra).
    assert (Hcr : 1 <= IZR ncols) by now apply IZR_le.
    assert (Htr : 1 <= IZR nthumbs <= IZR ncols)
      by (split; apply IZR_le; lia).
    split.
    + apply py_max_unique.
      * apply in_map_iff.
        exists (nth (0 * (2 * Z.to_nat ncols)
                     + (Z.to_nat ncols + (Z.to_nat ncols - 1)))
                  (grid (Z.to_nat nrows) ncols 0 0) (PhysicalKey_at 0 0)).
        split.
        -- rewrite grid_nth by lia.
           rewrite app_nth2 by (rewrite row_length; lia).
           rewrite row_length.
           replace (Z.to_nat ncols + (Z.to_nat ncols - 1)
                    - Z.to_nat ncols)%nat
             with (Z.to_nat ncols - 1)%nat by lia.
           rewrite row_nth by lia.
           cbn [x_pos width PhysicalKey_at]. rewrite Hc, mult_IZR. lra.
        -- apply in_or_app. left. apply nth_In. rewrite grid_length. nia.
      * apply Forall_forall. intros x Hx.
        apply in_map_iff in Hx as [k [<- Hk]].
        apply in_app_or in Hk as [Hk|Hk].
        -- apply In_grid in Hk as [r [i [_ [Hi Hk]]]].
           apply INR_below in Hi as [Hi0 Hi1].
           destruct Hk as [-> | ->]; cbn [x_pos width PhysicalKey_at];
             rewrite ?mult_IZR; unfold SPLIT_GAP, KEY_W; lra.
        -- apply in_app_or in Hk as [Hk|Hk];
             apply In_row in Hk as [i [Hi ->]];
             apply INR_below in Hi as [Hi0 Hi1];
             cbn [x_pos width PhysicalKey_at];
             rewrite ?mult_IZR, ?minus_IZR; unfold SPLIT_GAP, KEY_W; lra.
    + apply py_max_unique.
      * apply in_map_iff.
        exists (PhysicalKey_at
                  (IZR ((ncols - nthumbs) * KEY_W) + INR 0 * IZR KEY_W
                   + IZR KEY_W / 2)
                  (IZR (nrows * KEY_H) + IZR KEY_H / 2)).
        split.
        -- cbn [y_pos height PhysicalKey_at]. rewrite mult_IZR. lra.
        -- apply in_or_app. right. apply in_or_app. left.
           rewrite <- (@row_nth (Z.to_nat nthumbs) _ _ 0
                         (PhysicalKey_at 0 0)) by lia.
           apply nth_In. rewrite row_length. lia.
      * apply Forall_forall. intros x Hx.
        apply in_map_iff in Hx as [k [<- Hk]].
        apply in_app_or in Hk as [Hk|Hk].
        -- apply In_grid in Hk as [r [i [Hr' [_ Hk]]]].
           apply INR_below in Hr' as [Hr0 Hr1].
           destruct Hk as [-> | ->]; cbn [y_pos height PhysicalKey_at]; unfold KEY_H; lra.
        -- apply in_app_or in Hk as [Hk|Hk];
             apply In_row in Hk as [i [Hi ->]];
             cbn [y_pos height PhysicalKey_at]; rewrite mult_IZR; lra.
Qed.

(** The split layout of three rows, five columns and three thumb keys
    per half is 619.5 wide and 216 high. *)
Lemma split_layout_extents_witness :
  exists l,
    new_OrthoLayout (mkOrthoArgs true 3 5 (Some 3%Z)) = inr l /\
    layout_width (to_layout l) = inr (2 * 5 * IZR KEY_W + SPLIT_GAP) /\
    layout_height (to_layout l) = inr ((3 + 1) * IZR KEY_H).
Proof.
  exact (@split_layout_extents 3 5 3 ltac:(lia) ltac:(lia) ltac:(lia)).
Defined.

End LayoutMore.

(** ** The splitter, the glyph pattern and the escaping of text *)

Module TextMore.

Import Text TextProps.
Local Open Scope string_scope.

(** *** Tokens *)

(** The only white space of a token is the space. *)
Definition token_char (c : ascii) : bool :=
  negb (isspace c) || Ascii.eqb c SPACE.

Lemma string_forall_app (p : ascii -> bool) (s t : string) :
  string_forall p (s ++ t) = string_forall p s && string_forall p t.
Proof.
  induction s as [|c s IH]; [reflexivity|].
  cbn [append string_forall]. now rewrite IH, andb_assoc.
Qed.

Lemma split_from_words (s : string) :
  forall word,
    string_forall (fun c => negb (isspace c)) word = true ->
    Forall (fun w => is_empty w = false /\
                     string_forall (fun c => negb (isspace c)) w = true)
      (split_from word s).
Proof.
  induction s as [|c s IH]; intros word Hword; cbn [split_from].
  - destruct (is_empty word) eqn:He; constructor; [|constructor].
    now split.
  - destruct (isspace c) eqn:Hc.
    + destruct (is_empty word) eqn:He; [now apply IH|].
      constructor; [now split | now apply IH].
    + apply IH. rewrite string_forall_app, Hword.
      cbn [string_forall]. now rewrite Hc.
Qed.

(** X6. Every token that [_split_text] returns is not empty, and the only
    white space it may hold is the space (which stands for a double space
    of the text). *)
Theorem split_text_tokens (text w : string) :
  In w (_split_text text) ->
  w <> "" /\ string_forall token_char w = true.
Proof.
  rewrite split_text_unfold. intros H.
  apply in_map_iff in H as [w' [<- Hin]].
  pose proof (@split_from_words
                (str_replace "  " (String NUL "") text) "" eq_refl) as Hall.
  rewrite Forall_forall in Hall. destruct (Hall _ Hin) as [Hne Hns].
  split.
  - destruct w'; [discriminate | discriminate].
  - clear - Hns. induction w' as [|c w' IH]; [reflexivity|].
    cbn [string_forall string_map] in *.
    apply andb_true_iff in Hns as [Hc Hns]. rewrite IH by assumption.
    rewrite andb_true_r. unfold token_char, nul_to_space.
    destruct (Ascii.eqb c NUL); [reflexivity|]. now rewrite Hc.
Qed.

Lemma split_text_tokens_witness :
  "foo bar"%string <> "" /\ string_forall token_char "foo bar" = true.
Proof.
  apply (@split_text_tokens "foo  bar baz" "foo bar").
  vm_compute. now left.
Defined.

(** Two spaces in a row somewhere in the text. *)
Fixpoint has_double_space (s : string) : bool :=
  match s with
  | EmptyString => false
  | String _ s' => prefix "  " s || has_double_space s'
  end.

Lemma sentinel_no_double_space (s : string) :
  has_double_space s = false -> sentinel_from 0 s = s.
Proof.
  induction s as [|c s IH]; [reflexivity|].
  intros H. cbn [has_double_space] in H.
  apply orb_false_iff in H as [Hp Hs].
  rewrite sentinel_from_cons, Hp, IH by assumption. reflexivity.
Qed.

Lemma map_nul_free (s : string) :
  count_char NUL s = 0%nat -> string_map nul_to_space s = s.
Proof.
  induction s as [|c s IH]; [reflexivity|].
  cbn [count_char string_map]. unfold nul_to_space at 1.
  destruct (Ascii.eqb c NUL); [discriminate|].
  intros H. now rewrite IH.
Qed.

Lemma count_join (a : ascii) (l : list string) (w : string) :
  In w l -> (count_char a w <= count_char a (join_tokens l))%nat.
Proof.
  induction l as [|v l IH]; [contradiction|].
  cbn [join_tokens fold_right]. rewrite count_char_app.
  intros [->|H]; [lia|]. apply IH in H. unfold join_tokens in H. lia.
Qed.

(** X7. On a text without NUL and without two spaces in a row,
    [_split_text] is the plain split on white space. *)
Theorem split_text_plain (text : string) :
  count_char NUL text = 0%nat ->
  has_double_space text = false ->
  _split_text text = str_split text.
Proof.
  intros Hnul Hdbl. rewrite split_text_unfold.
  change (str_replace "  " (String NUL "")) with (sentinel_from 0).
  rewrite sentinel_no_double_space by assumption.
  rewrite <- (map_id (str_split text)) at 2.
  apply map_ext_in. intros w Hw. apply map_nul_free.
  pose proof (count_join NUL _ _ Hw) as Hle.
  unfold str_split in Hle. rewrite (join_split_from text "") in Hle.
  cbn [append] in Hle. rewrite count_nul_visible in Hle. lia.
Qed.

Lemma split_text_plain_witness :
  _split_text "Ctrl Alt Del" = str_split "Ctrl Alt Del".
Proof.
  apply split_text_plain; reflexivity.
Defined.

(** *** The glyph pattern *)

(** The text after two dollars at the head of [s]. *)
Definition after_dollars (s : string) : option string :=
  match s with
  | String a (String b rest) =>
      if Ascii.eqb a DOLLAR && Ascii.eqb b DOLLAR then Some rest else None
  | _ => None
  end.

Lemma dollar_match (A : Type) (c : ascii) (yes no : A) :
  match c with
  | "$"%char => yes
  | _ => no
  end = if Ascii.eqb c DOLLAR then yes else no.
Proof.
  destruct c as [[|] [|] [|] [|] [|] [|] [|] [|]]; reflexivity.
Qed.

Lemma glyph_name_search_cons (c : ascii) (s : string) :
  glyph_name_search (String c s) =
  match match after_dollars (String c s) with
        | Some rest => glyph_group rest
        | None => None
        end with
  | Some g => Some g
  | None => glyph_name_search s
  end.
Proof.
  cbn [glyph_name_search after_dollars].
  destruct s as [|d rest].
  - rewrite dollar_match. now destruct (Ascii.eqb c DOLLAR).
  - rewrite dollar_match.
    destruct (Ascii.eqb c DOLLAR); cbn [andb]; [|reflexivity].
    rewrite dollar_match. now destruct (Ascii.eqb d DOLLAR).
Qed.

Definition no_newline (s : string) : bool :=
  string_forall (fun c => negb (Ascii.eqb c NEWLINE)) s.

Lemma prefix_dollars (s : string) :
  prefix "$$" s = true -> exists post, s = "$$" ++ post.
Proof.
  destruct s as [|a [|b post]].
  - discriminate.
  - rewrite prefix_cons. change (prefix "$" "") with false.
    rewrite andb_false_r. discriminate.
  - rewrite !prefix_cons, prefix_empty. intros H.
    apply andb_true_iff in H as [Ha H].
    apply andb_true_iff in H as [Hb _].
    apply Ascii.eqb_eq in Ha, Hb. subst. now exists post.
Qed.

Lemma glyph_group_sound (s g : string) :
  glyph_group s = Some g ->
  no_newline g = true /\ exists post, s = g ++ "$$" ++ post.
Proof.
  revert g. induction s as [|c s IH]; intros g; [discriminate|].
  cbn [glyph_group].
  destruct (Ascii.eqb c NEWLINE) eqn:Hc.
  - destruct (prefix "$$" (String c s)) eqn:Hp; [|discriminate].
    intros H. injection H as <-. split; [reflexivity|].
    now apply prefix_dollars.
  - destruct (glyph_group s) as [g'|] eqn:Hg; cbn [option_map].
    + intros H. injection H as <-.
      destruct (IH g' eq_refl) as [Hn [post ->]]. split.
      * unfold no_newline in *. cbn [string_forall]. now rewrite Hc, Hn.
      * now exists post.
    + destruct (prefix "$$" (String c s)) eqn:Hp; [|discriminate].
      intros H. injection H as <-. split; [reflexivity|].
      now apply prefix_dollars.
Qed.

Lemma after_dollars_sound (s rest : string) :
  after_dollars s = Some rest -> s = "$$" ++ rest.
Proof.
  destruct s as [|a [|b r]]; cbn [after_dollars]; try discriminate.
  destruct (Ascii.eqb_spec a DOLLAR) as [->|]; [|discriminate].
  destruct (Ascii.eqb_spec b DOLLAR) as [->|]; [|discriminate].
  cbn [andb]. intros H. now injection H as <-.
Qed.

Lemma glyph_name_search_sound (s g : string) :
  glyph_name_search s = Some g ->
  no_newline g = true /\
  exists pre post, s = pre ++ "$$" ++ g ++ "$$" ++ post.
Proof.
  induction s as [|c s IH]; [discriminate|].
  rewrite glyph_name_search_cons.
  destruct (after_dollars (String c s)) as [rest|] eqn:Ha.
  - destruct (glyph_group rest) as [g'|] eqn:Hg.
    + intros H. injection H as <-.
      apply glyph_group_sound in Hg as [Hn [post ->]].
      apply after_dollars_sound in Ha. split; [exact Hn|].
      exists "", post. exact Ha.
    + intros H. destruct (IH H) as [Hn [pre [post ->]]].
      split; [exact Hn|]. now exists (String c pre), post.
  - intros H. destruct (IH H) as [Hn [pre [post ->]]].
    split; [exact Hn|]. now exists (String c pre), post.
Qed.

(** X8. When [_is_glyph] returns a name, the legend is a single token,
    the name holds no newline, and the token holds the name between two
    pairs of dollars (with anything before and after them). *)
Theorem is_glyph_sound (words : list string) (glyph : string) :
  _is_glyph words = Some glyph ->
  no_newline glyph = true /\
  exists pre post, words = [pre ++ "$$" ++ glyph ++ "$$" ++ post].
Proof.
  destruct words as [|w [|w' ws]]; cbn [_is_glyph]; try discriminate.
  intros H. apply glyph_name_search_sound in H as [Hn [pre [post ->]]].
  split; [exact Hn|]. now exists pre, post.
Qed.

Lemma is_glyph_sound_witness :
  no_newline "icon" = true /\
  exists pre post,
    ["$$icon$$extra"] = [pre ++ "$$" ++ "icon" ++ "$$" ++ post].
Proof.
  apply (@is_glyph_sound ["$$icon$$extra"] "icon"). vm_compute. reflexivity.
Defined.

Lemma glyph_group_cons (c : ascii) (s : string) :
  glyph_group (String c s) =
  match (if Ascii.eqb c NEWLINE then None
         else option_map (String c) (glyph_group s)) with
  | Some g => Some g
  | None => if prefix "$$" (String c s) then Some "" else None
  end.
Proof. reflexivity. Qed.

Lemma glyph_group_complete (g post : string) :
  no_newline g = true ->
  exists g', glyph_group (g ++ "$$" ++ post) = Some g'.
Proof.
  intros Hn. induction g as [|c g IH].
  - cbn [append]. destruct post as [|d post].
    + now exists "".
    + change ("$$" ++ String d post)
        with (String DOLLAR (String DOLLAR (String d post))).
      rewrite glyph_group_cons.
      match goal with
      | |- exists _, match ?m with Some _ => _ | None => _ end = _ =>
          destruct m as [g'|]; [now exists g'|]
      end.
      rewrite !prefix_cons, prefix_empty. unfold DOLLAR.
      rewrite Ascii.eqb_refl. now exists "".
  - unfold no_newline in Hn. cbn [string_forall] in Hn.
    apply andb_true_iff in Hn as [Hc Hn]. apply negb_true_iff in Hc.
    destruct (IH Hn) as [g' Hg'].
    change (String c g ++ "$$" ++ post) with (String c (g ++ "$$" ++ post)).
    rewrite glyph_group_cons, Hc, Hg'. cbn [option_map]. now eexists.
Qed.

Lemma glyph_name_search_dollars (rest : string) :
  glyph_name_search (String DOLLAR (String DOLLAR rest)) =
  match glyph_group rest with
  | Some g => Some g
  | None => glyph_name_search (String DOLLAR rest)
  end.
Proof. reflexivity. Qed.

Lemma glyph_name_search_complete (pre g post : string) :
  no_newline g = true ->
  exists g', glyph_name_search (pre ++ "$$" ++ g ++ "$$" ++ post) = Some g'.
Proof.
  intros Hn. induction pre as [|c pre IH].
  - change ("" ++ "$$" ++ g ++ "$$" ++ post)
      with (String DOLLAR (String DOLLAR (g ++ "$$" ++ post))).
    rewrite glyph_name_search_dollars.
    destruct (glyph_group_complete g post Hn) as [g' ->]. now exists g'.
  - cbn [append]. rewrite glyph_name_search_cons.
    destruct (match after_dollars _ with Some _ => _ | None => _ end)
      as [g'|]; [now exists g' | exact IH].
Qed.

(** X9. A legend of one token that holds, anywhere, a text without
    newline between two pairs of dollars is a glyph reference (the
    pattern is searched, not matched against the whole token); when the
    token is exactly a name between two pairs of dollars, the reference
    is to that name. *)
Theorem is_glyph_complete (pre name post : string) :
  no_newline name = true ->
  (exists glyph,
     _is_glyph [pre ++ "$$" ++ name ++ "$$" ++ post] = Some glyph) /\
  _is_glyph ["$$" ++ name ++ "$$"] = Some name.
Proof.
  intros Hn. split.
  - cbn [_is_glyph]. now apply glyph_name_search_complete.
  - cbn [_is_glyph append].
    change (String "$" (String "$" (name ++ "$$")))
      with (String DOLLAR (String DOLLAR (name ++ "$$"))).
    rewrite glyph_name_search_dollars.
    now rewrite glyph_group_name.
Qed.

Lemma is_glyph_complete_witness :
  (exists glyph, _is_glyph ["see $$mdi:home$$ key"] = Some glyph) /\
  _is_glyph ["$$mdi:home$$"] = Some "mdi:home".
Proof.
  exact (@is_glyph_complete "see " "mdi:home" " key" eq_refl).
Defined.

(** *** Escaping *)

(** Every character of [s] replaced by the string [f] gives for it. *)
Fixpoint expand (f : ascii -> string) (s : string) : string :=
  match s with
  | EmptyString => EmptyString
  | String c s' => f c ++ expand f s'
  end.

Definition replace_char (old : ascii) (new : string) (c : ascii) : string :=
  if Ascii.eqb old c then new else String c "".

Definition QUOTE : ascii := ascii_of_nat 34.

(** The entity that stands for a character in an escaped text. *)
Definition entity (c : ascii) : string :=
  if Ascii.eqb c "&" then "&amp;"
  else if Ascii.eqb c "<" then "&lt;"
  else if Ascii.eqb c ">" then "&gt;"
  else if Ascii.eqb c QUOTE then "&quot;"
  else if Ascii.eqb c "'" then "&#x27;"
  else String c "".

(** The characters that open or close a tag or an attribute value. *)
Definition markup_char (c : ascii) : bool :=
  Ascii.eqb c "<" || Ascii.eqb c ">" || Ascii.eqb c QUOTE || Ascii.eqb c "'".

Definition special_char (c : ascii) : bool :=
  Ascii.eqb c "&" || markup_char c.

Definition markup_free (s : string) : bool :=
  string_forall (fun c => negb (markup_char c)) s.

Definition special_free (s : string) : bool :=
  string_forall (fun c => negb (special_char c)) s.

Lemma str_replace_char (old : ascii) (new s : string) :
  str_replace (String old "") new s = expand (replace_char old new) s.
Proof.
  unfold str_replace. induction s as [|c s IH]; [reflexivity|].
  cbn [replace_from expand]. rewrite prefix_cons, prefix_empty, andb_true_r.
  unfold replace_char at 1. destruct (Ascii.eqb old c).
  - cbn [String.length Nat.sub]. now rewrite IH.
  - now rewrite IH.
Qed.

Lemma expand_app (f : ascii -> string) (s t : string) :
  expand f (s ++ t) = expand f s ++ expand f t.
Proof.
  induction s as [|c s IH]; [reflexivity|].
  cbn [append expand]. now rewrite IH, append_assoc.
Qed.

Lemma expand_expand (f g : ascii -> string) (s : string) :
  expand g (expand f s) = expand (fun c => expand g (f c)) s.
Proof.
  induction s as [|c s IH]; [reflexivity|].
  cbn [expand]. now rewrite expand_app, IH.
Qed.

Lemma expand_ext (f g : ascii -> string) (s : string) :
  (forall c, f c = g c) -> expand f s = expand g s.
Proof.
  intros Hfg. induction s as [|c s IH]; [reflexivity|].
  cbn [expand]. now rewrite Hfg, IH.
Qed.

Ltac each_char c :=
  destruct c as [[|] [|] [|] [|] [|] [|] [|] [|]].

(** The five replacements of [escape], one after the other, amount to one
    pass over the text: the ampersands of the entities are not escaped
    again, the ampersand being replaced first. *)
Lemma escape_expand (s : string) : escape s = expand entity s.
Proof.
  unfold escape. cbv zeta.
  change (String (ascii_of_nat 34) "") with (String QUOTE "").
  rewrite !str_replace_char, !expand_expand. apply expand_ext.
  intros c. each_char c; vm_compute; reflexivity.
Qed.

Lemma entity_markup_free (c : ascii) : markup_free (entity c) = true.
Proof. each_char c; vm_compute; reflexivity. Qed.

Lemma entity_plain (c : ascii) :
  special_char c = false -> entity c = String c "".
Proof. each_char c; vm_compute; intros H; try reflexivity; discriminate H. Qed.

Lemma entity_special (c : ascii) :
  special_char c = true -> (2 <= String.length (entity c))%nat.
Proof.
  each_char c; vm_compute; intros H; try discriminate H;
    repeat constructor.
Qed.

Lemma entity_length (c : ascii) : (1 <= String.length (entity c))%nat.
Proof.
  destruct (special_char c) eqn:Hc.
  - apply entity_special in Hc. lia.
  - rewrite (entity_plain _ Hc). cbn. lia.
Qed.

Lemma length_append (s t : string) :
  String.length (s ++ t) = (String.length s + String.length t)%nat.
Proof. induction s as [|c s IH]; cbn; [reflexivity | now rewrite IH]. Qed.

Lemma expand_entity_length (s : string) :
  (String.length s <= String.length (expand entity s))%nat /\
  (special_free s = false ->
   (String.length s < String.length (expand entity s))%nat).
Proof.
  induction s as [|c s [IH1 IH2]]; [split; [cbn; lia | discriminate]|].
  cbn [expand]. rewrite length_append. cbn [String.length].
  pose proof (entity_length c) as Hc. split; [lia|].
  unfold special_free. cbn [string_forall]. intros H.
  apply andb_false_iff in H as [H|H].
  - apply negb_false_iff, entity_special in H. lia.
  - specialize (IH2 H). lia.
Qed.

(** [escape] replaces each of the five special characters by its
    entity in one pass; its result holds none of the characters that open
    or close a tag or an attribute value; and it returns a text unchanged
    exactly when the text holds none of the five. *)
Lemma escape_entities (s : string) :
  escape s = expand entity s /\
  markup_free (escape s) = true /\
  (escape s = s <-> special_free s = true).
Proof.
  rewrite escape_expand. split; [reflexivity|]. split.
  - induction s as [|c s IH]; [reflexivity|].
    cbn [expand]. unfold markup_free in *.
    rewrite string_forall_app, IH, andb_true_r. apply entity_markup_free.
  - split.
    + intros H. destruct (special_free s) eqn:Hs; [reflexivity|].
      apply expand_entity_length in Hs. rewrite H in Hs. lia.
    + unfold special_free. induction s as [|c s IH]; [reflexivity|].
      cbn [string_forall expand]. intros H.
      apply andb_true_iff in H as [Hc H]. apply negb_true_iff in Hc.
      now rewrite (entity_plain _ Hc), IH.
Qed.

End TextMore.

(** * More on the drawer *)

Module DrawMore.

Import Layout Text Draw LayoutProps TextProps DrawProps LayoutMore TextMore.
Local Open Scope R_scope.
Local Open Scope string_scope.

(** *** What a computation writes *)

(** Every chunk the computation writes satisfies [P]. *)
Definition writes (P : Chunk -> bool) (A : Type) (m : M A) : Prop :=
  forallb P (snd m) = true.

Section Writes.

Variable P : Chunk -> bool.

Lemma writes_ret (A : Type) (a : A) : writes P (ret a).
Proof. reflexivity. Qed.

Lemma writes_raise (A : Type) (e : exn) : writes P (raise A e).
Proof. reflexivity. Qed.

Lemma writes_lift (A : Type) (r : exn + A) : writes P (lift r).
Proof. reflexivity. Qed.

Lemma writes_write (c : Chunk) : P c = true -> writes P (write c).
Proof. unfold writes. cbn. now intros ->. Qed.

Lemma writes_bind (A B : Type) (m : M A) (f : A -> M B) :
  writes P m -> (forall a, writes P (f a)) -> writes P (bind m f).
Proof.
  unfold writes. intros Hm Hf. rewrite snd_bind, forallb_app, Hm.
  destruct (fst m); [reflexivity | apply Hf].
Qed.

Lemma writes_for_each (A : Type) (l : list A) (f : A -> M unit) :
  (forall a, writes P (f a)) -> writes P (for_each l f).
Proof.
  intros Hf. induction l as [|a l IH]; [reflexivity|].
  cbn [for_each]. apply writes_bind; [apply Hf | intros _; exact IH].
Qed.

End Writes.

(** *** Escaped text *)

(** The text between the tags of a chunk, when it has one, holds no
    character that opens or closes a tag or an attribute value. *)
Definition text_escaped (c : Chunk) : bool :=
  match c with
  | TextElem _ _ _ word | TSpanFirst _ _ word | TSpan _ _ word =>
      markup_free word
  | _ => true
  end.

(** The chunks that the keys and the combos of a layer are made of: the
    elements of a key or of a combo box, with escaped text. *)
Definition layer_chunk (c : Chunk) : bool :=
  match c with
  | Rect _ _ _ _ _ _ _ | TextOpen _ _ _ | TextClose | Use _ _ _ _ _ _
  | ArcPath _ _ _ _ _ _ _ | LinePath _ _ | RotateOpen _ _ _ | GroupClose =>
      true
  | TextElem _ _ _ word | TSpanFirst _ _ word | TSpan _ _ word =>
      markup_free word
  | _ => false
  end.

Lemma writes_weaken (P Q : Chunk -> bool) (A : Type) (m : M A) :
  (forall c, P c = true -> Q c = true) -> writes P m -> writes Q m.
Proof.
  unfold writes. intros HPQ H. rewrite forallb_forall in *.
  intros c Hc. apply HPQ, H, Hc.
Qed.

Lemma layer_chunk_escaped (c : Chunk) :
  layer_chunk c = true -> text_escaped c = true.
Proof. now destruct c. Qed.

Lemma escaped_draw_text (p : Point) (word : string) (classes : list string) :
  writes layer_chunk (_draw_text p word classes).
Proof.
  unfold _draw_text. destruct (is_empty word); [reflexivity|].
  apply writes_write. apply escape_entities.
Qed.

Lemma escaped_draw_textblock (self : KeymapDrawer) (p : Point)
  (words : list string) (classes : list string) (shift : R) :
  writes layer_chunk (_draw_textblock self p words classes shift).
Proof.
  unfold _draw_textblock. apply writes_bind; [reflexivity|]. intros _.
  destruct words as [|word_0 rest]; [reflexivity|].
  apply writes_bind; [apply writes_write, escape_entities|]. intros _.
  apply writes_bind; [|reflexivity].
  apply writes_for_each. intros word. apply writes_write, escape_entities.
Qed.

Lemma escaped_draw_glyph (self : KeymapDrawer) (p : Point) (name : string)
  (legend_type : LegendType) (classes : list string) :
  writes layer_chunk (_draw_glyph self p name legend_type classes).
Proof.
  unfold _draw_glyph.
  destruct (dict_get name (glyphs (cfg self))) as [glyph|]; [|reflexivity].
  destruct (is_empty glyph); [reflexivity|].
  destruct (_view_box_dimensions self glyph) as [[[[x y] w] h]|];
    [|reflexivity].
  destruct legend_type; destruct (Reqb (h - y) 0); reflexivity.
Qed.

Lemma escaped_draw_legend (self : KeymapDrawer) (p : Point)
  (words : list string) (key_type : string) (legend_type : LegendType)
  (shift : R) :
  writes layer_chunk (_draw_legend self p words key_type legend_type shift).
Proof.
  unfold _draw_legend. destruct words as [|word_0 rest]; [reflexivity|].
  assert (Htext : writes layer_chunk
            match word_0 :: rest with
            | [_] => _draw_text p word_0 [key_type; legend_name legend_type]
            | _ => _draw_textblock self p (word_0 :: rest)
                     [key_type; legend_name legend_type] shift
            end).
  { destruct rest; [apply escaped_draw_text | apply escaped_draw_textblock]. }
  destruct (_is_glyph (word_0 :: rest)) as [glyph|]; [|exact Htext].
  destruct (is_empty glyph); [exact Htext|].
  apply writes_bind; [apply escaped_draw_glyph|].
  intros [|]; [reflexivity | exact Htext].
Qed.

Lemma escaped_print_key (self : KeymapDrawer) (p_0 : Point)
  (p_key : PhysicalKey) (l_key : LayoutKey) :
  writes layer_chunk (print_key self p_0 p_key l_key).
Proof.
  unfold print_key.
  apply writes_bind; [now destruct (Reqb (rotation p_key) 0)|]. intros _.
  apply writes_bind; [reflexivity|]. intros _.
  repeat (apply writes_bind; [apply escaped_draw_legend|]; intros _).
  now destruct (Reqb (rotation p_key) 0).
Qed.

Lemma escaped_draw_arc_dendron (self : KeymapDrawer) (p_1 p_2 : Point)
  (x_first : bool) (shorten : R) :
  writes layer_chunk (_draw_arc_dendron self p_1 p_2 x_first shorten).
Proof. unfold _draw_arc_dendron. now destruct x_first. Qed.

Lemma escaped_draw_line_dendron (p_1 p_2 : Point) (shorten : R) :
  writes layer_chunk (_draw_line_dendron p_1 p_2 shorten).
Proof.
  unfold _draw_line_dendron.
  destruct (negb (Reqb shorten 0) && Rltb shorten (pabs (psub p_2 p_1)));
    [|reflexivity].
  now destruct (Reqb (pabs (psub p_2 p_1)) 0).
Qed.

Lemma escaped_draw_dendrons (self : KeymapDrawer) (p_0 p : Point)
  (combo : ComboSpec) (p_keys : list PhysicalKey) :
  writes layer_chunk (draw_dendrons self p_0 p combo p_keys).
Proof.
  unfold draw_dendrons.
  assert (H : writes layer_chunk
    match align combo with
    | align_top | align_bottom =>
        for_each p_keys (fun k =>
          let offset :=
            if Rltb (Rabs (pt_x p_0 + pt_x (pos k) - pt_x p))
                 (combo_w (cfg self) / 2)
            then height k / 5 else height k / 3 in
          _draw_arc_dendron self p (padd p_0 (pos k)) true offset)
    | align_left | align_right =>
        for_each p_keys (fun k =>
          let offset :=
            if Rltb (Rabs (pt_y p_0 + pt_y (pos k) - pt_y p))
                 (combo_h (cfg self) / 2)
            then width k / 5 else width k / 3 in
          _draw_arc_dendron self p (padd p_0 (pos k)) false offset)
    | align_mid =>
        for_each p_keys (fun k =>
          if match dendron combo with Some true => true | _ => false end
             || Rleb (width k - 1) (pabs (psub (padd p_0 (pos k)) p))
          then _draw_line_dendron p (padd p_0 (pos k)) (width k / 3)
          else ret tt)
    end).
  { destruct (align combo); apply writes_for_each; intros k;
      try apply escaped_draw_arc_dendron.
    destruct (_ || _); [apply escaped_draw_line_dendron | reflexivity]. }
  destruct (dendron combo) as [[|]|]; [exact H | reflexivity | exact H].
Qed.

Lemma escaped_print_combo (self : KeymapDrawer) (p_0 : Point)
  (combo : ComboSpec) :
  writes layer_chunk (print_combo self p_0 combo).
Proof.
  unfold print_combo.
  do 3 (apply writes_bind; [apply writes_lift|]; intros ?).
  apply writes_bind; [apply escaped_draw_dendrons|]. intros _.
  apply writes_bind; [reflexivity|]. intros _.
  repeat (apply writes_bind; [apply escaped_draw_legend|]; intros _).
  apply escaped_draw_legend.
Qed.

Lemma escaped_print_layer (self : KeymapDrawer) (p_0 : Point)
  (layer_keys : list LayoutKey) (combos : list ComboSpec)
  (empty_layer : bool) :
  writes layer_chunk (print_layer self p_0 layer_keys combos empty_layer).
Proof.
  unfold print_layer. apply writes_bind.
  - apply writes_for_each. intros kl. apply escaped_print_key.
  - intros _. apply writes_for_each. intros c. apply escaped_print_combo.
Qed.

Lemma escaped_print_layers (self : KeymapDrawer) (layers : Layers)
  (combos_per_layer : list (string * list ComboSpec))
  (offsets_per_layer : list (string * (R * R))) (combos_only : bool) :
  forall p,
  writes text_escaped
    (print_layers self p layers combos_per_layer offsets_per_layer
       combos_only).
Proof.
  induction layers as [|[name layer_keys] layers IH]; intros p;
    [reflexivity|].
  cbn [print_layers].
  apply writes_bind; [reflexivity|]. intros _.
  apply writes_bind.
  { apply writes_weaken with (1 := layer_chunk_escaped).
    apply escaped_draw_text. }
  intros _.
  apply writes_bind; [apply writes_lift|]. intros offsets.
  apply writes_bind; [apply writes_lift|]. intros combos.
  apply writes_bind.
  { apply writes_weaken with (1 := layer_chunk_escaped).
    apply escaped_print_layer. }
  intros _.
  apply writes_bind; [apply writes_lift|]. intros offsets'.
  apply writes_bind; [apply writes_lift|]. intros h.
  apply writes_bind; [reflexivity|]. intros _. apply IH.
Qed.

(** X10. In everything [print_board] writes, whether it returns or
    raises, with any arguments, the text between the tags of a text
    element or of a span holds none of the characters that open or
    close a tag or an attribute value: it went through [escape]. *)
Theorem print_board_text_escaped (self : KeymapDrawer)
  (draw_layers : option (list string)) (keys_only combos_only : bool) :
  forallb text_escaped
    (snd (print_board self draw_layers keys_only combos_only)) = true.
Proof.
  change (writes text_escaped
            (print_board self draw_layers keys_only combos_only)).
  unfold print_board.
  apply writes_bind.
  { destruct draw_layers as [[|n names]|]; try reflexivity.
    now destruct (forallb _ _). }
  intros layers.
  do 3 (apply writes_bind; [apply writes_lift|]; intros ?).
  do 2 (apply writes_bind; [reflexivity|]; intros _).
  apply writes_bind.
  { apply writes_for_each. intros nb.
    repeat (apply writes_bind; [reflexivity|]; intros _). reflexivity. }
  intros _.
  do 2 (apply writes_bind; [reflexivity|]; intros _).
  apply writes_bind; [apply escaped_print_layers | reflexivity].
Qed.

(** *** Where a dendron ends *)

(** The relative move of a segment, and the point where a written path
    ends: its moves are relative, each starts where the one before it
    ended. *)
Definition seg_move (s : Segment) : Point :=
  match s with
  | seg_h d => mkPoint d 0
  | seg_v d => mkPoint 0 d
  end.

Definition path_end (c : Chunk) : option Point :=
  match c with
  | ArcPath start line_1 _ _ arc_x arc_y line_2 =>
      Some (padd (padd (padd start (seg_move line_1)) (mkPoint arc_x arc_y))
              (seg_move line_2))
  | LinePath start line => Some (padd start line)
  | _ => None
  end.

Lemma copysign_abs (a b : R) : Rabs (copysign a b) = Rabs a.
Proof.
  unfold copysign. destruct (Rltb b 0).
  - now rewrite Rabs_Ropp, Rabs_Rabsolu.
  - apply Rabs_Rabsolu.
Qed.

Lemma copysign_towards (a b : R) :
  0 <= a <= Rabs b ->
  Rmin 0 b <= b - copysign a b <= Rmax 0 b.
Proof.
  intros [Ha Hb]. unfold copysign, Rltb.
  rewrite (Rabs_pos_eq a Ha).
  destruct (Rlt_dec b 0) as [Hneg|Hpos].
  - rewrite Rabs_left in Hb by exact Hneg.
    rewrite Rmin_right, Rmax_left by lra. lra.
  - rewrite Rabs_pos_eq in Hb by lra.
    rewrite Rmin_left, Rmax_right by lra. lra.
Qed.

(** X11. [_draw_arc_dendron] writes one path and does not raise. The
    radius of the arc cancels out of where the path ends: along the axis
    of its first line the path covers the share [arc_scale] of the way
    from [p_1] to [p_2], and along the other axis it ends at the distance
    [shorten] (in absolute value) from [p_2]; when [shorten] is between
    zero and that way, it ends between the two points. *)
Theorem arc_dendron_end (self : KeymapDrawer) (p_1 p_2 : Point)
  (x_first : bool) (shorten : R) :
  exists c e,
    _draw_arc_dendron self p_1 p_2 x_first shorten = (inr tt, [c]) /\
    path_end c = Some e /\
    let along (p : Point) := if x_first then pt_x p else pt_y p in
    let across (p : Point) := if x_first then pt_y p else pt_x p in
    along e = along p_1 + arc_scale (cfg self) * (along p_2 - along p_1) /\
    Rabs (across p_2 - across e) = Rabs shorten /\
    (0 <= shorten <= Rabs (across p_2 - across p_1) ->
     Rmin (across p_1) (across p_2) <= across e
       <= Rmax (across p_1) (across p_2)).
Proof.
  unfold _draw_arc_dendron. destruct x_first.
  - eexists. eexists. split; [reflexivity|]. split; [reflexivity|].
    cbn [path_end seg_move padd pt_x pt_y]. split; [ring|]. split.
    + match goal with
      | |- Rabs ?t = _ =>
          replace t with (copysign shorten (pt_y p_2 - pt_y p_1)) by ring
      end.
      apply copysign_abs.
    + intros Hs. apply copysign_towards in Hs.
      assert (Hmin : Rmin (pt_y p_1) (pt_y p_2)
                     = pt_y p_1 + Rmin 0 (pt_y p_2 - pt_y p_1)).
      { unfold Rmin.
        destruct (Rle_dec (pt_y p_1) (pt_y p_2)),
                 (Rle_dec 0 (pt_y p_2 - pt_y p_1)); lra. }
      assert (Hmax : Rmax (pt_y p_1) (pt_y p_2)
                     = pt_y p_1 + Rmax 0 (pt_y p_2 - pt_y p_1)).
      { unfold Rmax.
        destruct (Rle_dec (pt_y p_1) (pt_y p_2)),
                 (Rle_dec 0 (pt_y p_2 - pt_y p_1)); lra. }
      rewrite Hmin, Hmax. lra.
  - eexists. eexists. split; [reflexivity|]. split; [reflexivity|].
    cbn [path_end seg_move padd pt_x pt_y]. split; [ring|]. split.
    + match goal with
      | |- Rabs ?t = _ =>
          replace t with (copysign shorten (pt_x p_2 - pt_x p_1)) by ring
      end.
      apply copysign_abs.
    + intros Hs. apply copysign_towards in Hs.
      assert (Hmin : Rmin (pt_x p_1) (pt_x p_2)
                     = pt_x p_1 + Rmin 0 (pt_x p_2 - pt_x p_1)).
      { unfold Rmin.
        destruct (Rle_dec (pt_x p_1) (pt_x p_2)),
                 (Rle_dec 0 (pt_x p_2 - pt_x p_1)); lra. }
      assert (Hmax : Rmax (pt_x p_1) (pt_x p_2)
                     = pt_x p_1 + Rmax 0 (pt_x p_2 - pt_x p_1)).
      { unfold Rmax.
        destruct (Rle_dec (pt_x p_1) (pt_x p_2)),
                 (Rle_dec 0 (pt_x p_2 - pt_x p_1)); lra. }
      rewrite Hmin, Hmax. lra.
Qed.

(** *** Where a combo box is placed *)


Lemma py_max_bound (A : Type) (f : A -> R) (l : list A) :
  l <> [] ->
  exists m, py_max (map f l) = inr m /\
            (exists a, In a l /\ f a = m) /\
            forall a, In a l -> f a <= m.
Proof.
  intros Hl. pose proof (py_max_spec (map f l)) as H.
  destruct (py_max (map f l)) as [e|m].
  - apply map_eq_nil in H. contradiction.
  - exists m. destruct H as [Hin Hall]. split; [reflexivity|]. split.
    + apply in_map_iff in Hin as [a [Ha Hin]]. now exists a.
    + intros a Ha. rewrite Forall_forall in Hall. apply Hall.
      apply in_map_iff. now exists a.
Qed.








(** *** Combos that cannot be placed *)

(** [p] is not an index of a list of [n] elements. *)
Definition out_of_range (n : nat) (p : Z) : bool :=
  ((p <? - Z.of_nat n) || (Z.of_nat n <=? p))%Z.

Definition is_some (A : Type) (o : option A) : bool :=
  match o with
  | Some _ => true
  | None => false
  end.

Lemma py_index_out (A : Type) (l : list A) (p : Z) :
  out_of_range (List.length l) p = true -> py_index l p = inl IndexError.
Proof.
  unfold out_of_range, py_index. intros H.
  apply orb_true_iff in H as [H|H].
  - apply Z.ltb_lt in H.
    destruct (Z.ltb_spec p 0) as [Hp|Hp]; [|lia].
    destruct (Z.leb_spec 0 (p + Z.of_nat (List.length l))) as [H0|H0];
      [lia | reflexivity].
  - apply Z.leb_le in H.
    destruct (Z.ltb_spec p 0) as [Hp|Hp]; [lia|].
    destruct (Z.ltb_spec p (Z.of_nat (List.length l))) as [H0|H0]; [lia|].
    now rewrite andb_false_r.
Qed.

Lemma py_index_in (A : Type) (l : list A) (p : Z) :
  out_of_range (List.length l) p = false -> exists a, py_index l p = inr a.
Proof.
  unfold out_of_range, py_index. intros H.
  apply orb_false_iff in H as [H1 H2].
  apply Z.ltb_ge in H1. apply Z.leb_gt in H2.
  set (i := if (p <? 0)%Z then (p + Z.of_nat (List.length l))%Z else p).
  assert (Hi : (0 <= i < Z.of_nat (List.length l))%Z).
  { unfold i. destruct (Z.ltb_spec p 0); lia. }
  destruct (Z.leb_spec 0 i) as [_|]; [|lia].
  destruct (Z.ltb_spec i (Z.of_nat (List.length l))) as [_|]; [|lia].
  cbn [andb].
  destruct (nth_error l (Z.to_nat i)) as [a|] eqn:Hn; [now exists a|].
  apply nth_error_None in Hn. lia.
Qed.

Lemma map_exn_index (A : Type) (l : list A) (ps : list Z) :
  if existsb (out_of_range (List.length l)) ps
  then map_exn (py_index l) ps = inl IndexError
  else exists found, map_exn (py_index l) ps = inr found /\
                     List.length found = List.length ps.
Proof.
  induction ps as [|p ps IH]; [now exists []|].
  cbn [existsb map_exn].
  destruct (out_of_range (List.length l) p) eqn:Hp; cbn [orb].
  - now rewrite (py_index_out _ _ Hp).
  - destruct (py_index_in _ _ Hp) as [a ->].
    destruct (existsb (out_of_range (List.length l)) ps).
    + now rewrite IH.
    + destruct IH as [found [-> Hlen]]. exists (a :: found).
      split; [reflexivity|]. cbn [List.length]. now rewrite Hlen.
Qed.

(** X13. [print_combo] raises, with nothing written, for a combo that
    names a key position outside the layout (IndexError; a negative
    position counts from the end), else for one without key positions
    (the mean of no positions divides by zero), else for one with a
    single key position and a slide (the two keys furthest from the mean
    cannot be unpacked). *)
Theorem print_combo_rejects (self : KeymapDrawer) (p_0 : Point)
  (combo : ComboSpec) :
  let n := List.length (keys (layout self)) in
  let outside := existsb (out_of_range n) (key_positions combo) in
  let single := (List.length (key_positions combo) =? 1)%nat in
  let none := (List.length (key_positions combo) =? 0)%nat in
  outside || none || (single && is_some (slide combo)) = true ->
  print_combo self p_0 combo =
  (inl (if outside then IndexError
        else if none then ZeroDivisionError
        else ValueError "not enough values to unpack"), []).
Proof.
  cbv zeta. intros H. unfold print_combo.
  pose proof (map_exn_index (keys (layout self)) (key_positions combo))
    as Hidx.
  destruct (existsb _ (key_positions combo)); [now rewrite Hidx|].
  destruct Hidx as [p_keys [-> Hlen]]. cbn [orb] in H.
  change (lift (inr p_keys)) with (ret p_keys). rewrite bind_ret.
  rewrite <- Hlen in *.
  destruct p_keys as [|k [|k' p_keys]]; cbn [List.length Nat.eqb] in *.
  - reflexivity.
  - cbn [orb andb] in H.
    destruct (slide combo) as [sl|]; [|discriminate]. reflexivity.
  - discriminate.
Qed.

Lemma print_combo_rejects_witness :
  print_combo demo_drawer (mkPoint 30 56)
    {| key_positions := [0%Z; 2%Z]; combo_key := mkLayoutKey "esc" "" "" "";
       combo_layers := []; align := align_mid; offset := 0;
       dendron := None; slide := None; combo_type := "combo" |}
  = (inl IndexError, []).
Proof.
  apply (@print_combo_rejects demo_drawer (mkPoint 30 56)
    {| key_positions := [0%Z; 2%Z]; combo_key := mkLayoutKey "esc" "" "" "";
       combo_layers := []; align := align_mid; offset := 0;
       dendron := None; slide := None; combo_type := "combo" |}).
  reflexivity.
Defined.

(** *** A layer drawn without its legends *)

(** A key without legend: its rectangle of class key, inside a rotated
    group when the key is rotated. *)
Definition bare_key (self : KeymapDrawer) (p_0 : Point) (k : PhysicalKey)
  : list Chunk :=
  let p := padd p_0 (pos k) in
  let w := width k - 2 * inner_pad_w (cfg self) in
  let h := height k - 2 * inner_pad_h (cfg self) in
  let box :=
    Rect (key_rx (cfg self)) (key_ry (cfg self))
      (pt_x p - w / 2) (pt_y p - h / 2) w h (Some ["key"]) in
  if Reqb (rotation k) 0 then [box]
  else [RotateOpen (rotation k) (pt_x p) (pt_y p); box; GroupClose].

Lemma print_key_empty (self : KeymapDrawer) (p_0 : Point) (k : PhysicalKey) :
  print_key self p_0 k empty_LayoutKey = (inr tt, bare_key self p_0 k).
Proof.
  unfold print_key, bare_key, empty_LayoutKey.
  cbn [tap hold shifted key_type].
  change (_split_text "") with (@nil string).
  cbn [_draw_legend _is_glyph glyph_name_search _draw_text is_empty].
  destruct (Reqb (rotation k) 0); reflexivity.
Qed.

Lemma flat_map_fst_combine (A B C : Type) (f : A -> list C) (l : list A)
  (l' : list B) :
  flat_map (fun kl => f (fst kl)) (combine l l') =
  flat_map f (firstn (List.length l') l).
Proof.
  revert l'. induction l as [|a l IH]; intros [|b l']; try reflexivity.
  cbn [combine flat_map fst List.length firstn]. now rewrite IH.
Qed.

(** X14. With [empty_layer] set and no combos, [print_layer] does not
    raise and writes, for each key of the layout in order, its rectangle
    of class key alone (the legends and the type of the layer's key are
    left out), inside a group when the key is rotated; it stops at the
    number of keys of the layer when the layer has fewer keys than the
    layout, and leaves out the keys of the layer that are beyond the
    layout. *)
Theorem print_layer_empty (self : KeymapDrawer) (p_0 : Point)
  (layer_keys : list LayoutKey) :
  print_layer self p_0 layer_keys [] true =
  (inr tt,
   flat_map (bare_key self p_0)
     (firstn (List.length layer_keys) (keys (layout self)))).
Proof.
  unfold print_layer. cbn [negb for_each].
  rewrite for_each_written
    by (intros kl _; now rewrite print_key_empty).
  cbn [bind ret]. rewrite app_nil_r. f_equal.
  rewrite <- flat_map_fst_combine.
  apply flat_map_ext. intros kl. now rewrite print_key_empty.
Qed.

(** *** Computations that return *)

Definition returns (A : Type) (m : M A) : Prop :=
  match fst m with
  | inr _ => True
  | inl _ => False
  end.

Lemma returns_ret (A : Type) (a : A) : returns (ret a).
Proof. exact I. Qed.

Lemma returns_write (c : Chunk) : returns (write c).
Proof. exact I. Qed.

Lemma returns_bind (A B : Type) (m : M A) (f : A -> M B) :
  returns m -> (forall a, fst m = inr a -> returns (f a)) ->
  returns (bind m f).
Proof.
  unfold returns. rewrite fst_bind. intros Hm Hf.
  destruct (fst m) as [e|a]; [contradiction|]. now apply Hf.
Qed.

Lemma returns_bind_inv (A B : Type) (m : M A) (f : A -> M B) :
  returns (bind m f) ->
  exists a, fst m = inr a /\ returns (f a) /\
            snd (bind m f) = (snd m ++ snd (f a))%list.
Proof.
  unfold returns. rewrite fst_bind, snd_bind.
  destruct (fst m) as [e|a]; [contradiction|]. intros H. now exists a.
Qed.

Lemma returns_for_each (A : Type) (l : list A) (f : A -> M unit) :
  (forall a, In a l -> returns (f a)) -> returns (for_each l f).
Proof.
  induction l as [|a l IH]; intros Hf; [exact I|].
  cbn [for_each]. apply returns_bind; [apply Hf; now left|].
  intros _ _. apply IH. intros b Hb. apply Hf. now right.
Qed.

Lemma returns_unit (m : M unit) : returns m <-> fst m = inr tt.
Proof.
  unfold returns. destruct (fst m) as [e|[]]; split; intros H;
    try reflexivity; try exact I; try contradiction; discriminate.
Qed.

(** The glyphs of the configuration whose view box is found have a view
    box that [_draw_glyph] can divide by. *)
Definition sound_glyphs (self : KeymapDrawer) : Prop :=
  forall name glyph x y w h,
    dict_get name (glyphs (cfg self)) = Some glyph ->
    _view_box_dimensions self glyph = Some (x, y, w, h) ->
    h <> y.

Section Returning.

Variable self : KeymapDrawer.
Hypothesis Hglyphs : sound_glyphs self.

Lemma returns_draw_text (p : Point) (word : string) (classes : list string) :
  returns (_draw_text p word classes).
Proof. unfold _draw_text. now destruct (is_empty word). Qed.

Lemma returns_draw_textblock (p : Point) (words : list string)
  (classes : list string) (shift : R) :
  words <> [] -> returns (_draw_textblock self p words classes shift).
Proof.
  intros Hw. unfold _draw_textblock.
  apply returns_bind; [exact I|]. intros _ _.
  destruct words as [|word_0 rest]; [contradiction|].
  apply returns_bind; [exact I|]. intros _ _.
  apply returns_bind; [|intros; exact I].
  apply returns_for_each. intros; exact I.
Qed.

Lemma returns_draw_glyph (p : Point) (name : string)
  (legend_type : LegendType) (classes : list string) :
  returns (_draw_glyph self p name legend_type classes).
Proof.
  unfold _draw_glyph.
  destruct (dict_get name (glyphs (cfg self))) as [glyph|] eqn:Hg;
    [|exact I].
  destruct (is_empty glyph); [exact I|].
  destruct (_view_box_dimensions self glyph) as [[[[x y] w] h]|] eqn:Hv;
    [|exact I].
  pose proof (Hglyphs _ Hg Hv) as Hne.
  destruct legend_type; rewrite Reqb_false by lra; exact I.
Qed.

Lemma returns_draw_legend (p : Point) (words : list string)
  (key_type : string) (legend_type : LegendType) (shift : R) :
  returns (_draw_legend self p words key_type legend_type shift).
Proof.
  unfold _draw_legend. destruct words as [|word_0 rest]; [exact I|].
  assert (Htext : returns
            match word_0 :: rest with
            | [_] => _draw_text p word_0 [key_type; legend_name legend_type]
            | _ => _draw_textblock self p (word_0 :: rest)
                     [key_type; legend_name legend_type] shift
            end).
  { destruct rest; [apply returns_draw_text|].
    now apply returns_draw_textblock. }
  destruct (_is_glyph (word_0 :: rest)) as [glyph|]; [|exact Htext].
  destruct (is_empty glyph); [exact Htext|].
  apply returns_bind; [apply returns_draw_glyph|].
  intros [|] _; [exact I | exact Htext].
Qed.

Lemma returns_print_key (p_0 : Point) (p_key : PhysicalKey)
  (l_key : LayoutKey) :
  returns (print_key self p_0 p_key l_key).
Proof.
  unfold print_key.
  apply returns_bind; [now destruct (Reqb (rotation p_key) 0)|].
  intros _ _. apply returns_bind; [exact I|]. intros _ _.
  repeat (apply returns_bind; [apply returns_draw_legend|]; intros _ _).
  now destruct (Reqb (rotation p_key) 0).
Qed.

Lemma returns_print_layer (p_0 : Point) (layer_keys : list LayoutKey)
  (empty_layer : bool) :
  returns (print_layer self p_0 layer_keys [] empty_layer).
Proof.
  unfold print_layer. apply returns_bind; [|intros; exact I].
  apply returns_for_each. intros kl _. apply returns_print_key.
Qed.

End Returning.

(** *** The board *)

(** [print_board], the assertion on [draw_layers] and the layers that
    are drawn. *)
Definition valid_selection (self : KeymapDrawer)
  (draw_layers : option (list string)) : bool :=
  match draw_layers with
  | Some names => forallb (fun l => has_key l (layers (keymap self))) names
  | None => true
  end.

Definition selected_layers (self : KeymapDrawer)
  (draw_layers : option (list string)) : Layers :=
  match draw_layers with
  | Some ((_ :: _) as names) =>
      filter (fun nl => in_names (fst nl) names) (layers (keymap self))
  | _ => layers (keymap self)
  end.

(** [print_board], the statements after the selection of the layers. *)
Definition board_of (self : KeymapDrawer) (layers : Layers)
  (keys_only combos_only : bool) : M unit :=
  let combos_per_layer :=
    if negb keys_only then get_combos_per_layer (keymap self) layers
    else map (fun nl => (fst nl, [])) layers in
  offsets_per_layer <- lift (map_exn (layer_offsets self) combos_per_layer) ;;
  width <- lift (layout_width (layout self)) ;;
  let board_w := width + 2 * outer_pad_w (cfg self) in
  height <- lift (layout_height (layout self)) ;;
  let board_h :=
    INR (List.length layers) * height
    + (INR (List.length layers) + 1) * outer_pad_h (cfg self)
    + fold_left Rplus
        (map (fun o => fst (snd o) + snd (snd o)) offsets_per_layer) 0 in
  write (SvgOpen board_w board_h) ;;;
  write DefsOpen ;;;
  for_each (glyphs (cfg self)) (fun nb =>
    write (GlyphOpen (fst nb)) ;;;
    write (GlyphBlock (_scrub_dims self (snd nb))) ;;;
    write GlyphClose) ;;;
  write DefsClose ;;;
  write (Style (svg_style (cfg self))) ;;;
  print_layers self (mkPoint (outer_pad_w (cfg self)) 0) layers
    combos_per_layer offsets_per_layer combos_only ;;;
  write SvgClose.

Lemma print_board_selected (self : KeymapDrawer)
  (draw_layers : option (list string)) (keys_only combos_only : bool) :
  print_board self draw_layers keys_only combos_only =
  if valid_selection self draw_layers
  then board_of self (selected_layers self draw_layers) keys_only
         combos_only
  else (inl (AssertionError
          "Some layer names selected for drawing are not in the keymap"),
        []).
Proof.
  unfold print_board, valid_selection, selected_layers.
  destruct draw_layers as [[|n names]|].
  - cbn [forallb]. now rewrite bind_ret.
  - destruct (forallb _ (n :: names)).
    + now rewrite bind_ret.
    + now rewrite bind_raise.
  - now rewrite bind_ret.
Qed.

Lemma dict_get_const (A B : Type) (c : B) (name : string)
  (d : list (string * A)) :
  In name (map fst d) ->
  dict_get name (map (fun nl => (fst nl, c)) d) = Some c.
Proof.
  induction d as [|[k v] d IH]; [contradiction|].
  cbn [map fst dict_get In]. intros H.
  destruct (String.eqb_spec k name) as [_|Hne]; [reflexivity|].
  destruct H as [H|H]; [contradiction | now apply IH].
Qed.

Lemma map_exn_no_combos (self : KeymapDrawer) (layers : Layers) :
  map_exn (layer_offsets self)
    (map (fun nl => (fst nl, @nil ComboSpec)) layers)
  = inr (map (fun nl => (fst nl, (0, 0))) layers).
Proof.
  induction layers as [|nl layers IH]; [reflexivity|].
  cbn [map map_exn]. now rewrite IH.
Qed.

Lemma sum_no_offsets (layers : Layers) (a : R) :
  fold_left Rplus
    (map (fun o : string * (R * R) => fst (snd o) + snd (snd o))
       (map (fun nl => (fst nl, (0, 0))) layers)) a = a.
Proof.
  revert a. induction layers as [|nl layers IH]; intros a; [reflexivity|].
  cbn [map fold_left fst snd]. rewrite IH. lra.
Qed.

Lemma bind_write (A : Type) (c : Chunk) (m : M A) :
  bind (write c) (fun _ => m) = (fst m, c :: snd m).
Proof. now destruct m. Qed.

Lemma returns_print_layers (self : KeymapDrawer) (all : Layers)
  (combos_only : bool) :
  sound_glyphs self -> keys (layout self) <> [] ->
  forall layers p,
    incl (map fst layers) (map fst all) ->
    returns
      (print_layers self p layers
         (map (fun nl => (fst nl, @nil ComboSpec)) all)
         (map (fun nl => (fst nl, (0, 0))) all) combos_only).
Proof.
  intros Hglyphs Hkeys.
  destruct (@py_max_bound _ (fun k => y_pos k + height k / 2)
              (keys (layout self)) Hkeys) as [h [Hh _]].
  intros ls. induction ls as [|[name layer_keys] ls IH]; intros p Hincl;
    [exact I|].
  assert (Hname : In name (map fst all)) by (apply Hincl; now left).
  cbn [print_layers]. unfold dict_item, layout_height.
  rewrite !(dict_get_const _ _ _ Hname), Hh.
  apply returns_bind; [exact I|]. intros _ _.
  apply returns_bind; [apply returns_draw_text|]. intros _ _.
  change (lift (inr (0, 0))) with (ret (0, 0)). rewrite bind_ret.
  change (lift (inr (@nil ComboSpec))) with (ret (@nil ComboSpec)).
  rewrite bind_ret.
  apply returns_bind; [now apply returns_print_layer|]. intros _ _.
  rewrite bind_ret.
  change (lift (inr h)) with (ret h). rewrite bind_ret.
  apply returns_bind; [exact I|]. intros _ _.
  apply IH. intros n Hn. apply Hincl. now right.
Qed.

Lemma returns_board_keys_only (self : KeymapDrawer) (layers : Layers)
  (combos_only : bool) :
  sound_glyphs self -> keys (layout self) <> [] ->
  exists w h rest,
    layout_width (layout self) = inr w /\
    layout_height (layout self) = inr h /\
    board_of self layers true combos_only =
    (inr tt,
     SvgOpen (w + 2 * outer_pad_w (cfg self))
       (INR (List.length layers) * h
        + (INR (List.length layers) + 1) * outer_pad_h (cfg self))
       :: rest).
Proof.
  intros Hglyphs Hkeys.
  destruct (@py_max_bound _ (fun k => x_pos k + width k / 2)
              (keys (layout self)) Hkeys) as [w [Hw _]].
  destruct (@py_max_bound _ (fun k => y_pos k + height k / 2)
              (keys (layout self)) Hkeys) as [h [Hh _]].
  exists w, h.
  cut (exists rest,
         board_of self layers true combos_only =
         (inr tt,
          SvgOpen (w + 2 * outer_pad_w (cfg self))
            (INR (List.length layers) * h
             + (INR (List.length layers) + 1) * outer_pad_h (cfg self))
            :: rest)).
  { intros [rest Hrest]. now exists rest. }
  unfold board_of, layout_width, layout_height.
  cbn [negb]. rewrite map_exn_no_combos, Hw, Hh.
  change (lift (inr (map (fun nl : string * list LayoutKey =>
                            (fst nl, (0, 0))) layers)))
    with (ret (map (fun nl : string * list LayoutKey =>
                      (fst nl, (0, 0))) layers)).
  rewrite bind_ret.
  change (lift (inr w)) with (ret w). rewrite bind_ret.
  change (lift (inr h)) with (ret h). rewrite bind_ret.
  rewrite sum_no_offsets, Rplus_0_r, bind_write.
  match goal with
  | |- exists rest, (fst ?m, _ :: snd ?m) = _ =>
      assert (Hm : returns m); [|exists (snd m)]
  end.
  - apply returns_bind; [exact I|]. intros _ _.
    apply returns_bind.
    { apply returns_for_each. intros nb _.
      repeat (apply returns_bind; [exact I|]; intros _ _). exact I. }
    intros _ _.
    do 2 (apply returns_bind; [exact I|]; intros _ _).
    apply returns_bind; [|intros; exact I].
    apply returns_print_layers; [assumption | assumption |].
    intros n Hn. exact Hn.
  - apply returns_unit in Hm. now rewrite Hm.
Qed.

(** X15. With [keys_only] set, on a layout with keys, for glyphs whose
    view box can be divided by and names of layers that the keymap has,
    [print_board] does not raise, whatever the legends are; what it
    writes starts with the opening tag of the document, whose width is
    the width of the layout plus two outer paddings, and whose height is
    the height of the layout for each drawn layer plus one outer padding
    more than there are drawn layers. *)
Theorem print_board_keys_only (self : KeymapDrawer)
  (draw_layers : option (list string)) (combos_only : bool) :
  sound_glyphs self ->
  keys (layout self) <> [] ->
  valid_selection self draw_layers = true ->
  exists w h rest,
    layout_width (layout self) = inr w /\
    layout_height (layout self) = inr h /\
    let n := INR (List.length (selected_layers self draw_layers)) in
    print_board self draw_layers true combos_only =
    (inr tt,
     SvgOpen (w + 2 * outer_pad_w (cfg self))
       (n * h + (n + 1) * outer_pad_h (cfg self)) :: rest).
Proof.
  intros Hglyphs Hkeys Hvalid. rewrite print_board_selected, Hvalid.
  now apply returns_board_keys_only.
Qed.

Lemma demo_sound_glyphs : sound_glyphs demo_drawer.
Proof.
  intros name glyph x y w h _. cbn [_view_box_dimensions demo_drawer].
  unfold demo_view_box. destruct (String.eqb glyph demo_glyph);
    [|discriminate].
  intros H. injection H as <- <- <- <-. lra.
Qed.

Lemma print_board_keys_only_witness :
  exists w h rest,
    layout_width (layout demo_drawer) = inr w /\
    layout_height (layout demo_drawer) = inr h /\
    let n := INR (List.length (selected_layers demo_drawer (Some ["base"])))
    in
    print_board demo_drawer (Some ["base"]) true false =
    (inr tt,
     SvgOpen (w + 2 * outer_pad_w (cfg demo_drawer))
       (n * h + (n + 1) * outer_pad_h (cfg demo_drawer)) :: rest).
Proof.
  apply (@print_board_keys_only demo_drawer (Some ["base"]) false).
  - exact demo_sound_glyphs.
  - discriminate.
  - reflexivity.
Defined.

(** *** Reading what was written *)

(** A reader of the written chunks: it goes from state to state, or
    rejects a chunk. *)
Section Reader.

Variable S : Type.
Variable step : S -> Chunk -> option S.

Fixpoint run (s : S) (out : list Chunk) : option S :=
  match out with
  | [] => Some s
  | c :: out' =>
      match step s c with
      | Some s' => run s' out'
      | None => None
      end
  end.

Lemma run_app (s : S) (a b : list Chunk) :
  run s (a ++ b)%list =
  match run s a with
  | Some s' => run s' b
  | None => None
  end.
Proof.
  revert s. induction a as [|c a IH]; intros s; [reflexivity|].
  cbn [app run]. destruct (step s c); [apply IH | reflexivity].
Qed.

(** The reader accepts what the computation writes from the state [s],
    and is in the state [s'] when the computation returns. *)
Definition goes (s s' : S) (A : Type) (m : M A) : Prop :=
  exists s'', run s (snd m) = Some s'' /\
              match fst m with
              | inr _ => s'' = s'
              | inl _ => True
              end.

Lemma goes_ret (s : S) (A : Type) (a : A) : goes s s (ret a).
Proof. now exists s. Qed.

Lemma goes_raise (s s' : S) (A : Type) (e : exn) : goes s s' (raise A e).
Proof. now exists s. Qed.

Lemma goes_lift (s : S) (A : Type) (r : exn + A) : goes s s (lift r).
Proof. exists s. split; [reflexivity|]. now destruct r. Qed.

Lemma goes_write (s s' : S) (c : Chunk) :
  step s c = Some s' -> goes s s' (write c).
Proof. intros H. exists s'. cbn. now rewrite H. Qed.

Lemma goes_bind (s s' s'' : S) (A B : Type) (m : M A) (f : A -> M B) :
  goes s s' m -> (forall a, goes s' s'' (f a)) -> goes s s'' (bind m f).
Proof.
  intros [t [Hrun Ht]] Hf. unfold goes.
  rewrite snd_bind, fst_bind, run_app, Hrun.
  destruct (fst m) as [e|a].
  - now exists t.
  - subst t. apply Hf.
Qed.

Lemma goes_for_each (s : S) (A : Type) (l : list A) (f : A -> M unit) :
  (forall a, goes s s (f a)) -> goes s s (for_each l f).
Proof.
  intros Hf. induction l as [|a l IH]; [apply goes_ret|].
  cbn [for_each]. apply goes_bind with (s' := s); [apply Hf|].
  intros _. exact IH.
Qed.

(** Chunks that leave the reader where it is. *)
Lemma goes_writes (P : Chunk -> bool) (s : S) (A : Type) (m : M A) :
  (forall c, P c = true -> step s c = Some s) ->
  writes P m -> goes s s m.
Proof.
  intros HP Hm. exists s. split; [|now destruct (fst m)].
  unfold writes in Hm. induction (snd m) as [|c out IH]; [reflexivity|].
  cbn [forallb] in Hm. apply andb_true_iff in Hm as [Hc Hout].
  cbn [run]. rewrite (HP c Hc). now apply IH.
Qed.

End Reader.

(** *** The groups of the layers *)

(** The names of the layer groups among the written chunks. *)
Definition layer_names (out : list Chunk) : list string :=
  flat_map (fun c => match c with
                     | LayerOpen name => [name]
                     | _ => []
                     end) out.

(** A reader that expects the groups of the layers [names] in order. *)
Definition expect_layer (names : list string) (c : Chunk)
  : option (list string) :=
  match c with
  | LayerOpen name =>
      match names with
      | n :: names' => if String.eqb n name then Some names' else None
      | [] => None
      end
  | _ => Some names
  end.

Lemma expect_layer_names (out : list Chunk) :
  forall names rest,
    run expect_layer names out = Some rest ->
    names = (layer_names out ++ rest)%list.
Proof.
  induction out as [|c out IH]; intros names rest; cbn [run].
  - intros H. now injection H as <-.
  - destruct c; cbn [expect_layer layer_names flat_map app];
      try (intros H; now apply IH in H).
    destruct names as [|n names]; [discriminate|].
    destruct (String.eqb_spec n name) as [->|]; [|discriminate].
    intros H. apply IH in H. cbn [layer_names] in H. now rewrite H.
Qed.

Lemma layer_chunk_no_layer (names : list string) (c : Chunk) :
  layer_chunk c = true -> expect_layer names c = Some names.
Proof. now destruct c. Qed.

Lemma layers_print_layers (self : KeymapDrawer)
  (combos_per_layer : list (string * list ComboSpec))
  (offsets_per_layer : list (string * (R * R))) (combos_only : bool) :
  forall ls p,
    goes expect_layer (map fst ls) []
      (print_layers self p ls combos_per_layer offsets_per_layer
         combos_only).
Proof.
  intros ls. induction ls as [|[name layer_keys] ls IH]; intros p;
    [apply goes_ret|].
  cbn [print_layers map fst].
  apply goes_bind with (s' := map fst ls).
  { apply goes_write. cbn [expect_layer]. now rewrite String.eqb_refl. }
  intros _. apply goes_bind with (s' := map fst ls).
  { apply goes_writes with (P := layer_chunk);
      [apply layer_chunk_no_layer | apply escaped_draw_text]. }
  intros _. apply goes_bind with (s' := map fst ls); [apply goes_lift|].
  intros offsets. apply goes_bind with (s' := map fst ls);
    [apply goes_lift|].
  intros combos. apply goes_bind with (s' := map fst ls).
  { apply goes_writes with (P := layer_chunk);
      [apply layer_chunk_no_layer | apply escaped_print_layer]. }
  intros _. apply goes_bind with (s' := map fst ls); [apply goes_lift|].
  intros offsets'. apply goes_bind with (s' := map fst ls);
    [apply goes_lift|].
  intros h. apply goes_bind with (s' := map fst ls);
    [now apply goes_write|].
  intros _. apply IH.
Qed.

Lemma layers_board_of (self : KeymapDrawer) (ls : Layers)
  (keys_only combos_only : bool) :
  goes expect_layer (map fst ls) []
    (board_of self ls keys_only combos_only).
Proof.
  unfold board_of.
  do 3 (apply goes_bind with (s' := map fst ls); [apply goes_lift|];
        intros ?).
  do 2 (apply goes_bind with (s' := map fst ls); [now apply goes_write|];
        intros _).
  apply goes_bind with (s' := map fst ls).
  { apply goes_for_each. intros nb.
    do 2 (apply goes_bind with (s' := map fst ls);
          [now apply goes_write|]; intros _).
    now apply goes_write. }
  intros _.
  do 2 (apply goes_bind with (s' := map fst ls); [now apply goes_write|];
        intros _).
  apply goes_bind with (s' := @nil string);
    [apply layers_print_layers|].
  intros _. now apply goes_write.
Qed.

Lemma map_fst_filter (A : Type) (f : string -> bool)
  (d : list (string * A)) :
  map fst (filter (fun nl => f (fst nl)) d) = filter f (map fst d).
Proof.
  induction d as [|[k v] d IH]; [reflexivity|].
  cbn [filter map fst]. destruct (f k); cbn [map fst]; now rewrite IH.
Qed.

(** X16. The groups of the layers that [print_board] writes are those of
    the layers of the keymap that [draw_layers] names (all of them when
    it is empty or left out), each once, in the order of the keymap:
    neither the order of [draw_layers] nor a name given twice changes
    what is drawn. When the call raises, the groups written so far are
    the first of them. *)
Theorem print_board_layer_order (self : KeymapDrawer)
  (draw_layers : option (list string)) (keys_only combos_only : bool) :
  let names := map fst (layers (keymap self)) in
  let drawn :=
    match draw_layers with
    | Some ((_ :: _) as selected) =>
        filter (fun name => in_names name selected) names
    | _ => names
    end in
  let result := print_board self draw_layers keys_only combos_only in
  match fst result with
  | inr _ => layer_names (snd result) = drawn
  | inl _ => exists rest, drawn = (layer_names (snd result) ++ rest)%list
  end.
Proof.
  cbv zeta.
  assert (Hdrawn :
    match draw_layers with
    | Some ((_ :: _) as selected) =>
        filter (fun name => in_names name selected)
          (map fst (layers (keymap self)))
    | _ => map fst (layers (keymap self))
    end = map fst (selected_layers self draw_layers)).
  { unfold selected_layers. destruct draw_layers as [[|n selected]|];
      try reflexivity.
    symmetry. apply map_fst_filter with (f := fun name =>
      in_names name (n :: selected)). }
  rewrite Hdrawn, print_board_selected.
  destruct (valid_selection self draw_layers).
  - destruct (layers_board_of self (selected_layers self draw_layers)
                keys_only combos_only) as [rest [Hrun Hrest]].
    apply expect_layer_names in Hrun.
    destruct (fst (board_of _ _ _ _)) as [e|[]].
    + now exists rest.
    + subst rest. now rewrite app_nil_r in Hrun.
  - cbn [fst snd layer_names flat_map app]. now eexists.
Qed.

(** *** The nesting of the elements *)

Inductive Tag : Type := tag_svg | tag_defs | tag_g | tag_text.

Definition tag_eqb (a b : Tag) : bool :=
  match a, b with
  | tag_svg, tag_svg | tag_defs, tag_defs | tag_g, tag_g
  | tag_text, tag_text => true
  | _, _ => false
  end.

(** The element that a chunk opens and leaves open, or that it closes;
    the other chunks are whole elements or text. *)
Definition opens (c : Chunk) : option Tag :=
  match c with
  | SvgOpen _ _ | GlyphOpen _ => Some tag_svg
  | DefsOpen => Some tag_defs
  | RotateOpen _ _ _ | LayerOpen _ => Some tag_g
  | TextOpen _ _ _ => Some tag_text
  | _ => None
  end.

Definition closes (c : Chunk) : option Tag :=
  match c with
  | SvgClose | GlyphClose => Some tag_svg
  | DefsClose => Some tag_defs
  | GroupClose => Some tag_g
  | TextClose => Some tag_text
  | _ => None
  end.

(** A reader that keeps the open elements, the innermost first, and
    rejects a closing tag that is not the one of the innermost. *)
Definition nest (open : list Tag) (c : Chunk) : option (list Tag) :=
  match opens c, closes c with
  | Some t, _ => Some (t :: open)
  | None, Some t =>
      match open with
      | t' :: open' => if tag_eqb t t' then Some open' else None
      | [] => None
      end
  | None, None => Some open
  end.

(** The computation opens what it closes, inside any elements. *)
Definition nested (A : Type) (m : M A) : Prop :=
  forall open, goes nest open open m.

Lemma nested_ret (A : Type) (a : A) : nested (ret a).
Proof. intros open. apply goes_ret. Qed.

Lemma nested_raise (A : Type) (e : exn) : nested (raise A e).
Proof. intros open. apply goes_raise. Qed.

Lemma nested_lift (A : Type) (r : exn + A) : nested (lift r).
Proof. intros open. apply goes_lift. Qed.

Lemma nested_leaf (c : Chunk) :
  opens c = None -> closes c = None -> nested (write c).
Proof.
  intros Ho Hc open. apply goes_write. unfold nest. now rewrite Ho, Hc.
Qed.

Lemma nested_bind (A B : Type) (m : M A) (f : A -> M B) :
  nested m -> (forall a, nested (f a)) -> nested (bind m f).
Proof.
  intros Hm Hf open. apply goes_bind with (s' := open); [apply Hm|].
  intros a. apply Hf.
Qed.

Lemma nested_for_each (A : Type) (l : list A) (f : A -> M unit) :
  (forall a, nested (f a)) -> nested (for_each l f).
Proof. intros Hf open. apply goes_for_each. intros a. apply Hf. Qed.

(** An element: its opening tag, a nested content, its closing tag. *)
Lemma nested_element (t : Tag) (c_open c_close : Chunk) (A : Type)
  (m : M A) :
  opens c_open = Some t -> opens c_close = None -> closes c_close = Some t ->
  nested m ->
  nested (write c_open ;;; (m ;;; write c_close)).
Proof.
  intros Ho Hco Hc Hm open.
  apply goes_bind with (s' := t :: open).
  { apply goes_write. unfold nest. now rewrite Ho. }
  intros _. apply goes_bind with (s' := t :: open); [apply Hm|].
  intros _. apply goes_write. unfold nest. rewrite Hco, Hc.
  now destruct t.
Qed.

Lemma nested_draw_text (p : Point) (word : string) (classes : list string) :
  nested (_draw_text p word classes).
Proof.
  unfold _draw_text. destruct (is_empty word); [apply nested_ret|].
  now apply nested_leaf.
Qed.

Lemma nested_draw_textblock (self : KeymapDrawer) (p : Point)
  (words : list string) (classes : list string) (shift : R) :
  nested (_draw_textblock self p words classes shift).
Proof.
  unfold _draw_textblock. destruct words as [|word_0 rest].
  - intros open. apply goes_bind with (s' := tag_text :: open).
    + now apply goes_write.
    + intros _. apply goes_raise.
  - intros open. apply goes_bind with (s' := tag_text :: open);
      [now apply goes_write|].
    intros _. apply goes_bind with (s' := tag_text :: open);
      [now apply goes_write|].
    intros _. apply goes_bind with (s' := tag_text :: open).
    + apply goes_for_each. intros word. now apply goes_write.
    + intros _. now apply goes_write.
Qed.

Lemma nested_draw_glyph (self : KeymapDrawer) (p : Point) (name : string)
  (legend_type : LegendType) (classes : list string) :
  nested (_draw_glyph self p name legend_type classes).
Proof.
  unfold _draw_glyph.
  destruct (dict_get name (glyphs (cfg self))) as [glyph|];
    [|apply nested_ret].
  destruct (is_empty glyph); [apply nested_ret|].
  destruct (_view_box_dimensions self glyph) as [[[[x y] w] h]|];
    [|apply nested_ret].
  destruct legend_type; destruct (Reqb (h - y) 0);
    try apply nested_raise;
    (apply nested_bind; [now apply nested_leaf | intros _; apply nested_ret]).
Qed.

Lemma nested_draw_legend (self : KeymapDrawer) (p : Point)
  (words : list string) (key_type : string) (legend_type : LegendType)
  (shift : R) :
  nested (_draw_legend self p words key_type legend_type shift).
Proof.
  unfold _draw_legend. destruct words as [|word_0 rest]; [apply nested_ret|].
  assert (Htext : nested
            match word_0 :: rest with
            | [_] => _draw_text p word_0 [key_type; legend_name legend_type]
            | _ => _draw_textblock self p (word_0 :: rest)
                     [key_type; legend_name legend_type] shift
            end).
  { destruct rest; [apply nested_draw_text | apply nested_draw_textblock]. }
  destruct (_is_glyph (word_0 :: rest)) as [glyph|]; [|exact Htext].
  destruct (is_empty glyph); [exact Htext|].
  apply nested_bind; [apply nested_draw_glyph|].
  intros [|]; [apply nested_ret | exact Htext].
Qed.

Lemma nested_print_key (self : KeymapDrawer) (p_0 : Point)
  (p_key : PhysicalKey) (l_key : LayoutKey) :
  nested (print_key self p_0 p_key l_key).
Proof.
  unfold print_key. destruct (Reqb (rotation p_key) 0).
  - apply nested_bind; [apply nested_ret|]. intros _.
    apply nested_bind; [now apply nested_leaf|]. intros _.
    repeat (apply nested_bind; [apply nested_draw_legend|]; intros _).
    apply nested_ret.
  - intros open. apply goes_bind with (s' := tag_g :: open);
      [now apply goes_write|].
    intros _. apply goes_bind with (s' := tag_g :: open);
      [now apply goes_write|].
    intros _.
    repeat (apply goes_bind with (s' := tag_g :: open);
            [apply nested_draw_legend|]; intros _).
    now apply goes_write.
Qed.

Lemma nested_draw_dendrons (self : KeymapDrawer) (p_0 p : Point)
  (combo : ComboSpec) (p_keys : list PhysicalKey) :
  nested (draw_dendrons self p_0 p combo p_keys).
Proof.
  intros open. apply goes_writes with (P := fun c =>
    match c with
    | ArcPath _ _ _ _ _ _ _ | LinePath _ _ => true
    | _ => false
    end).
  { intros c Hc. now destruct c. }
  unfold draw_dendrons.
  assert (Harc : forall p_1 p_2 x_first shorten,
            writes (fun c => match c with
                             | ArcPath _ _ _ _ _ _ _ | LinePath _ _ => true
                             | _ => false
                             end)
              (_draw_arc_dendron self p_1 p_2 x_first shorten)).
  { intros p_1 p_2 x_first shorten. unfold _draw_arc_dendron.
    now destruct x_first. }
  assert (Hline : forall p_1 p_2 shorten,
            writes (fun c => match c with
                             | ArcPath _ _ _ _ _ _ _ | LinePath _ _ => true
                             | _ => false
                             end)
              (_draw_line_dendron p_1 p_2 shorten)).
  { intros p_1 p_2 shorten. unfold _draw_line_dendron.
    destruct (negb (Reqb shorten 0) && Rltb shorten (pabs (psub p_2 p_1)));
      [|reflexivity].
    now destruct (Reqb (pabs (psub p_2 p_1)) 0). }
  destruct (dendron combo) as [[|]|]; try reflexivity;
    destruct (align combo); apply writes_for_each; intros k;
    try apply Harc;
    (destruct (_ || _); [apply Hline | reflexivity]).
Qed.

Lemma nested_print_combo (self : KeymapDrawer) (p_0 : Point)
  (combo : ComboSpec) :
  nested (print_combo self p_0 combo).
Proof.
  unfold print_combo.
  do 3 (apply nested_bind; [apply nested_lift|]; intros ?).
  apply nested_bind; [apply nested_draw_dendrons|]. intros _.
  apply nested_bind; [now apply nested_leaf|]. intros _.
  repeat (apply nested_bind; [apply nested_draw_legend|]; intros _).
  apply nested_draw_legend.
Qed.

Lemma nested_print_layer (self : KeymapDrawer) (p_0 : Point)
  (layer_keys : list LayoutKey) (combos : list ComboSpec)
  (empty_layer : bool) :
  nested (print_layer self p_0 layer_keys combos empty_layer).
Proof.
  unfold print_layer. apply nested_bind.
  - apply nested_for_each. intros kl. apply nested_print_key.
  - intros _. apply nested_for_each. intros c. apply nested_print_combo.
Qed.

Lemma nested_print_layers (self : KeymapDrawer)
  (combos_per_layer : list (string * list ComboSpec))
  (offsets_per_layer : list (string * (R * R))) (combos_only : bool) :
  forall ls p,
    nested (print_layers self p ls combos_per_layer offsets_per_layer
              combos_only).
Proof.
  intros ls. induction ls as [|[name layer_keys] ls IH]; intros p;
    [apply nested_ret|].
  cbn [print_layers]. intros open.
  apply goes_bind with (s' := tag_g :: open); [now apply goes_write|].
  intros _. apply goes_bind with (s' := tag_g :: open);
    [apply nested_draw_text|].
  intros _. apply goes_bind with (s' := tag_g :: open); [apply goes_lift|].
  intros offsets. apply goes_bind with (s' := tag_g :: open);
    [apply goes_lift|].
  intros combos. apply goes_bind with (s' := tag_g :: open);
    [apply nested_print_layer|].
  intros _. apply goes_bind with (s' := tag_g :: open); [apply goes_lift|].
  intros offsets'. apply goes_bind with (s' := tag_g :: open);
    [apply goes_lift|].
  intros h. apply goes_bind with (s' := open); [now apply goes_write|].
  intros _. apply IH.
Qed.

Lemma nested_board_of (self : KeymapDrawer) (ls : Layers)
  (keys_only combos_only : bool) :
  nested (board_of self ls keys_only combos_only).
Proof.
  unfold board_of. intros open.
  do 3 (apply goes_bind with (s' := open); [apply goes_lift|]; intros ?).
  apply goes_bind with (s' := tag_svg :: open); [now apply goes_write|].
  intros _. apply goes_bind with (s' := tag_defs :: tag_svg :: open);
    [now apply goes_write|].
  intros _. apply goes_bind with (s' := tag_defs :: tag_svg :: open).
  { apply goes_for_each. intros nb.
    apply goes_bind with (s' := tag_svg :: tag_defs :: tag_svg :: open);
      [now apply goes_write|].
    intros _.
    apply goes_bind with (s' := tag_svg :: tag_defs :: tag_svg :: open);
      [now apply goes_write|].
    intros _. now apply goes_write. }
  intros _. apply goes_bind with (s' := tag_svg :: open);
    [now apply goes_write|].
  intros _. apply goes_bind with (s' := tag_svg :: open);
    [now apply goes_write|].
  intros _. apply goes_bind with (s' := tag_svg :: open);
    [apply nested_print_layers|].
  intros _. now apply goes_write.
Qed.

(** X17. In what [print_board] writes, no closing tag is written but that
    of the innermost open element (of the document, of the definitions,
    of a glyph, of a group of a layer or of a rotated key, of a text
    block); when the call returns, every element is closed. When it
    raises, the elements open at that point are left open. The content
    of a glyph and the style sheet are taken as text. *)
Theorem print_board_nesting (self : KeymapDrawer)
  (draw_layers : option (list string)) (keys_only combos_only : bool) :
  let result := print_board self draw_layers keys_only combos_only in
  match fst result with
  | inr _ => run nest [] (snd result) = Some []
  | inl _ => exists open, run nest [] (snd result) = Some open
  end.
Proof.
  cbv zeta. rewrite print_board_selected.
  destruct (valid_selection self draw_layers).
  - destruct (nested_board_of self (selected_layers self draw_layers)
                keys_only combos_only []) as [open [Hrun Hopen]].
    destruct (fst (board_of _ _ _ _)) as [e|[]].
    + now exists open.
    + now subst open.
  - cbn [fst snd run]. now eexists.
Qed.

(** *** The lines of a text block *)

(** Where the lines of the written spans are, in em below the anchor of
    their text element: the first span is written with the attribute dy
    set to minus [dy_0], each of the others is [dy] below the one before
    it. *)
Fixpoint span_offsets (above : R) (out : list Chunk) : list R :=
  match out with
  | [] => []
  | TSpanFirst _ dy_0 _ :: out' => - dy_0 :: span_offsets (- dy_0) out'
  | TSpan _ dy _ :: out' => (above + dy) :: span_offsets (above + dy) out'
  | _ :: out' => span_offsets above out'
  end.

(** The words of the written spans. *)
Definition span_words (out : list Chunk) : list string :=
  flat_map (fun c => match c with
                     | TSpanFirst _ _ word | TSpan _ _ word => [word]
                     | _ => []
                     end) out.

Lemma span_offsets_rest (x dy : R) (rest : list string) :
  forall above,
    span_offsets above
      (flat_map (fun word => [TSpan x dy (escape word)]) rest
       ++ [TextClose])%list
    = map (fun i => above + (INR i + 1) * dy) (seq 0 (List.length rest)).
Proof.
  induction rest as [|word rest IH]; intros above; [reflexivity|].
  cbn [flat_map app span_offsets List.length seq map].
  rewrite IH, <- seq_shift, map_map. f_equal.
  - cbn [INR]. lra.
  - apply map_ext. intros i. rewrite S_INR. lra.
Qed.

Lemma span_words_rest (x dy : R) (rest : list string) :
  span_words
    (flat_map (fun word => [TSpan x dy (escape word)]) rest ++ [TextClose])%list
  = map escape rest.
Proof.
  induction rest as [|word rest IH]; [reflexivity|].
  cbn [flat_map app map].
  change (span_words (TSpan x dy (escape word) :: ?l))
    with (escape word :: span_words l).
  now rewrite IH.
Qed.

(** X19. For words, a line spacing that is not negative and a shift of at
    least -1, [_draw_textblock] does not raise; it writes the opening
    tag, one span for each word in order (escaped) and the closing tag;
    the number written after the minus sign of the first span is not
    negative, and the line of index i (from 0, of n) is
    i - (n - 1)(1 + shift)/2 line spacings below the anchor: the block
    is centred on the anchor for the shift 0, ends on it for the shift 1
    and starts on it for the shift -1. *)
Theorem textblock_lines (self : KeymapDrawer) (p : Point)
  (words : list string) (classes : list string) (shift : R) :
  words <> [] ->
  0 <= line_spacing (cfg self) ->
  -1 <= shift ->
  let n := List.length words in
  let result := _draw_textblock self p words classes shift in
  fst result = inr tt /\
  List.length (snd result) = (n + 2)%nat /\
  span_words (snd result) = map escape words /\
  (exists x dy_0 word rest,
     snd result = TextOpen (pt_x p) (pt_y p) (_to_class_str classes)
                  :: TSpanFirst x dy_0 word :: rest /\ 0 <= dy_0) /\
  span_offsets 0 (snd result) =
  map (fun i => (INR i - (INR n - 1) * (1 + shift) / 2)
                * line_spacing (cfg self))
    (seq 0 n).
Proof.
  intros Hwords Hspacing Hshift. cbv zeta.
  destruct words as [|word_0 rest]; [contradiction|].
  unfold _draw_textblock. rewrite !bind_write.
  rewrite for_each_written by reflexivity.
  cbn [bind write fst snd List.length].
  replace (IZR (Z.of_nat (S (List.length rest)) - 1))
    with (INR (List.length rest))
    by (rewrite minus_IZR, <- INR_IZR_INZ, S_INR; lra).
  pose proof (pos_INR (List.length rest)) as Hn.
  split; [reflexivity|]. split.
  { rewrite length_app. cbn [List.length snd].
    assert (Hlen : forall f : string -> Chunk,
              List.length (flat_map (fun w => [f w]) rest)
              = List.length rest).
    { intros f. clear. induction rest as [|w rest IH]; [reflexivity|].
      cbn [flat_map app List.length]. now rewrite IH. }
    rewrite Hlen. lia. }
  split.
  { cbn [span_words flat_map app map]. f_equal.
    apply (span_words_rest (pt_x p) (line_spacing (cfg self)) rest). }
  split.
  { eexists. eexists. eexists. eexists. split; [reflexivity|].
    apply Rmult_le_pos; [exact Hn|].
    apply Rmult_le_pos; [|lra]. apply Rmult_le_pos; lra. }
  cbn [span_offsets seq map]. rewrite span_offsets_rest.
  rewrite <- seq_shift, map_map. f_equal.
  - rewrite S_INR. change (INR 0) with 0. field.
  - apply map_ext. intros i. rewrite !S_INR. field.
Qed.

Lemma textblock_lines_witness :
  let result :=
    _draw_textblock demo_drawer (mkPoint 30 56) ["a"; "b"] ["tap"] 0 in
  fst result = inr tt /\
  List.length (snd result) = 4%nat /\
  span_words (snd result) = map escape ["a"; "b"] /\
  (exists x dy_0 word rest,
     snd result = TextOpen 30 56 (_to_class_str ["tap"])
                  :: TSpanFirst x dy_0 word :: rest /\ 0 <= dy_0) /\
  span_offsets 0 (snd result) =
  map (fun i => (INR i - (INR 2 - 1) * (1 + 0) / 2)
                * line_spacing (cfg demo_drawer))
    (seq 0 2).
Proof.
  apply (@textblock_lines demo_drawer (mkPoint 30 56) ["a"; "b"] ["tap"] 0).
  - discriminate.
  - cbn [line_spacing cfg demo_drawer demo_config]. lra.
  - lra.
Defined.

End DrawMore.

(** * The keys of a grid layout do not overlap *)

Module LayoutTiles.

Import Layout LayoutProps LayoutMore.
Local Open Scope R_scope.

(** The rectangles of two keys that are not rotated have no inner point
    in common: their centres are apart by their half widths, or by
    their half heights. *)
Definition apart (a b : PhysicalKey) : Prop :=
  width a / 2 + width b / 2 <= Rabs (x_pos a - x_pos b) \/
  height a / 2 + height b / 2 <= Rabs (y_pos a - y_pos b).

(** A key as the builder makes it: default size, no rotation. *)
Definition default_key (k : PhysicalKey) : Prop :=
  width k = IZR KEY_W /\ height k = IZR KEY_H /\ rotation k = 0.

Lemma apart_x (x1 y1 x2 y2 : R) :
  IZR KEY_W <= x2 - x1 ->
  apart (PhysicalKey_at x1 y1) (PhysicalKey_at x2 y2).
Proof.
  intros H. left. cbn [width x_pos PhysicalKey_at].
  rewrite Rabs_left1 by (unfold KEY_W in *; lra). lra.
Qed.

Lemma apart_y (x1 y1 x2 y2 : R) :
  IZR KEY_H <= y2 - y1 ->
  apart (PhysicalKey_at x1 y1) (PhysicalKey_at x2 y2).
Proof.
  intros H. right. cbn [height y_pos PhysicalKey_at].
  rewrite Rabs_left1 by (unfold KEY_H in *; lra). lra.
Qed.

Lemma pairs_app (A : Type) (R : A -> A -> Prop) (l1 l2 : list A) :
  ForallOrdPairs R l1 -> ForallOrdPairs R l2 ->
  (forall a b, In a l1 -> In b l2 -> R a b) ->
  ForallOrdPairs R (l1 ++ l2).
Proof.
  intros H1 H2 Hcross. induction H1 as [|a l1 Ha H1 IH]; [exact H2|].
  cbn [app]. constructor.
  - apply Forall_app. split; [exact Ha|].
    apply Forall_forall. intros b Hb. apply Hcross; [now left | exact Hb].
  - apply IH. intros a' b Ha' Hb. apply Hcross; [now right | exact Hb].
Qed.

Lemma row_apart (n : nat) :
  forall x y, ForallOrdPairs apart (row n x y).
Proof.
  induction n as [|n IH]; intros x y; [constructor|].
  rewrite row_succ. constructor; [|apply IH].
  apply Forall_forall. intros k Hk. apply In_row in Hk as [i [_ ->]].
  apply apart_x. pose proof (pos_INR i). unfold KEY_W. lra.
Qed.

Lemma row_default (n : nat) (x y : R) :
  Forall default_key (row n x y).
Proof.
  apply Forall_forall. intros k Hk. apply In_row in Hk as [i [_ ->]].
  repeat split.
Qed.

Lemma halves_apart (ncols : Z) (x y : R) :
  ForallOrdPairs apart
    (row (Z.to_nat ncols) x y
     ++ row (Z.to_nat ncols) (x + IZR (ncols * KEY_W) + SPLIT_GAP) y).
Proof.
  apply pairs_app; try apply row_apart.
  intros a b Ha Hb.
  apply In_row in Ha as [i [Hi ->]]. apply In_row in Hb as [j [_ ->]].
  apply apart_x.
  apply INR_below in Hi as [_ Hi]. pose proof (pos_INR j).
  rewrite mult_IZR. unfold SPLIT_GAP, KEY_W in *. lra.
Qed.

Lemma grid_apart (n : nat) (ncols : Z) :
  forall x y, ForallOrdPairs apart (grid n ncols x y).
Proof.
  induction n as [|n IH]; intros x y; [constructor|].
  cbn [grid]. apply pairs_app; [apply halves_apart | apply IH |].
  intros a b Ha Hb.
  apply In_grid in Hb as [r [j [_ [_ Hb]]]].
  pose proof (pos_INR r).
  apply in_app_or in Ha as [Ha|Ha]; apply In_row in Ha as [i [_ ->]];
    destruct Hb as [-> | ->]; apply apart_y; unfold KEY_H; lra.
Qed.

Lemma In_grid1 (n : nat) (ncols : Z) (k : PhysicalKey) :
  forall x y, In k (grid1 n ncols x y) ->
  exists r i,
    k = PhysicalKey_at (x + INR i * IZR KEY_W + IZR KEY_W / 2)
          (y + INR r * IZR KEY_H + IZR KEY_H / 2).
Proof.
  induction n as [|n IH]; intros x y H; [contradiction|].
  cbn [grid1] in H. apply in_app_or in H as [H|H].
  - apply In_row in H as [i [_ ->]]. exists 0%nat, i. f_equal. simpl. lra.
  - apply IH in H as [r [i ->]]. exists (S r), i. rewrite S_INR.
    f_equal. lra.
Qed.

Lemma grid1_apart (n : nat) (ncols : Z) :
  forall x y, ForallOrdPairs apart (grid1 n ncols x y).
Proof.
  induction n as [|n IH]; intros x y; [constructor|].
  cbn [grid1]. apply pairs_app; [apply row_apart | apply IH |].
  intros a b Ha Hb.
  apply In_row in Ha as [i [_ ->]]. apply In_grid1 in Hb as [r [j ->]].
  pose proof (pos_INR r). apply apart_y. unfold KEY_H. lra.
Qed.

Lemma thumb_rows_apart (nrows ncols nthumbs : Z) :
  ForallOrdPairs apart (thumb_rows nrows ncols nthumbs).
Proof.
  unfold thumb_rows. destruct (nthumbs =? 0)%Z; [constructor|].
  apply pairs_app; try apply row_apart.
  intros a b Ha Hb.
  apply In_row in Ha as [i [Hi ->]]. apply In_row in Hb as [j [_ ->]].
  apply INR_below in Hi as [_ Hi]. pose proof (pos_INR j).
  apply apart_x. rewrite !mult_IZR, minus_IZR.
  unfold SPLIT_GAP, KEY_W in *. lra.
Qed.

Lemma unsplit_no_thumbs (nrows ncols nthumbs : Z) (l : OrthoLayout) :
  new_OrthoLayout (mkOrthoArgs false nrows ncols (Some nthumbs)) = inr l ->
  nthumbs = 0%Z.
Proof.
  unfold new_OrthoLayout, create_ortho_layout, check_thumbs.
  cbn [arg_thumbs arg_rows arg_columns arg_split validate_fields thumbs
       columns Layout.split].
  destruct (Z.eqb_spec nthumbs 0) as [Hz|Hz]; [easy|].
  destruct (nthumbs <=? ncols)%Z; cbn [negb]; discriminate.
Qed.

Lemma grid_default (n : nat) (ncols : Z) :
  forall x y, Forall default_key (grid n ncols x y).
Proof.
  induction n as [|n IH]; intros x y; [constructor|].
  cbn [grid]. rewrite !Forall_app. repeat split;
    [apply row_default | apply row_default | apply IH].
Qed.

Lemma grid1_default (n : nat) (ncols : Z) :
  forall x y, Forall default_key (grid1 n ncols x y).
Proof.
  induction n as [|n IH]; intros x y; [constructor|].
  cbn [grid1]. rewrite Forall_app. split; [apply row_default | apply IH].
Qed.

(** X18. In a grid layout that was built, whatever its arguments, every
    key has the default size and no rotation, and no two keys overlap:
    the centres of any two of them are at least a key width apart
    horizontally or a key height apart vertically. *)
Theorem ortho_keys_apart (kwargs : OrthoArgs) (l : OrthoLayout) :
  new_OrthoLayout kwargs = inr l ->
  Forall default_key (ortho_keys l) /\
  ForallOrdPairs apart (ortho_keys l).
Proof.
  destruct kwargs as [split nrows ncols [nthumbs|]]; [|discriminate].
  intros H. destruct split.
  - rewrite (split_keys_built _ _ _ H). split.
    + apply Forall_app. split; [apply grid_default|].
      unfold thumb_rows. destruct (nthumbs =? 0)%Z; [constructor|].
      apply Forall_app. split; apply row_default.
    + apply pairs_app; [apply grid_apart | apply thumb_rows_apart |].
      intros a b Ha Hb.
      apply In_grid in Ha as [r [i [Hr [_ Ha]]]].
      apply INR_below in Hr as [_ Hr].
      unfold thumb_rows in Hb. destruct (nthumbs =? 0)%Z; [contradiction|].
      apply in_app_or in Hb as [Hb|Hb]; apply In_row in Hb as [j [_ ->]];
        destruct Ha as [-> | ->]; apply apart_y; rewrite mult_IZR;
        unfold KEY_H in *; lra.
  - pose proof (unsplit_no_thumbs _ _ _ H) as ->.
    apply ortho_keys_built in H
      as [_ [_ [_ [_ [thumb_keys [Hlen ->]]]]]].
    destruct thumb_keys; [|discriminate Hlen]. rewrite app_nil_r.
    split; [apply grid1_default | apply grid1_apart].
Qed.

Lemma ortho_keys_apart_witness :
  exists l,
    new_OrthoLayout (mkOrthoArgs true 1 3 (Some 1%Z)) = inr l /\
    Forall default_key (ortho_keys l) /\
    ForallOrdPairs apart (ortho_keys l).
Proof.
  eexists. split; [reflexivity|].
  exact (@ortho_keys_apart (mkOrthoArgs true 1 3 (Some 1%Z)) _ eq_refl).
Defined.

End LayoutTiles.
